(** * HaxFootball board: scene, camera and history core

    A shallow embedding of the board component (the route component with its
    geometry utilities, the import normaliser, the undo history and the
    id-targeted element updates), and the properties its specification
    states about them.

    Conventions of the embedding.
    - A JavaScript number is a [jsnum]: an exact rational, one of the two
      infinities, or NaN.  Arithmetic on finite numbers is exact (no
      rounding, no overflow) and there is a single zero; the special values
      follow IEEE-754.
    - A runtime value is a [jsval].  An object is a finite map from property
      names to values; a property holding [undefined] is identified with an
      absent property, which no code path modelled here can tell apart.
      Deep equality of values is Leibniz equality.
    - An exception thrown by the program is [None]: a handler, or a state
      updater it queued, that throws gives no next state.  The conversions
      of the language throw on an object that cannot be converted to a
      primitive, which the JSON parser can build. *)

From Stdlib Require Import QArith Qcanon Lqa.
From stdpp Require Import gmap strings list numbers pretty.

Set Warnings "-register-all".

(** ** Numbers *)

Inductive jsnum :=
| Fin (q : Qc)
| PInf
| NInf
| NaN.

#[global] Instance jsnum_eq_dec : EqDecision jsnum.
Proof. solve_decision. Defined.

Definition Qc_ltb (a b : Qc) : bool :=
  match (a ?= b)%Qc with Lt => true | _ => false end.

Definition Qc_eqb (a b : Qc) : bool :=
  match (a ?= b)%Qc with Eq => true | _ => false end.

Module Num.

Definition zero : jsnum := Fin 0%Qc.
Definition one : jsnum := Fin 1%Qc.
Definition of_Z (n : Z) : jsnum := Fin (Q2Qc (inject_Z n)).
Definition of_nat (n : nat) : jsnum := of_Z (Z.of_nat n).
Definition frac (n : Z) (d : positive) : jsnum := Fin (Q2Qc (n # d)).

Definition isFinite (n : jsnum) : bool :=
  match n with Fin _ => true | _ => false end.

Definition isNaN (n : jsnum) : bool :=
  match n with NaN => true | _ => false end.

Definition opp (n : jsnum) : jsnum :=
  match n with
  | Fin q => Fin (- q)%Qc
  | PInf => NInf
  | NInf => PInf
  | NaN => NaN
  end.

Definition add (a b : jsnum) : jsnum :=
  match a, b with
  | NaN, _ | _, NaN => NaN
  | Fin x, Fin y => Fin (x + y)%Qc
  | PInf, NInf | NInf, PInf => NaN
  | PInf, _ | _, PInf => PInf
  | NInf, _ | _, NInf => NInf
  end.

Definition sub (a b : jsnum) : jsnum := add a (opp b).

(** An infinity times a finite number: the sign of the finite factor
    decides, and a zero factor gives NaN. *)
Definition scale_inf (inf : jsnum) (q : Qc) : jsnum :=
  match (q ?= 0)%Qc with
  | Eq => NaN
  | Gt => inf
  | Lt => opp inf
  end.

Definition mul (a b : jsnum) : jsnum :=
  match a, b with
  | NaN, _ | _, NaN => NaN
  | Fin x, Fin y => Fin (x * y)%Qc
  | Fin x, inf | inf, Fin x => scale_inf inf x
  | PInf, PInf | NInf, NInf => PInf
  | PInf, NInf | NInf, PInf => NInf
  end.

Definition div (a b : jsnum) : jsnum :=
  match a, b with
  | NaN, _ | _, NaN => NaN
  | Fin x, Fin y =>
      if Qc_eqb y 0 then
        match (x ?= 0)%Qc with Eq => NaN | Gt => PInf | Lt => NInf end
      else Fin (x / y)%Qc
  | Fin _, _ => zero
  | inf, Fin y => if Qc_ltb y 0 then opp inf else inf
  | _, _ => NaN
  end.

(** [a < b]; false as soon as one side is NaN. *)
Definition ltb (a b : jsnum) : bool :=
  match a, b with
  | NaN, _ | _, NaN => false
  | Fin x, Fin y => Qc_ltb x y
  | NInf, NInf | PInf, _ | _, NInf => false
  | NInf, _ | _, PInf => true
  end.

Definition gtb (a b : jsnum) : bool := ltb b a.

(** [Math.min] and [Math.max] of two numbers. *)
Definition min (a b : jsnum) : jsnum :=
  match a, b with
  | NaN, _ | _, NaN => NaN
  | _, _ => if ltb b a then b else a
  end.

Definition max (a b : jsnum) : jsnum :=
  match a, b with
  | NaN, _ | _, NaN => NaN
  | _, _ => if ltb a b then b else a
  end.

(** [Math.hypot(dx, dy) > eps].  The hypotenuse is infinite when one leg
    is, NaN when a leg is NaN and none is infinite; on finite legs the
    comparison with a finite [eps] is decided exactly on the squares. *)
Definition hypot_gt (dx dy eps : jsnum) : bool :=
  match dx, dy with
  | PInf, _ | NInf, _ | _, PInf | _, NInf => gtb PInf eps
  | NaN, _ | _, NaN => false
  | Fin x, Fin y =>
      match eps with
      | NaN | PInf => false
      | NInf => true
      | Fin e => Qc_ltb e 0 || Qc_ltb (e * e)%Qc (x * x + y * y)%Qc
      end
  end.

(** Truthiness of a number: [0] and NaN are falsy. *)
Definition truthy (n : jsnum) : bool :=
  match n with
  | Fin q => negb (Qc_eqb q 0)
  | NaN => false
  | _ => true
  end.

(** [n || 0]. *)
Definition or_zero (n : jsnum) : jsnum := if truthy n then n else zero.

(** The closed interval [lo, hi]; NaN belongs to no interval. *)
Definition between (lo hi n : jsnum) : Prop :=
  ltb n lo = false ∧ ltb hi n = false ∧ isNaN n = false.

End Num.

Declare Scope jsnum_scope.
Delimit Scope jsnum_scope with js.
Bind Scope jsnum_scope with jsnum.
Infix "+" := Num.add : jsnum_scope.
Infix "-" := Num.sub : jsnum_scope.
Infix "*" := Num.mul : jsnum_scope.
Infix "/" := Num.div : jsnum_scope.

(** ** Constants *)

Definition CURVE_MIN_DRAW_GAP : jsnum := Num.of_Z 5.
Definition CURVE_POINT_EPSILON : jsnum := Num.frac 3 4.
Definition HISTORY_LIMIT : nat := 50.

(** ** Geometry utilities *)

Record Point := mkPoint { pt_x : jsnum; pt_y : jsnum }.

#[global] Instance Point_eq_dec : EqDecision Point.
Proof. solve_decision. Defined.

Definition clamp (v a b : jsnum) : jsnum := Num.min b (Num.max a v).

(** One Bernstein sample: the loop body of [sampleCubicPoints]. *)
Definition cubicAt (start control1 control2 end_ : Point) (t : jsnum) : Point :=
  let mt := (Num.one - t)%js in
  let mt2 := (mt * mt)%js in
  let t2 := (t * t)%js in
  let three := Num.of_Z 3 in
  let coord (f : Point → jsnum) : jsnum :=
    (mt2 * mt * f start + three * mt2 * t * f control1
     + three * mt * t2 * f control2 + t2 * t * f end_)%js in
  mkPoint (coord pt_x) (coord pt_y).

Definition sampleCubicPoints (start control1 control2 end_ : Point)
    (segments : nat) : list Point :=
  (λ i : nat,
     cubicAt start control1 control2 end_
       (Num.of_nat i / Num.of_nat segments)%js) <$> seq 0 (S segments).

(** [Math.hypot(pt.x - prev.x, pt.y - prev.y) > epsilon]. *)
Definition far (epsilon : jsnum) (prev pt : Point) : bool :=
  Num.hypot_gt (pt_x pt - pt_x prev)%js (pt_y pt - pt_y prev)%js epsilon.

(** The body of the loop of [prunePoints]: [result] is the array built so
    far, in array order. *)
Definition prune_step (epsilon : jsnum) (result : list Point) (pt : Point)
    : list Point :=
  match last result with
  | None => result ++ [pt]
  | Some prev =>
      if far epsilon prev pt then result ++ [pt]
      else <[pred (length result) := pt]> result
  end.

Definition prune_pass (epsilon : jsnum) (points : list Point) : list Point :=
  foldl (prune_step epsilon) [] points.

Definition prunePoints (epsilon : jsnum) (points : list Point) : list Point :=
  let result := prune_pass epsilon points in
  if decide (2 ≤ length result) then result else take 2 points.

(** Every two consecutive points are more than [epsilon] apart. *)
Fixpoint spaced (epsilon : jsnum) (l : list Point) : Prop :=
  match l with
  | a :: (b :: _) as rest => far epsilon a b = true ∧ spaced epsilon rest
  | _ => True
  end.

Definition pt (xn : Z) (xd : positive) (yn : Z) (yd : positive) : Point :=
  mkPoint (Num.frac xn xd) (Num.frac yn yd).

(** ** Camera *)

Record Camera := mkCamera { cam_x : jsnum; cam_y : jsnum; cam_scale : jsnum }.

Record Viewport := mkViewport { vp_w : jsnum; vp_h : jsnum }.

Definition two : jsnum := Num.of_Z 2.

(** Screen to world, as [worldFromPointer] computes it once the pointer
    position is known. *)
Definition screenToWorld (p : Point) (camera : Camera) (viewport : Viewport)
    : Point :=
  mkPoint ((pt_x p - vp_w viewport / two - cam_x camera) / cam_scale camera)%js
          ((pt_y p - vp_h viewport / two - cam_y camera) / cam_scale camera)%js.

(** [stage.getPointerPosition()] may be null. *)
Definition worldFromPointer (pointer : option Point) (camera : Camera)
    (viewport : Viewport) : Point :=
  match pointer with
  | None => mkPoint Num.zero Num.zero
  | Some p => screenToWorld p camera viewport
  end.

(** World to screen: the transform of the world group of the stage,
    positioned at [vp/2 + camera] and scaled by [camera.scale]. *)
Definition worldToScreen (p : Point) (camera : Camera) (viewport : Viewport)
    : Point :=
  mkPoint (vp_w viewport / two + cam_x camera + pt_x p * cam_scale camera)%js
          (vp_h viewport / two + cam_y camera + pt_y p * cam_scale camera)%js.

Definition cameraZoomTo (camera : Camera) (anchorScreen : Point)
    (newScale : jsnum) (viewport : Viewport) : Camera :=
  let worldX :=
    ((pt_x anchorScreen - vp_w viewport / two - cam_x camera)
     / cam_scale camera)%js in
  let worldY :=
    ((pt_y anchorScreen - vp_h viewport / two - cam_y camera)
     / cam_scale camera)%js in
  {| cam_scale := newScale;
     cam_x := (pt_x anchorScreen - vp_w viewport / two - worldX * newScale)%js;
     cam_y := (pt_y anchorScreen - vp_h viewport / two - worldY * newScale)%js |}.

Definition finiteCamera (c : Camera) : Prop :=
  Num.isFinite (cam_x c) = true ∧ Num.isFinite (cam_y c) = true ∧
  Num.isFinite (cam_scale c) = true.

Definition finiteViewport (v : Viewport) : Prop :=
  Num.isFinite (vp_w v) = true ∧ Num.isFinite (vp_h v) = true.

(** ** Runtime values *)

Inductive jsval :=
| JNull
| JBool (b : bool)
| JNum (n : jsnum)
| JStr (s : string)
| JArr (l : list jsval)
| JObj (o : gmap string jsval).

(** What the embedding takes from the JavaScript host: the identifier
    generator (the [n]-th identifier it hands out), the JSON parser
    ([None] when it throws), and the coercions of the language that only
    matter on ill-typed data. *)
Class Host := {
  uuidv4 : nat → string;
  JSON_parse : string → option jsval;
  (** [Number(s)] on a string. *)
  StringToNumber : string → jsnum;
  (** [Number(v)] on an array or an object; [None] when the conversion to
      a primitive throws, as on an object whose own [valueOf] and
      [toString] cannot be called. *)
  ObjectToNumber : jsval → option jsnum;
  (** [s + n] on a string. *)
  append_number : string → jsnum → string;
  (** [v + n] on an array or an object; [None] when the conversion to a
      primitive throws. *)
  concat_number : jsval → jsnum → option jsval;
}.

(** [v.k] for the property names this program reads ([kind], [id],
    [points], the coordinates, [color], [dashed], [elements], [camera],
    [scale]): on anything but a plain object these are undefined.  The
    caller guards the receivers on which the access throws. *)
Definition get (v : jsval) (k : string) : option jsval :=
  match v with
  | JObj o => o !! k
  | _ => None
  end.

(** [p?.k] *)
Definition get_opt (v : jsval) (k : string) : option jsval := get v k.

(** [v === s] for a string literal [s]. *)
Definition is_str (v : option jsval) (s : string) : bool :=
  match v with
  | Some (JStr t) => bool_decide (t = s)
  | _ => false
  end.

(** [typeof v === "number"] *)
Definition as_number (v : option jsval) : option jsnum :=
  match v with
  | Some (JNum n) => Some n
  | _ => None
  end.

(** [Boolean(v)] *)
Definition truthy (v : option jsval) : bool :=
  match v with
  | None | Some JNull => false
  | Some (JBool b) => b
  | Some (JNum n) => Num.truthy n
  | Some (JStr s) => negb (bool_decide (s = EmptyString))
  | Some (JArr _) | Some (JObj _) => true
  end.

(** [typeof v === "object"], which holds of [null] too. *)
Definition typeof_object (v : jsval) : bool :=
  match v with
  | JNull | JArr _ | JObj _ => true
  | _ => false
  end.

Definition is_JObj (v : jsval) : Prop :=
  match v with JObj _ => True | _ => False end.

(** An object literal: the properties whose value is undefined are left
    out. *)
Definition obj_of (fields : list (string * option jsval)) : gmap string jsval :=
  foldr (λ f o, match f.2 with Some v => <[f.1 := v]> o | None => o end)
        ∅ fields.

Definition index_key (i : nat) : string := pretty i.

(** The own enumerable properties copied by a spread [{...v}]. *)
Definition spread (v : jsval) : gmap string jsval :=
  match v with
  | JObj o => o
  | JArr l => list_to_map (imap (λ i x, (index_key i, x)) l)
  | JStr s =>
      list_to_map
        (imap (λ i c, (index_key i, JStr (String c EmptyString)))
              (String.list_ascii_of_string s))
  | _ => ∅
  end.

Definition Point_toJS (p : Point) : jsval :=
  JObj (<["x" := JNum (pt_x p)]> (<["y" := JNum (pt_y p)]> ∅)).

Definition Camera_toJS (c : Camera) : jsval :=
  JObj (<["scale" := JNum (cam_scale c)]>
        (<["x" := JNum (cam_x c)]> (<["y" := JNum (cam_y c)]> ∅))).

(** ** Document model: cloning *)

(** [{ x: p.x, y: p.y }]; reading a property of [null] throws. *)
Definition clonePoint (p : jsval) : option jsval :=
  match p with
  | JNull => None
  | _ => Some (JObj (obj_of [("x", get p "x"); ("y", get p "y")]))
  end.

Definition cloneElement (el : jsval) : option jsval :=
  match el with
  | JNull => None
  | _ =>
      if is_str (get el "kind") "arrow-curve" then
        match get el "points" with
        | Some (JArr ps) =>
            pts ← mapM clonePoint ps;
            Some (JObj (<["points" := JArr pts]> (spread el)))
        | _ => None
        end
      else Some (JObj (spread el))
  end.

Definition cloneElements (elements : list jsval) : option (list jsval) :=
  mapM cloneElement elements.

Definition normalizeArrowColor (color : option jsval) : string :=
  if is_str color "redLine" || is_str color "red" then "redLine"
  else if is_str color "blueLine" || is_str color "blue" then "blueLine"
  else if is_str color "yellow" then "yellow"
  else "blueLine".

(** The entries the [map] of the normaliser lets through are cloned to
    objects. *)
Definition clonesToObject (r : jsval) : Prop :=
  ∃ o, cloneElement r = Some (JObj o).

(** ** Import normalisation *)

Section Normalize.
Context `{Host}.

(** [Number(v)], and the coercion of an operand of [-], [*] and [/]; it
    throws on an array or an object that has no primitive value. *)
Definition ToNumber (v : option jsval) : option jsnum :=
  match v with
  | None => Some NaN
  | Some JNull => Some Num.zero
  | Some (JBool b) => Some (if b then Num.one else Num.zero)
  | Some (JNum n) => Some n
  | Some (JStr s) => Some (StringToNumber s)
  | Some w => ObjectToNumber w
  end.

(** [{ x: Number(p?.x) || 0, y: Number(p?.y) || 0 }] *)
Definition coercePoint (p : jsval) : option Point :=
  x ← ToNumber (get_opt p "x");
  y ← ToNumber (get_opt p "y");
  Some (mkPoint (Num.or_zero x) (Num.or_zero y)).

Definition finitePoint (p : Point) : bool :=
  Num.isFinite (pt_x p) && Num.isFinite (pt_y p).

(** [el.id ?? uuidv4()], with the number of identifiers drawn so far. *)
Definition id_or_fresh (el : jsval) (n : nat) : jsval * nat :=
  match get el "id" with
  | None | Some JNull => (JStr (uuidv4 n), S n)
  | Some v => (v, n)
  end.

Definition curveObject (id : jsval) (points : list Point) (color : string)
    (dashed : bool) : jsval :=
  JObj (obj_of [("id", Some id); ("kind", Some (JStr "arrow-curve"));
                ("points", Some (JArr (Point_toJS <$> points)));
                ("color", Some (JStr color)); ("dashed", Some (JBool dashed))]).

Definition straightObject (id : jsval) (x1 y1 x2 y2 : jsnum) (color : string)
    (dashed : bool) : jsval :=
  JObj (obj_of [("id", Some id); ("kind", Some (JStr "arrow-straight"));
                ("x1", Some (JNum x1)); ("y1", Some (JNum y1));
                ("x2", Some (JNum x2)); ("y2", Some (JNum y2));
                ("color", Some (JStr color)); ("dashed", Some (JBool dashed))]).

(** The eight coordinates of the legacy cubic description, when all are
    numbers. *)
Definition legacyCubic (el : jsval) : option (Point * Point * Point * Point) :=
  x1 ← as_number (get el "x1"); y1 ← as_number (get el "y1");
  x2 ← as_number (get el "x2"); y2 ← as_number (get el "y2");
  cx1 ← as_number (get el "cx1"); cy1 ← as_number (get el "cy1");
  cx2 ← as_number (get el "cx2"); cy2 ← as_number (get el "cy2");
  Some (mkPoint x1 y1, mkPoint cx1 cy1, mkPoint cx2 cy2, mkPoint x2 y2).

(** [Array.isArray(el.points) && el.points.length >= 2] *)
Definition pointList (el : jsval) : option (list jsval) :=
  match get el "points" with
  | Some (JArr ps) => if decide (2 ≤ length ps) then Some ps else None
  | _ => None
  end.

(** The callback of the [map] of [normalizeImportedElements]: the mapped
    entry ([None] for [null]) and the identifiers drawn so far; the whole
    is [None] when a [Number(...)] of the callback throws. *)
Definition normalizeEntry (el : jsval) (n : nat) : option (option jsval * nat) :=
  if negb (truthy (Some el)) || negb (typeof_object el) then Some (None, n)
  else if is_str (get el "kind") "arrow-curve" then
    match pointList el with
    | Some ps =>
        coerced ← mapM coercePoint ps;
        let points :=
          prunePoints CURVE_POINT_EPSILON
            (filter (λ p, finitePoint p = true) coerced) in
        if decide (length points < 2) then Some (None, n)
        else
          let color := normalizeArrowColor (get el "color") in
          let '(id, n') := id_or_fresh el n in
          Some (Some (curveObject id points color (truthy (get el "dashed"))), n')
    | None =>
        match legacyCubic el with
        | Some (p0, c1, c2, p3) =>
            let points :=
              prunePoints CURVE_POINT_EPSILON
                (sampleCubicPoints p0 c1 c2 p3 24) in
            let color := normalizeArrowColor (get el "color") in
            let '(id, n') := id_or_fresh el n in
            Some (Some (curveObject id points color (truthy (get el "dashed"))),
                  n')
        | None => Some (None, n)
        end
    end
  else if is_str (get el "kind") "arrow-straight" then
    x1 ← ToNumber (get el "x1");
    y1 ← ToNumber (get el "y1");
    x2 ← ToNumber (get el "x2");
    y2 ← ToNumber (get el "y2");
    if Num.isFinite x1 && Num.isFinite y1 && Num.isFinite x2 && Num.isFinite y2
    then
      let '(id, n') := id_or_fresh el n in
      Some (Some (straightObject id x1 y1 x2 y2
                    (normalizeArrowColor (get el "color"))
                    (truthy (get el "dashed"))), n')
    else Some (None, n)
  else Some (Some el, n).

Fixpoint normalizeMap (raw : list jsval) (n : nat)
    : option (list (option jsval) * nat) :=
  match raw with
  | [] => Some ([], n)
  | el :: rest =>
      '(r, n1) ← normalizeEntry el n;
      '(rs, n2) ← normalizeMap rest n1;
      Some (r :: rs, n2)
  end.

(** [raw.map(...).filter(Boolean)] followed by [cloneElements]; no array
    is returned when the callback of the [map] or the cloning throws. *)
Definition normalizeImportedElements (raw : list jsval) (n : nat)
    : option (list jsval) * nat :=
  match normalizeMap raw n with
  | Some (mapped, n') => (cloneElements (omap id mapped), n')
  | None => (None, n)
  end.

End Normalize.

(** An entry of the imported array that is an object in the sense of
    [typeof] and is not [null]. *)
Definition isObjectEntry (v : jsval) : bool :=
  match v with
  | JArr _ | JObj _ => true
  | _ => false
  end.

(** The entries kept by the [filter(Boolean)] of the normaliser, with the
    identifiers drawn. *)
Definition kept (r : list (option jsval) * nat) : list jsval * nat :=
  (omap id r.1, r.2).

(** ** Editor state *)

Record State := mkState {
  elements : list jsval;
  camera : jsval;
  vp : Viewport;
  historyRef : list (list jsval);
  isUndoingRef : bool;
  selectedId : option string;
  importDialogOpen : bool;
  alerts : list string;
  (** identifiers drawn from the generator so far *)
  uuidCount : nat;
}.

Definition set_elements (els : list jsval) (st : State) : State :=
  mkState els (camera st) (vp st) (historyRef st) (isUndoingRef st)
    (selectedId st) (importDialogOpen st) (alerts st) (uuidCount st).

Definition set_camera (c : jsval) (st : State) : State :=
  mkState (elements st) c (vp st) (historyRef st) (isUndoingRef st)
    (selectedId st) (importDialogOpen st) (alerts st) (uuidCount st).

Definition set_history (h : list (list jsval)) (st : State) : State :=
  mkState (elements st) (camera st) (vp st) h (isUndoingRef st)
    (selectedId st) (importDialogOpen st) (alerts st) (uuidCount st).

Definition set_isUndoing (b : bool) (st : State) : State :=
  mkState (elements st) (camera st) (vp st) (historyRef st) b
    (selectedId st) (importDialogOpen st) (alerts st) (uuidCount st).

Definition set_selectedId (s : option string) (st : State) : State :=
  mkState (elements st) (camera st) (vp st) (historyRef st) (isUndoingRef st)
    s (importDialogOpen st) (alerts st) (uuidCount st).

Definition set_importDialogOpen (b : bool) (st : State) : State :=
  mkState (elements st) (camera st) (vp st) (historyRef st) (isUndoingRef st)
    (selectedId st) b (alerts st) (uuidCount st).

Definition alert (msg : string) (st : State) : State :=
  mkState (elements st) (camera st) (vp st) (historyRef st) (isUndoingRef st)
    (selectedId st) (importDialogOpen st) (alerts st ++ [msg]) (uuidCount st).

Definition set_uuidCount (n : nat) (st : State) : State :=
  mkState (elements st) (camera st) (vp st) (historyRef st) (isUndoingRef st)
    (selectedId st) (importDialogOpen st) (alerts st) n.

(** ** History manager *)

(** The history array is kept in array order: the oldest snapshot first,
    [push] appends, [shift] removes the head, [pop] removes the last. *)
Definition pushHistory (snapshot : list jsval) (st : State) : option State :=
  cloned ← cloneElements snapshot;
  let pushed := historyRef st ++ [cloned] in
  Some (set_history
          (if decide (HISTORY_LIMIT < length pushed) then drop 1 pushed
           else pushed) st).

(** What an updater hands back: the array it was given ([next === prev]),
    or a new array. *)
Inductive Updated :=
| Same
| Fresh (next : list jsval).

Definition Updater := list jsval → option Updated.

Definition applyElementsUpdate (updater : Updater) (st : State) : option State :=
  let prev := elements st in
  u ← updater prev;
  match u with
  | Same => Some st
  | Fresh next =>
      st1 ← (if isUndoingRef st then Some st else pushHistory prev st);
      Some (set_elements next st1)
  end.

Definition replaceElements (next : list jsval) (st : State) : option State :=
  st1 ← (if isUndoingRef st then Some st else pushHistory (elements st) st);
  cloned ← cloneElements next;
  Some (set_selectedId None (set_elements cloned st1)).

Definition undo (st : State) : option State :=
  match last (historyRef st) with
  | None => Some st
  | Some snapshot =>
      let st1 :=
        set_isUndoing true
          (set_history (take (pred (length (historyRef st))) (historyRef st)) st) in
      cloned ← cloneElements snapshot;
      Some (set_isUndoing false (set_elements cloned st1))
  end.

(** The history holds no more snapshots than its limit. *)
Definition bounded (st : State) : Prop :=
  length (historyRef st) ≤ HISTORY_LIMIT.

(** ** Element updates *)

(** [els.map((e) => (e.id === id ? f(e) : e))]; reading [e.id] throws on
    [null]. *)
Definition on_id (id : string) (f : jsval → option jsval) (e : jsval)
    : option jsval :=
  match e with
  | JNull => None
  | _ => if is_str (get e "id") id then f e else Some e
  end.

Definition mapById (id : string) (f : jsval → option jsval) : Updater :=
  λ els, Fresh <$> mapM (on_id id f) els.

(** [e.id !== id] *)
Definition other_id (id : string) (e : jsval) : Prop :=
  is_str (get e "id") id = false.

#[global] Instance other_id_dec (id : string) (e : jsval) :
  Decision (other_id id e).
Proof. unfold other_id. apply _. Defined.

(** [{ ...e, x, y }] *)
Definition withXY (x y : jsnum) (e : jsval) : option jsval :=
  Some (JObj (<["y" := JNum y]> (<["x" := JNum x]> (spread e)))).

Section Updates.
Context `{Host}.

(** [v + d] for a number [d]: a sum of numbers, a concatenation on a
    string, and on an array or an object the concatenation with its
    primitive value, which throws when it has none. *)
Definition plus (v : option jsval) (d : jsnum) : option jsval :=
  match v with
  | None => Some (JNum NaN)
  | Some JNull => Some (JNum (Num.zero + d)%js)
  | Some (JBool b) => Some (JNum ((if b then Num.one else Num.zero) + d)%js)
  | Some (JNum n) => Some (JNum (n + d)%js)
  | Some (JStr s) => Some (JStr (append_number s d))
  | Some w => concat_number w d
  end.

Definition movePlayer (id : string) (x y : jsnum) : Updater :=
  mapById id (withXY x y).

Definition moveBall (id : string) (x y : jsnum) : Updater :=
  mapById id (withXY x y).

Definition moveStraight (id : string) (dx dy : jsnum) : Updater :=
  mapById id (λ e,
    x1 ← plus (get e "x1") dx;
    y1 ← plus (get e "y1") dy;
    x2 ← plus (get e "x2") dx;
    y2 ← plus (get e "y2") dy;
    Some (JObj (<["y2" := y2]> (<["x2" := x2]> (<["y1" := y1]>
                (<["x1" := x1]> (spread e))))))).

(** [{ x: p.x + dx, y: p.y + dy }] *)
Definition shiftPoint (dx dy : jsnum) (p : jsval) : option jsval :=
  match p with
  | JNull => None
  | _ =>
      x ← plus (get p "x") dx;
      y ← plus (get p "y") dy;
      Some (JObj (<["x" := x]> (<["y" := y]> ∅)))
  end.

Definition moveCurve (id : string) (dx dy : jsnum) : Updater :=
  mapById id (λ e,
    match get e "points" with
    | Some (JArr ps) =>
        pts ← mapM (shiftPoint dx dy) ps;
        Some (JObj (<["points" := JArr pts]> (spread e)))
    | _ => None
    end).

(** [{ ...e, ...patch }] *)
Definition updateElement (id : string) (patch : gmap string jsval) : Updater :=
  mapById id (λ e, Some (JObj (patch ∪ spread e))).

(** [els.filter((e) => e.id !== id)] *)
Definition deleteUpdater (id : string) : Updater :=
  λ els,
    _ ← mapM (on_id id Some) els;
    Some (Fresh (filter (other_id id) els)).

Definition deleteElement (id : string) (st : State) : option State :=
  let st1 :=
    set_selectedId
      (match selectedId st with
       | Some current => if bool_decide (current = id) then None else Some current
       | None => None
       end) st in
  applyElementsUpdate (deleteUpdater id) st1.

(** [els.concat([{ id: uuidv4(), kind, ...el }])] *)
Definition spawnAt (el : gmap string jsval) (kind : string) (st : State)
    : option State :=
  let created :=
    JObj (el ∪ <["id" := JStr (uuidv4 (uuidCount st))]>
                 (<["kind" := JStr kind]> ∅)) in
  applyElementsUpdate (λ els, Some (Fresh (els ++ [created])))
    (set_uuidCount (S (uuidCount st)) st).

(** The commit of a draw gesture: [els.concat(el)] with a new arrow. *)
Definition commitStraight (start world : Point) (color : string)
    (dashed : bool) (st : State) : option State :=
  let el :=
    straightObject (JStr (uuidv4 (uuidCount st)))
      (pt_x start) (pt_y start) (pt_x world) (pt_y world) color dashed in
  applyElementsUpdate (λ els, Some (Fresh (els ++ [el])))
    (set_uuidCount (S (uuidCount st)) st).

(** The release of a curve gesture: the last accumulated point is
    replaced by the pointer position (or the position is appended when
    there is one point only), the points are pruned, and a curve with
    fewer than two points is discarded. *)
Definition commitCurve (pts : list Point) (world : Point) (color : string)
    (dashed : bool) (st : State) : option State :=
  match pts with
  | [] => Some st
  | _ =>
      let pts' :=
        if decide (length pts = 1) then pts ++ [world]
        else <[pred (length pts) := world]> pts in
      let filtered := prunePoints CURVE_POINT_EPSILON pts' in
      if decide (length filtered < 2) then Some st
      else
        let el :=
          curveObject (JStr (uuidv4 (uuidCount st))) filtered color dashed in
        applyElementsUpdate (λ els, Some (Fresh (els ++ [el])))
          (set_uuidCount (S (uuidCount st)) st)
  end.

End Updates.

(** ** Mutations *)

(** The operations that change the element sequence. *)
Inductive Mutation :=
| MovePlayer (id : string) (x y : jsnum)
| MoveBall (id : string) (x y : jsnum)
| MoveStraight (id : string) (dx dy : jsnum)
| MoveCurve (id : string) (dx dy : jsnum)
| Spawn (el : gmap string jsval) (kind : string)
| CommitStraight (start world : Point) (color : string) (dashed : bool)
| CommitCurve (pts : list Point) (world : Point) (color : string) (dashed : bool)
| UpdateElement (id : string) (patch : gmap string jsval)
| DeleteElement (id : string)
| ReplaceElements (next : list jsval).

Definition run `{Host} (m : Mutation) (st : State) : option State :=
  match m with
  | MovePlayer id x y => applyElementsUpdate (movePlayer id x y) st
  | MoveBall id x y => applyElementsUpdate (moveBall id x y) st
  | MoveStraight id dx dy => applyElementsUpdate (moveStraight id dx dy) st
  | MoveCurve id dx dy => applyElementsUpdate (moveCurve id dx dy) st
  | Spawn el kind => spawnAt el kind st
  | CommitStraight start world color dashed =>
      commitStraight start world color dashed st
  | CommitCurve pts world color dashed => commitCurve pts world color dashed st
  | UpdateElement id patch => applyElementsUpdate (updateElement id patch) st
  | DeleteElement id => deleteElement id st
  | ReplaceElements next => replaceElements next st
  end.

(** The identifier a mutation is aimed at. *)
Definition target (m : Mutation) : option string :=
  match m with
  | MovePlayer id _ _ | MoveBall id _ _ | MoveStraight id _ _
  | MoveCurve id _ _ | UpdateElement id _ | DeleteElement id => Some id
  | _ => None
  end.

(** The updater of a mutation aimed at an identifier, when it is a [map]. *)
Definition mapUpdater `{Host} (m : Mutation) : option Updater :=
  match m with
  | MovePlayer id x y => Some (movePlayer id x y)
  | MoveBall id x y => Some (moveBall id x y)
  | MoveStraight id dx dy => Some (moveStraight id dx dy)
  | MoveCurve id dx dy => Some (moveCurve id dx dy)
  | UpdateElement id patch => Some (updateElement id patch)
  | _ => None
  end.

Definition is_delete (m : Mutation) : bool :=
  match m with DeleteElement _ => true | _ => false end.

(** ** Well-formed runtime elements *)

(** A point object carries nothing but [x] and [y]. *)
Definition wf_point (p : jsval) : Prop :=
  match p with
  | JObj o => ∀ k, k ≠ "x" → k ≠ "y" → o !! k = None
  | _ => False
  end.

(** An element is an object, and a curve holds an array of point objects. *)
Definition wf_el (e : jsval) : Prop :=
  match e with
  | JObj o =>
      if is_str (o !! "kind") "arrow-curve" then
        match o !! "points" with
        | Some (JArr ps) => Forall wf_point ps
        | _ => False
        end
      else True
  | _ => False
  end.

(** A value that is absent or primitive: no conversion of it throws. *)
Definition primitive (v : option jsval) : Prop :=
  match v with
  | Some (JArr _) | Some (JObj _) => False
  | _ => True
  end.

Definition primitivePoint (p : jsval) : Prop :=
  primitive (get p "x") ∧ primitive (get p "y").

(** What a mutation needs in order not to throw: the coordinates an arrow
    is moved by are primitive, so that [+] converts no object; a curve is
    moved by the drag of a curve node, so the elements carrying its
    identifier are curves; a curve gesture has at least its first point;
    the elements installed by a replacement can be cloned. *)
Definition applicable (m : Mutation) (st : State) : Prop :=
  match m with
  | MoveStraight id _ _ =>
      Forall (λ e, is_str (get e "id") id = true →
                   primitive (get e "x1") ∧ primitive (get e "y1") ∧
                   primitive (get e "x2") ∧ primitive (get e "y2"))
             (elements st)
  | MoveCurve id _ _ =>
      Forall (λ e, is_str (get e "id") id = true →
                   is_str (get e "kind") "arrow-curve" = true ∧
                   ∀ ps, get e "points" = Some (JArr ps) →
                         Forall primitivePoint ps)
             (elements st)
  | CommitCurve pts _ _ _ => pts ≠ []
  | ReplaceElements next => is_Some (cloneElements next)
  | _ => True
  end.

(** ** Camera operations and import *)

Definition MIN_SCALE : jsnum := Num.frac 1 5.
Definition MAX_SCALE : jsnum := Num.of_Z 4.

(** The table of the digit keys. *)
Definition scaleShortcut (key : string) : option jsnum :=
  if bool_decide (key = "1") then Some (Num.frac 5 4)
  else if bool_decide (key = "2") then Some (Num.frac 3 2)
  else if bool_decide (key = "3") then Some (Num.of_Z 2)
  else if bool_decide (key = "4") then Some (Num.frac 9 4)
  else if bool_decide (key = "5") then Some (Num.frac 5 2)
  else None.

Definition defaultCamera : Camera := mkCamera Num.zero Num.zero Num.one.

Section Interaction.
Context `{Host}.

(** The camera state as the arithmetic of [worldFromPointer] and
    [cameraZoomTo] reads it: each field goes through the numeric coercion
    of [-], [*] and [/], which throws on a field that has no primitive
    value.  The Load handler installs the camera of the payload as it
    is. *)
Definition asCamera (c : jsval) : option Camera :=
  x ← ToNumber (get c "x");
  y ← ToNumber (get c "y");
  scale ← ToNumber (get c "scale");
  Some (mkCamera x y scale).

(** [deltaY] is the wheel delta; [pointer] the pointer position of the
    stage, which may be null.  The handler reads [camera.scale] and the
    updater it queues the three fields. *)
Definition handleWheel (pointer : option Point) (deltaY : jsnum) (st : State)
    : option State :=
  match pointer with
  | None => Some st
  | Some p =>
      let scaleBy := Num.frac 21 20 in
      scale ← ToNumber (get (camera st) "scale");
      let newScale :=
        clamp (if Num.gtb deltaY Num.zero then (scale / scaleBy)%js
               else (scale * scaleBy)%js)
              MIN_SCALE MAX_SCALE in
      cam ← asCamera (camera st);
      Some (set_camera (Camera_toJS (cameraZoomTo cam p newScale (vp st))) st)
  end.

(** The digit branch of the key handler, for a key of the table. *)
Definition handleDigitKey (key : string) (st : State) : option State :=
  match scaleShortcut key with
  | None => Some st
  | Some newScale =>
      let center :=
        mkPoint (vp_w (vp st) / two)%js (vp_h (vp st) / two)%js in
      cam ← asCamera (camera st);
      Some (set_camera
              (Camera_toJS (cameraZoomTo cam center newScale (vp st))) st)
  end.

(** [parsed.elements ?? []], as the array [normalizeImportedElements]
    maps over: reading a property of [null] throws, and so does calling
    [map] on a value that is not an array. *)
Definition importedElements (parsed : jsval) : option (list jsval) :=
  match parsed with
  | JNull => None
  | _ =>
      match get parsed "elements" with
      | None | Some JNull => Some []
      | Some (JArr raw) => Some raw
      | Some _ => None
      end
  end.

(** [parsed.camera ?? { x: 0, y: 0, scale: 1 }] *)
Definition importedCamera (parsed : jsval) : jsval :=
  match get parsed "camera" with
  | None | Some JNull => Camera_toJS defaultCamera
  | Some c => c
  end.

(** The body of the [try] of the Load button. *)
Definition importBody (importText : string) (st : State) : option State :=
  parsed ← JSON_parse importText;
  raw ← importedElements parsed;
  let '(normalized, n) := normalizeImportedElements raw (uuidCount st) in
  normalized ← normalized;
  st1 ← replaceElements normalized (set_uuidCount n st);
  Some (set_importDialogOpen false (set_camera (importedCamera parsed) st1)).

(** The Load button of the import dialog: whatever the body throws is
    caught and reported.  Each throwing step of the body precedes its
    first state update. *)
Definition importLoad (importText : string) (st : State) : State :=
  match importBody importText st with
  | Some st' => st'
  | None => alert "Invalid JSON" st
  end.

End Interaction.

(** ** Traces *)

Inductive Action :=
| Mutate (m : Mutation)
| Undo
| Load (importText : string)
| Wheel (pointer : option Point) (deltaY : jsnum)
| DigitKey (key : string).

Definition step `{Host} (a : Action) (st : State) : option State :=
  match a with
  | Mutate m => run m st
  | Undo => undo st
  | Load importText => Some (importLoad importText st)
  | Wheel pointer deltaY => handleWheel pointer deltaY st
  | DigitKey key => handleDigitKey key st
  end.

Fixpoint run_actions `{Host} (acts : list Action) (st : State) : option State :=
  match acts with
  | [] => Some st
  | a :: rest => st' ← step a st; run_actions rest st'
  end.

(** ** The typed view of the elements *)

Inductive TeamColor := red | blue.
Inductive ArrowColor := redLine | blueLine | yellow.

Definition TeamColor_str (c : TeamColor) : string :=
  match c with red => "red" | blue => "blue" end.

Definition ArrowColor_str (c : ArrowColor) : string :=
  match c with
  | redLine => "redLine"
  | blueLine => "blueLine"
  | yellow => "yellow"
  end.

Record PlayerEl := mkPlayer {
  player_id : string;
  player_x : jsnum;
  player_y : jsnum;
  player_color : TeamColor;
  player_avatar : option string;
  player_name : option string;
}.

Record BallEl := mkBall { ball_id : string; ball_x : jsnum; ball_y : jsnum }.

Record ArrowStraightEl := mkStraight {
  straight_id : string;
  straight_x1 : jsnum;
  straight_y1 : jsnum;
  straight_x2 : jsnum;
  straight_y2 : jsnum;
  straight_color : ArrowColor;
  straight_dashed : bool;
}.

Record ArrowCurveEl := mkCurve {
  curve_id : string;
  curve_points : list Point;
  curve_color : ArrowColor;
  curve_dashed : bool;
}.

Inductive El :=
| Player (p : PlayerEl)
| Ball (b : BallEl)
| ArrowStraight (a : ArrowStraightEl)
| ArrowCurve (a : ArrowCurveEl).

(** The runtime object of a typed element. *)
Definition El_toJS (el : El) : jsval :=
  match el with
  | Player p =>
      JObj (obj_of [("id", Some (JStr (player_id p)));
                    ("kind", Some (JStr "player"));
                    ("x", Some (JNum (player_x p)));
                    ("y", Some (JNum (player_y p)));
                    ("color", Some (JStr (TeamColor_str (player_color p))));
                    ("avatar", JStr <$> player_avatar p);
                    ("name", JStr <$> player_name p)])
  | Ball b =>
      JObj (obj_of [("id", Some (JStr (ball_id b)));
                    ("kind", Some (JStr "ball"));
                    ("x", Some (JNum (ball_x b)));
                    ("y", Some (JNum (ball_y b)))])
  | ArrowStraight a =>
      straightObject (JStr (straight_id a))
        (straight_x1 a) (straight_y1 a) (straight_x2 a) (straight_y2 a)
        (ArrowColor_str (straight_color a)) (straight_dashed a)
  | ArrowCurve a =>
      curveObject (JStr (curve_id a)) (curve_points a)
        (ArrowColor_str (curve_color a)) (curve_dashed a)
  end.

(** The value [JSON.parse(JSON.stringify(v))] yields: a number that is not
    finite is written as [null], everything else survives. *)
Fixpoint JSON_roundtrip (v : jsval) : jsval :=
  match v with
  | JNum n => if Num.isFinite n then JNum n else JNull
  | JArr l => JArr (JSON_roundtrip <$> l)
  | JObj o => JObj (JSON_roundtrip <$> o)
  | _ => v
  end.

Definition finitePt (p : Point) : Prop :=
  Num.isFinite (pt_x p) = true ∧ Num.isFinite (pt_y p) = true.

(** A well-formed element: finite coordinates, and at least two points on
    a curve.  Colors are canonical by typing. *)
Definition wellFormed (el : El) : Prop :=
  match el with
  | Player p =>
      Num.isFinite (player_x p) = true ∧ Num.isFinite (player_y p) = true
  | Ball b => Num.isFinite (ball_x b) = true ∧ Num.isFinite (ball_y b) = true
  | ArrowStraight a =>
      Num.isFinite (straight_x1 a) = true ∧ Num.isFinite (straight_y1 a) = true ∧
      Num.isFinite (straight_x2 a) = true ∧ Num.isFinite (straight_y2 a) = true
  | ArrowCurve a => 2 ≤ length (curve_points a) ∧ Forall finitePt (curve_points a)
  end.

(** The points of a curve are left alone by the pruning of the import:
    there are two of them, or every two consecutive ones are more than the
    pruning distance apart. *)
Definition curveStable (el : El) : Prop :=
  match el with
  | ArrowCurve a =>
      length (curve_points a) = 2 ∨ spaced CURVE_POINT_EPSILON (curve_points a)
  | _ => True
  end.

(** What [JSON.parse] yields on the text [JSON.stringify] writes for the
    elements of a board. *)
Definition exported (els : list El) : list jsval :=
  JSON_roundtrip <$> (El_toJS <$> els).

(** ** Initial state *)

Section Initial.
Context `{Host}.

Definition initialPlayer (n : nat) (x y : Z) (color : TeamColor)
    (avatar : string) (name : option string) : El :=
  Player (mkPlayer (uuidv4 n) (Num.of_Z x) (Num.of_Z y) color (Some avatar) name).

Definition initialElements : list El :=
  [ Ball (mkBall (uuidv4 0) Num.zero Num.zero);
    initialPlayer 1 25 0 blue "QB" None;
    initialPlayer 2 20 150 blue "WR" (Some "CWR");
    initialPlayer 3 20 (-130) blue "WR" (Some "CWR");
    initialPlayer 4 20 (-225) blue "WR" (Some "DWR");
    initialPlayer 5 (-40) (-70) red "CB" None;
    initialPlayer 6 (-150) (-35) red "LB" None;
    initialPlayer 7 (-160) 35 red "LB" None;
    initialPlayer 8 (-40) 70 red "CB" None ].

(** The state of a freshly mounted board in a window of size [viewport]. *)
Definition initialState (viewport : Viewport) : State :=
  {| elements := El_toJS <$> initialElements;
     camera := Camera_toJS (mkCamera Num.zero Num.zero (Num.frac 3 2));
     vp := viewport;
     historyRef := [];
     isUndoingRef := false;
     selectedId := None;
     importDialogOpen := false;
     alerts := [];
     uuidCount := 9 |}.

End Initial.

(** The scale of the camera of a state, as the zoom arithmetic reads it. *)
Definition scaleOf `{Host} (st : State) : option jsnum :=
  ToNumber (get (camera st) "scale").

(** ** A host for the examples *)

Definition dquote : string := String (Ascii.ascii_of_nat 34) EmptyString.

Definition quoted (s : string) : string := dquote +:+ s +:+ dquote.

(** The JSON text of a board without elements whose camera has scale 10,
    and the value it parses to. *)
Definition textScale10 : string :=
  "{" +:+ quoted "elements" +:+ ":[]," +:+ quoted "camera" +:+ ":{"
  +:+ quoted "x" +:+ ":0," +:+ quoted "y" +:+ ":0," +:+ quoted "scale"
  +:+ ":10}}".

Definition payloadScale10 : jsval :=
  JObj (<["elements" := JArr []]>
        (<["camera" := Camera_toJS (mkCamera Num.zero Num.zero (Num.of_Z 10))]> ∅)).

(** An object has no primitive value when an own [toString] hides the
    inherited one: a property read from JSON is never callable, and the
    inherited [valueOf] answers the object itself.  An array is joined,
    and has a primitive value when its entries have one. *)
Fixpoint hasPrimitive (v : jsval) : bool :=
  match v with
  | JObj o => bool_decide (o !! "toString" = None)
  | JArr l => forallb hasPrimitive l
  | _ => true
  end.

(** The host of the examples reads one text, counts its identifiers, and
    converts nothing but what the examples convert: every string and every
    object that has a primitive value reads as NaN and is left as it is by
    [+]. *)
Definition exampleHost : Host := {|
  uuidv4 := λ n, "uuid-" +:+ pretty n;
  JSON_parse := λ s,
    if bool_decide (s = textScale10) then Some payloadScale10 else None;
  StringToNumber := λ _, NaN;
  ObjectToNumber := λ v, if hasPrimitive v then Some NaN else None;
  append_number := λ s _, s;
  concat_number := λ v _, if hasPrimitive v then Some v else None;
|}.

(** An object that cannot be converted to a primitive, as [JSON.parse]
    builds it from [{"valueOf": 0, "toString": 0}]. *)
Definition noPrimitive : jsval :=
  JObj (<["valueOf" := JNum Num.zero]> (<["toString" := JNum Num.zero]> ∅)).


(** Strokes used in the examples. *)
Definition slowStroke : list Point := [pt 0 1 0 1; pt 1 2 0 1; pt 1 1 0 1].
Definition backtrackStroke : list Point :=
  [pt 0 1 0 1; pt 1 1 0 1; pt 1 2 0 1; pt 2 1 0 1].
Definition spacedStroke : list Point := [pt 0 1 0 1; pt 1 1 0 1; pt 3 1 0 1].

(** A camera at rest on an 800 by 600 viewport, and the pointer at its
    centre. *)
Definition exampleCamera : Camera := mkCamera Num.zero Num.zero Num.one.
Definition exampleViewport : Viewport := mkViewport (Num.of_Z 800) (Num.of_Z 600).
Definition exampleAnchor : Point := mkPoint (Num.of_Z 400) (Num.of_Z 300).

Definition exampleState : State := @initialState exampleHost exampleViewport.

(** A player dropped at the origin, as the toolbox button creates it. *)
Definition spawnPlayer : Mutation :=
  Spawn (<["x" := JNum Num.zero]> (<["y" := JNum Num.zero]>
          (<["color" := JStr "blue"]> ∅))) "player".

(** The identifier of the ball of the initial board. *)
Definition ballId : string := @uuidv4 exampleHost 0.

(** A curve whose second point was dragged back towards the first. *)
Definition backtrackCurve : El :=
  ArrowCurve (mkCurve "c1" [pt 0 1 0 1; pt 1 2 0 1; pt 2 1 0 1] blueLine false).

(** The number of points of the only element of a result, when it is a
    curve. *)
Definition onlyCurveLength (r : option (list jsval)) : nat :=
  match r with
  | Some [JObj o] =>
      match o !! "points" with
      | Some (JArr ps) => length ps
      | _ => 0
      end
  | _ => 0
  end.

(** A board with a player, a straight arrow and a two-point curve. *)
Definition stableBoard : list El :=
  [ Player (mkPlayer "p1" (Num.of_Z 25) Num.zero blue (Some "QB") None);
    ArrowStraight (mkStraight "s1" Num.zero Num.zero (Num.of_Z 100) (Num.of_Z 50)
                     yellow true);
    ArrowCurve (mkCurve "c2" [pt 0 1 0 1; pt 1 1 0 1] redLine false) ].

(** An imported array with a number, [null], and an object of a kind the
    board does not know. *)
Definition unknownEntry : gmap string jsval :=
  <["kind" := JStr "cone"]> (<["x" := JNum Num.one]> ∅).

Definition mixedArray : list jsval :=
  [JNum Num.one; JNull; JObj unknownEntry; JStr "ball"].

(** Imported curves given by point lists, with two points and with one. *)
Definition rawPoint (x y : Z) : jsval :=
  JObj (<["x" := JNum (Num.of_Z x)]> (<["y" := JNum (Num.of_Z y)]> ∅)).

Definition rawCurve (points : list jsval) : jsval :=
  JObj (<["kind" := JStr "arrow-curve"]> (<["points" := JArr points]> ∅)).

(** The committed curve of a gesture over the spaced stroke, on the
    initial board; it is the tenth element and draws the tenth identifier. *)
Definition drawCurve : Mutation :=
  CommitCurve spacedStroke (pt 3 1 0 1) "yellow" true.

Definition drawnCurveId : string := @uuidv4 exampleHost 9.

(** ** Index keys *)

(** A decimal digit: the character codes 48 to 57. *)
Definition is_digit (c : Ascii.ascii) : bool :=
  (48 <=? Ascii.nat_of_ascii c)%nat && (Ascii.nat_of_ascii c <=? 57)%nat.

Definition starts_with_digit (s : string) : bool :=
  match s with
  | String c _ => is_digit c
  | EmptyString => false
  end.

(** ** The shape of a normalised arrow *)

Definition canonicalColor (v : option jsval) : Prop :=
  v = Some (JStr "redLine") ∨ v = Some (JStr "blueLine") ∨ v = Some (JStr "yellow").





(** An entry on which the callback of the normaliser throws: a curve given
    by points one of which has a coordinate [Number] cannot convert, or a
    straight arrow with such a coordinate. *)
Definition throwsOn `{Host} (el : jsval) : Prop :=
  if is_str (get el "kind") "arrow-curve" then
    ∃ ps, pointList el = Some ps ∧ Exists (λ p, coercePoint p = None) ps
  else if is_str (get el "kind") "arrow-straight" then
    ToNumber (get el "x1") = None ∨ ToNumber (get el "y1") = None ∨
    ToNumber (get el "x2") = None ∨ ToNumber (get el "y2") = None
  else False.

(** An entry whose coordinates are absent or primitive, those of its points
    included. *)
Definition plainEntry (el : jsval) : Prop :=
  primitive (get el "x1") ∧ primitive (get el "y1") ∧
  primitive (get el "x2") ∧ primitive (get el "y2") ∧
  ∀ ps, get el "points" = Some (JArr ps) → Forall primitivePoint ps.

(** Imported entries of every sort: a primitive, [null], an array, a player
    without identifier, a curve with a point that is not finite, a legacy
    cubic curve, a straight arrow with a legacy color and a string for a
    coordinate. *)
Definition rawPlayer : jsval :=
  JObj (<["kind" := JStr "player"]> (<["x" := JNum Num.one]> ∅)).

Definition rawLegacyCurve : jsval :=
  JObj (<["kind" := JStr "arrow-curve"]>
        (<["x1" := JNum Num.zero]> (<["y1" := JNum Num.zero]>
        (<["cx1" := JNum Num.one]> (<["cy1" := JNum two]>
        (<["cx2" := JNum two]> (<["cy2" := JNum two]>
        (<["x2" := JNum (Num.of_Z 30)]> (<["y2" := JNum Num.zero]>
        (<["color" := JStr "red"]> ∅)))))))))).

Definition rawStraight : jsval :=
  JObj (<["kind" := JStr "arrow-straight"]>
        (<["id" := JStr "s7"]>
        (<["x1" := JNum Num.zero]> (<["y1" := JNull]>
        (<["x2" := JNum two]> (<["y2" := JBool true]>
        (<["color" := JStr "blue"]> (<["dashed" := JNum Num.one]> ∅)))))))).

(** A straight arrow whose first coordinate cannot be converted. *)
Definition rawUnconvertible : jsval :=
  JObj (<["kind" := JStr "arrow-straight"]> (<["x1" := noPrimitive]> ∅)).

Definition rawBadStraight : jsval :=
  JObj (<["kind" := JStr "arrow-straight"]> (<["x1" := JNum PInf]> ∅)).

Definition rawJunk : list jsval :=
  [ JNum two; JNull; JArr [JStr "a"]; rawPlayer;
    rawCurve [rawPoint 0 0; JObj (<["x" := JNum PInf]> ∅); rawPoint 3 4];
    rawCurve [rawPoint 0 0];
    rawLegacyCurve; rawStraight; rawBadStraight ].

(** ** Sound states *)

(** The mutations the board issues: a patch from the context panel sets
    [color], [avatar], [name] or [dashed], never [kind] or [points]; a
    spawn creates a player or a ball from fields without [kind]. *)
Definition typed (m : Mutation) : Prop :=
  match m with
  | Spawn el kind => el !! "kind" = None ∧ kind ≠ "arrow-curve"
  | UpdateElement _ patch => patch !! "kind" = None ∧ patch !! "points" = None
  | _ => True
  end.

(** A mutation that changes the elements: the release of a curve gesture
    without points returns at once. *)
Definition effective (m : Mutation) : Prop :=
  match m with
  | CommitCurve pts _ _ _ => pts ≠ []
  | _ => True
  end.

Definition typedAction (a : Action) : Prop :=
  match a with
  | Mutate m => typed m
  | _ => True
  end.

(** The elements and every snapshot are well-formed, and no undo is under
    way. *)
Definition sound (st : State) : Prop :=
  Forall wf_el (elements st) ∧ Forall (Forall wf_el) (historyRef st) ∧
  isUndoingRef st = false.

(** The history after a push of [snapshot] on [h]. *)
Definition pushed (h : list (list jsval)) (snapshot : list jsval)
    : list (list jsval) :=
  if decide (HISTORY_LIMIT < length (h ++ [snapshot])) then drop 1 (h ++ [snapshot])
  else h ++ [snapshot].

(** A patch of the context panel, and a trace that draws, drags, recolors
    and deletes. *)
Definition yellowPatch : gmap string jsval := <["color" := JStr "yellow"]> ∅.

Definition editTrace : list Mutation :=
  [ drawCurve;
    MoveCurve drawnCurveId (Num.of_Z 5) (Num.of_Z 5);
    UpdateElement drawnCurveId yellowPatch;
    spawnPlayer;
    DeleteElement ballId ].

(** ** Export *)

Definition DEFAULT_BG : jsval :=
  JObj (<["url" := JStr "/bg.png"]>
        (<["width" := JNum (Num.of_Z 622)]>
         (<["height" := JNum (Num.of_Z 564)]> ∅))).

(** The board state handed to [JSON.stringify]. *)
Definition boardState (st : State) : jsval :=
  JObj (<["elements" := JArr (elements st)]>
        (<["camera" := camera st]> (<["bg" := DEFAULT_BG]> ∅))).

(** What [JSON.parse] yields on the exported text of a board. *)
Definition exportedBoard (st : State) : jsval := JSON_roundtrip (boardState st).

(** A payload the Load handler cannot go through: it is [null], or its
    [elements] is there and is neither [null] nor an array. *)
Definition unusablePayload (parsed : jsval) : Prop :=
  parsed = JNull ∨
  ∃ v, get parsed "elements" = Some v ∧ v ≠ JNull ∧ ∀ raw, v ≠ JArr raw.

(** A host that reads one text as one payload. *)
Definition hostReading (text : string) (payload : jsval) : Host := {|
  uuidv4 := λ n, "uuid-" +:+ pretty n;
  JSON_parse := λ s, if bool_decide (s = text) then Some payload else None;
  StringToNumber := λ _, NaN;
  ObjectToNumber := λ v, if hasPrimitive v then Some NaN else None;
  append_number := λ s _, s;
  concat_number := λ v _, if hasPrimitive v then Some v else None;
|}.

(** A board of typed elements with stable curves, on the camera of the
    examples. *)
Definition stableState : State :=
  {| elements := El_toJS <$> stableBoard;
     camera := Camera_toJS exampleCamera;
     vp := exampleViewport;
     historyRef := [];
     isUndoingRef := false;
     selectedId := Some "p1";
     importDialogOpen := true;
     alerts := [];
     uuidCount := 0 |}.

(** A camera whose scale has no primitive value, as a payload can carry
    it. *)
Definition cameraUnconvertible : jsval :=
  JObj (<["scale" := noPrimitive]>
        (<["x" := JNum Num.zero]> (<["y" := JNum Num.zero]> ∅))).

(** A payload with an arrow the normaliser throws on. *)
Definition payloadUnconvertible : jsval :=
  JObj (<["elements" := JArr [rawPlayer; rawUnconvertible]]> ∅).

(** A payload whose [elements] is a number. *)
Definition payloadNoArray : jsval := JObj (<["elements" := JNum two]> ∅).

(** ** Pointer gestures *)

Inductive Tool :=
| ToolSelect
| ToolSpawnPlayer
| ToolSpawnBall
| ToolArrowStraight
| ToolArrowCurve.

Inductive DrawState :=
| DrawStraight (start : Point)
| DrawCurve (points : list Point).

Record CtxMenu := mkCtxMenu {
  ctx_open : bool;
  ctx_x : jsnum;
  ctx_y : jsnum;
  ctx_id : option string;
}.

(** The board with the state of its tools and of the gesture under way. *)
Record UI := mkUI {
  doc : State;
  tool : Tool;
  currentArrowColor : ArrowColor;
  currentDashed : bool;
  previewArrow : option jsval;
  ctxMenu : CtxMenu;
  isPanning : bool;
  lastPointerRef : option Point;
  spaceDownRef : bool;
  drawState : option DrawState;
}.

(** What the handlers read of a mouse event on the stage: the button, whether
    the target is the stage itself, and the pointer position of the stage. *)
Record MouseEvent := mkMouseEvent {
  button : nat;
  onStage : bool;
  pointerPos : option Point;
}.

Definition set_doc (d : State) (ui : UI) : UI :=
  mkUI d (tool ui) (currentArrowColor ui) (currentDashed ui) (previewArrow ui)
    (ctxMenu ui) (isPanning ui) (lastPointerRef ui) (spaceDownRef ui) (drawState ui).

Definition set_previewArrow (p : option jsval) (ui : UI) : UI :=
  mkUI (doc ui) (tool ui) (currentArrowColor ui) (currentDashed ui) p
    (ctxMenu ui) (isPanning ui) (lastPointerRef ui) (spaceDownRef ui) (drawState ui).

Definition set_panning (b : bool) (last : option Point) (ui : UI) : UI :=
  mkUI (doc ui) (tool ui) (currentArrowColor ui) (currentDashed ui) (previewArrow ui)
    (ctxMenu ui) b last (spaceDownRef ui) (drawState ui).

Definition set_drawState (d : option DrawState) (ui : UI) : UI :=
  mkUI (doc ui) (tool ui) (currentArrowColor ui) (currentDashed ui) (previewArrow ui)
    (ctxMenu ui) (isPanning ui) (lastPointerRef ui) (spaceDownRef ui) d.

(** [setCtxMenu((c) => ({ ...c, open: false, id: null }))] *)
Definition closeCtx (ui : UI) : UI :=
  mkUI (doc ui) (tool ui) (currentArrowColor ui) (currentDashed ui) (previewArrow ui)
    (mkCtxMenu false (ctx_x (ctxMenu ui)) (ctx_y (ctxMenu ui)) None)
    (isPanning ui) (lastPointerRef ui) (spaceDownRef ui) (drawState ui).

Definition is_select (t : Tool) : bool :=
  match t with ToolSelect => true | _ => false end.

(** [Math.hypot(dx, dy) >= m], decided like [Num.hypot_gt]. *)
Definition hypot_ge (dx dy m : jsnum) : bool :=
  match dx, dy with
  | PInf, _ | NInf, _ | _, PInf | _, NInf => negb (Num.isNaN m)
  | NaN, _ | _, NaN => false
  | Fin x, Fin y =>
      match m with
      | NaN | PInf => false
      | NInf => true
      | Fin e => negb (Qc_ltb 0 e) || negb (Qc_ltb (x * x + y * y)%Qc (e * e)%Qc)
      end
  end.

Definition handleMouseDown (e : MouseEvent) (ui : UI) : UI :=
  let isMiddle := bool_decide (button e = 1) in
  let isPrimary := bool_decide (button e = 0) in
  let ui1 := if isPrimary && ctx_open (ctxMenu ui) then closeCtx ui else ui in
  let ui2 :=
    if isPrimary && onStage e then set_doc (set_selectedId None (doc ui1)) ui1
    else ui1 in
  if spaceDownRef ui || isMiddle || (isPrimary && onStage e && is_select (tool ui))
  then set_panning true (pointerPos e) ui2
  else ui2.

Definition handleMouseUp (ui : UI) : UI := set_panning false None ui.

Section Gestures.
Context `{Host}.

(** [{ ...cam, x: cam.x + dx, y: cam.y + dy }] *)
Definition panCamera (cam : jsval) (dx dy : jsnum) : option jsval :=
  x ← plus (get cam "x") dx;
  y ← plus (get cam "y") dy;
  Some (JObj (<["y" := y]> (<["x" := x]> (spread cam)))).

Definition handleMouseMove (e : MouseEvent) (ui : UI) : option UI :=
  if isPanning ui then
    match pointerPos e, lastPointerRef ui with
    | Some p, Some last =>
        let dx := (pt_x p - pt_x last)%js in
        let dy := (pt_y p - pt_y last)%js in
        cam ← panCamera (camera (doc ui)) dx dy;
        Some (set_panning (isPanning ui) (Some p)
                (set_doc (set_camera cam (doc ui)) ui))
    | _, _ => Some ui
    end
  else Some ui.

(** The world point of the pointer under the camera and viewport of the
    render the handler was made in: [worldFromPointer], which reads the
    camera only when there is a pointer position. *)
Definition worldOf (e : MouseEvent) (cam : jsval) (viewport : Viewport)
    : option Point :=
  match pointerPos e with
  | None => Some (mkPoint Num.zero Num.zero)
  | Some p => c ← asCamera cam; Some (screenToWorld p c viewport)
  end.

Definition onStageMouseDown (e : MouseEvent) (ui : UI) : option UI :=
  if spaceDownRef ui || bool_decide (button e = 1) then Some ui
  else
    match pointerPos e with
    | None => Some ui
    | Some _ =>
        match tool ui with
        | ToolArrowStraight =>
            world ← worldOf e (camera (doc ui)) (vp (doc ui));
            Some (set_drawState (Some (DrawStraight world))
                    (set_previewArrow None ui))
        | ToolArrowCurve =>
            world ← worldOf e (camera (doc ui)) (vp (doc ui));
            Some (set_drawState (Some (DrawCurve [world]))
                    (set_previewArrow None ui))
        | _ => Some ui
        end
    end.

(** The points of the curve under way after a move to [world]; comparing
    with the last point throws when there is none. *)
Definition accumulate (minSegment : jsnum) (pts : list Point) (world : Point)
    : option (list Point) :=
  if decide (length pts = 1) then Some (pts ++ [world])
  else
    last_pt ← last pts;
    if hypot_ge (pt_x world - pt_x last_pt)%js (pt_y world - pt_y last_pt)%js
         minSegment
    then Some (pts ++ [world])
    else Some (<[pred (length pts) := world]> pts).

(** [cam] and [viewport] are those of the render the handler closes over. *)
Definition onStageMouseMove (cam : jsval) (viewport : Viewport) (e : MouseEvent)
    (ui : UI) : option UI :=
  match drawState ui with
  | None => Some ui
  | Some (DrawStraight start) =>
      world ← worldOf e cam viewport;
      Some (set_previewArrow
              (Some (straightObject (JStr "__preview")
                       (pt_x start) (pt_y start) (pt_x world) (pt_y world)
                       (ArrowColor_str (currentArrowColor ui)) (currentDashed ui)))
              ui)
  | Some (DrawCurve pts) =>
      world ← worldOf e cam viewport;
      scale ← ToNumber (get cam "scale");
      let minSegment := (CURVE_MIN_DRAW_GAP / scale)%js in
      pts' ← accumulate minSegment pts world;
      Some (set_previewArrow
              (Some (curveObject (JStr "__preview") pts'
                       (ArrowColor_str (currentArrowColor ui)) (currentDashed ui)))
              (set_drawState (Some (DrawCurve pts')) ui))
  end.

Definition onStageMouseUp (cam : jsval) (viewport : Viewport) (e : MouseEvent)
    (ui : UI) : option UI :=
  match drawState ui with
  | None => Some ui
  | Some d =>
      world ← worldOf e cam viewport;
      let color := ArrowColor_str (currentArrowColor ui) in
      doc' ← match d with
             | DrawStraight start =>
                 commitStraight start world color (currentDashed ui) (doc ui)
             | DrawCurve pts =>
                 commitCurve pts world color (currentDashed ui) (doc ui)
             end;
      Some (set_drawState None (set_previewArrow None (set_doc doc' ui)))
  end.

(** The handlers of the stage: each runs the panning handler, then the
    drawing handler of the same render. *)
Definition stageMouseDown (e : MouseEvent) (ui : UI) : option UI :=
  onStageMouseDown e (handleMouseDown e ui).

Definition stageMouseMove (e : MouseEvent) (ui : UI) : option UI :=
  ui' ← handleMouseMove e ui;
  onStageMouseMove (camera (doc ui)) (vp (doc ui)) e ui'.

Definition stageMouseUp (e : MouseEvent) (ui : UI) : option UI :=
  onStageMouseUp (camera (doc ui)) (vp (doc ui)) e (handleMouseUp ui).

Fixpoint stageMouseMoves (moves : list MouseEvent) (ui : UI) : option UI :=
  match moves with
  | [] => Some ui
  | e :: rest => ui' ← stageMouseMove e ui; stageMouseMoves rest ui'
  end.

(** A press, moves and a release on the stage. *)
Definition gesture (down : MouseEvent) (moves : list MouseEvent) (up : MouseEvent)
    (ui : UI) : option UI :=
  ui0 ← stageMouseDown down ui;
  ui' ← stageMouseMoves moves ui0;
  stageMouseUp up ui'.

End Gestures.

(** No gesture is under way. *)
Definition idle (ui : UI) : Prop :=
  isPanning ui = false ∧ drawState ui = None ∧ spaceDownRef ui = false.

(** The board of the examples with a tool in hand. *)
Definition exampleUI (t : Tool) : UI :=
  {| doc := exampleState; tool := t; currentArrowColor := yellow;
     currentDashed := true; previewArrow := None;
     ctxMenu := mkCtxMenu false Num.zero Num.zero None;
     isPanning := false; lastPointerRef := None; spaceDownRef := false;
     drawState := None |}.

Definition pressAt (x y : Z) : MouseEvent :=
  mkMouseEvent 0 true (Some (mkPoint (Num.of_Z x) (Num.of_Z y))).

(** A finite point, and the move of the pointer to it. *)
Definition fpt (xy : Qc * Qc) : Point := mkPoint (Fin xy.1) (Fin xy.2).

Definition moveTo (p : Point) : MouseEvent := mkMouseEvent 0 true (Some p).

(** The pointer dragged through the points [ps] while panning. *)
Fixpoint panAll `{Host} (ps : list Point) (ui : UI) : option UI :=
  match ps with
  | [] => Some ui
  | p :: rest => ui' ← handleMouseMove (moveTo p) ui; panAll rest ui'
  end.

(** The board of the examples grabbed at (10, 20), and a drag. *)
Definition grabbedUI : UI :=
  set_panning true (Some (fpt (Q2Qc 10, Q2Qc 20))) (exampleUI ToolSelect).

Definition dragPath : list (Qc * Qc) :=
  [(Q2Qc 12, Q2Qc 20); (Q2Qc 30, Q2Qc (-5)); (Q2Qc 7, Q2Qc 7)].

Definition is_arrow_tool (t : Tool) : bool :=
  match t with
  | ToolArrowStraight | ToolArrowCurve => true
  | _ => false
  end.

(** Two states that differ in the selection at most. *)
Definition same_board (d d' : State) : Prop :=
  elements d' = elements d ∧ historyRef d' = historyRef d ∧
  camera d' = camera d ∧ vp d' = vp d ∧ uuidCount d' = uuidCount d ∧
  isUndoingRef d' = isUndoingRef d.


(** ** Keys *)

(** What the key handler reads of a keyboard event; [editable] is its
    [isEditable]: the target is an input, a text area or content
    editable. *)
Module KeyboardEvent.
Record t := mk {
  key : string;
  code : string;
  ctrlKey : bool;
  metaKey : bool;
  shiftKey : bool;
  altKey : bool;
  editable : bool;
}.
End KeyboardEvent.

Definition KeyEvent : Type := KeyboardEvent.t.

Definition lower_ascii (c : Ascii.ascii) : Ascii.ascii :=
  let n := Ascii.nat_of_ascii c in
  if (65 <=? n)%nat && (n <=? 90)%nat then Ascii.ascii_of_nat (n + 32) else c.

(** [toLowerCase] on the letters A to Z; the handler compares its result
    with ["z"] only. *)
Fixpoint toLowerCase (s : string) : string :=
  match s with
  | EmptyString => EmptyString
  | String c rest => String (lower_ascii c) (toLowerCase rest)
  end.

Definition set_spaceDown (b : bool) (ui : UI) : UI :=
  mkUI (doc ui) (tool ui) (currentArrowColor ui) (currentDashed ui) (previewArrow ui)
    (ctxMenu ui) (isPanning ui) (lastPointerRef ui) b (drawState ui).

(** [(e.ctrlKey || e.metaKey) && e.key.toLowerCase() === "z"] *)
Definition isUndoKey (e : KeyEvent) : bool :=
  (KeyboardEvent.ctrlKey e || KeyboardEvent.metaKey e)
  && bool_decide (toLowerCase (KeyboardEvent.key e) = "z").

(** [!isEditable && !e.shiftKey && !e.altKey && !e.metaKey && !e.ctrlKey] *)
Definition isPlainKey (e : KeyEvent) : bool :=
  negb (KeyboardEvent.editable e) && negb (KeyboardEvent.shiftKey e)
  && negb (KeyboardEvent.altKey e) && negb (KeyboardEvent.metaKey e)
  && negb (KeyboardEvent.ctrlKey e).

(** The element the Delete branch removes: [e.key === "Delete" && selectedId]
    under the guard, where the empty string counts as no selection. *)
Definition deleteTarget (e : KeyEvent) (ui : UI) : option string :=
  if isPlainKey e && bool_decide (KeyboardEvent.key e = "Delete") then
    match selectedId (doc ui) with
    | Some id => if bool_decide (id = EmptyString) then None else Some id
    | None => None
    end
  else None.

(** [e.key >= "1" && e.key <= "5"], a comparison of strings. *)
Definition isDigitKey (e : KeyEvent) : bool :=
  String.leb "1" (KeyboardEvent.key e) && String.leb (KeyboardEvent.key e) "5".

Section Keys.
Context `{Host}.

(** The camera after the digit branch: a key of the range that is not in
    the table has an undefined scale, which leaves the camera without
    [scale] and with the offsets computed from it. *)
Definition zoomToPreset (k : string) (st : State) : option State :=
  match scaleShortcut k with
  | Some _ => handleDigitKey k st
  | None =>
      let center :=
        mkPoint (vp_w (vp st) / two)%js (vp_h (vp st) / two)%js in
      cam ← asCamera (camera st);
      let zoomed := cameraZoomTo cam center NaN (vp st) in
      Some (set_camera
              (JObj (<["x" := JNum (cam_x zoomed)]>
                     (<["y" := JNum (cam_y zoomed)]> ∅)))
              st)
  end.

(** [stage] tells whether the stage is mounted. *)
Definition onKeyDown (stage : bool) (e : KeyEvent) (ui : UI) : option UI :=
  if isUndoKey e then
    d ← undo (doc ui);
    Some (set_doc d ui)
  else
    match deleteTarget e ui with
    | Some id =>
        d ← deleteElement id (doc (closeCtx ui));
        Some (set_doc d (closeCtx ui))
    | None =>
        let ui1 :=
          if bool_decide (KeyboardEvent.code e = "Space")
          then set_spaceDown true ui else ui in
        if isDigitKey e && stage
        then
          d ← zoomToPreset (KeyboardEvent.key e) (doc ui1);
          Some (set_doc d ui1)
        else Some ui1
    end.

Definition onKeyUp (e : KeyEvent) (ui : UI) : UI :=
  if bool_decide (KeyboardEvent.code e = "Space") then set_spaceDown false ui else ui.

End Keys.

(** The keys of the examples. *)
Definition plainKey (k c : string) : KeyEvent :=
  KeyboardEvent.mk k c false false false false false.

Definition ctrlShiftZ : KeyEvent :=
  KeyboardEvent.mk "Z" "KeyZ" true false true false true.

(** The digit 3 typed with Alt held in a text input. *)
Definition typedThree : KeyEvent :=
  KeyboardEvent.mk "3" "Digit3" false false false true true.
(** * Properties *)

(** ** Rational comparisons *)

Lemma Qc_eqb_eq (a b : Qc) : Qc_eqb a b = true ↔ a = b.
Proof.
  unfold Qc_eqb. rewrite Qceq_alt.
  destruct (a ?= b)%Qc; split; intros; congruence.
Qed.

Lemma Qc_ltb_lt (a b : Qc) : Qc_ltb a b = true ↔ (a < b)%Qc.
Proof.
  unfold Qc_ltb. rewrite Qclt_alt.
  destruct (a ?= b)%Qc; split; intros; congruence.
Qed.

Lemma Qc_ltb_ge (a b : Qc) : Qc_ltb a b = false ↔ (b <= a)%Qc.
Proof.
  split.
  - intros Hf. apply Qcnot_lt_le. intros Hlt.
    apply Qc_ltb_lt in Hlt. congruence.
  - intros Hle. destruct (Qc_ltb a b) eqn:E; [|done].
    apply Qc_ltb_lt in E. exfalso. by apply (Qcle_not_lt _ _ Hle).
Qed.

(** ** Pruning of point lists *)

Section Prune.
Variable epsilon : jsnum.

Lemma spaced_snoc (l : list Point) (p : Point) :
  spaced epsilon (l ++ [p]) ↔
  spaced epsilon l ∧ match last l with Some q => far epsilon q p = true | None => True end.
Proof.
  induction l as [|a [|b l] IH]; simpl in *.
  - tauto.
  - tauto.
  - rewrite IH. tauto.
Qed.

Lemma prune_pass_snoc (l : list Point) (p : Point) :
  prune_pass epsilon (l ++ [p]) = prune_step epsilon (prune_pass epsilon l) p.
Proof. unfold prune_pass. by rewrite foldl_app. Qed.

Lemma prune_step_length (r : list Point) (p : Point) :
  length (prune_step epsilon r p) =
  match last r with
  | None => 1
  | Some q => if far epsilon q p then S (length r) else length r
  end.
Proof.
  unfold prune_step. destruct (last r) as [q|] eqn:E.
  - destruct (far epsilon q p).
    + rewrite length_app. simpl. lia.
    + by rewrite length_insert.
  - apply last_None in E. by subst.
Qed.

Lemma prune_pass_length_le (l : list Point) :
  length (prune_pass epsilon l) ≤ length l.
Proof.
  induction l as [|p l IH] using rev_ind; [done|].
  rewrite prune_pass_snoc, prune_step_length, length_app. simpl.
  destruct (last _) as [q|]; [destruct (far epsilon q p)|]; lia.
Qed.

Lemma prune_pass_nonempty (l : list Point) :
  l ≠ [] → prune_pass epsilon l ≠ [].
Proof.
  destruct l as [|p l] using rev_ind; [done|]. intros _ Hnil.
  apply (f_equal length) in Hnil.
  rewrite prune_pass_snoc, prune_step_length in Hnil.
  destruct (last _) as [q|] eqn:E; [|done].
  destruct (far epsilon q p); [done|].
  apply nil_length_inv in Hnil. by rewrite Hnil in E.
Qed.

(** A pass that keeps the length kept every point. *)
Lemma prune_pass_full (l : list Point) :
  length (prune_pass epsilon l) = length l → prune_pass epsilon l = l.
Proof.
  induction l as [|p l IH] using rev_ind; [done|].
  pose proof (prune_pass_length_le l) as Hle.
  rewrite prune_pass_snoc, prune_step_length, length_app. simpl.
  unfold prune_step.
  destruct (last (prune_pass epsilon l)) as [q|] eqn:E.
  - destruct (far epsilon q p); intros Hlen; [|lia].
    rewrite IH by lia. done.
  - apply last_None in E. rewrite E in *. intros Hlen.
    destruct l; [done | simpl in *; lia].
Qed.

Lemma prune_pass_spaced (l : list Point) :
  prune_pass epsilon l = l ↔ spaced epsilon l.
Proof.
  induction l as [|p l IH] using rev_ind; [done|].
  rewrite spaced_snoc, prune_pass_snoc. split.
  - intros Heq.
    assert (length (prune_pass epsilon l) = length l) as Hlen.
    { pose proof (prune_pass_length_le l).
      apply (f_equal length) in Heq.
      rewrite prune_step_length, length_app in Heq. simpl in Heq.
      destruct (last (prune_pass epsilon l)) as [q|] eqn:E.
      - destruct (far epsilon q p); lia.
      - apply last_None in E. rewrite E. simpl. lia. }
    apply prune_pass_full in Hlen. rewrite Hlen in Heq.
    split; [by apply IH|].
    unfold prune_step in Heq.
    destruct (last l) as [q|]; [|done].
    destruct (far epsilon q p); [done|].
    apply (f_equal length) in Heq.
    rewrite length_insert, length_app in Heq. simpl in Heq. lia.
  - intros [Hl Hp]. apply IH in Hl. rewrite Hl. unfold prune_step.
    destruct (last l) as [q|]; [by rewrite Hp | done].
Qed.

(** The lists [prunePoints] leaves alone. *)
Lemma prunePoints_fixpoint (l : list Point) :
  prunePoints epsilon l = l ↔ length l ≤ 2 ∨ spaced epsilon l.
Proof.
  unfold prunePoints.
  pose proof (prune_pass_length_le l) as Hle.
  destruct (decide (2 ≤ length (prune_pass epsilon l))) as [H2|H2].
  - rewrite prune_pass_spaced. split; [tauto|].
    intros [Hlen|Hs]; [|done].
    apply prune_pass_spaced, prune_pass_full. lia.
  - split.
    + intros Heq. left. apply (f_equal length) in Heq.
      rewrite length_take in Heq. lia.
    + intros [Hlen|Hs].
      * apply take_ge. lia.
      * apply prune_pass_spaced in Hs. rewrite Hs in H2.
        apply take_ge. lia.
Qed.

Lemma prunePoints_length (l : list Point) :
  2 ≤ length l → 2 ≤ length (prunePoints epsilon l).
Proof.
  intros Hl. unfold prunePoints.
  destruct (decide _); [done|]. rewrite length_take. lia.
Qed.

End Prune.

(** C4: given at least two points, [prunePoints] returns at least two
    points: the result of the keep-or-overwrite pass when that has two
    points or more, and the first two input points otherwise. *)
Theorem prunePoints_at_least_two (epsilon : jsnum) (points : list Point) :
  2 ≤ length points →
  2 ≤ length (prunePoints epsilon points) ∧
  (length (prune_pass epsilon points) < 2 →
   prunePoints epsilon points = take 2 points) ∧
  (2 ≤ length (prune_pass epsilon points) →
   prunePoints epsilon points = prune_pass epsilon points).
Proof.
  intros Hl. split; [by apply prunePoints_length|].
  unfold prunePoints. split; intros Hp; destruct (decide _); done || lia.
Qed.

Lemma prunePoints_at_least_two_witness :
  2 ≤ length slowStroke ∧
  2 ≤ length (prunePoints CURVE_POINT_EPSILON slowStroke) ∧
  (length (prune_pass CURVE_POINT_EPSILON slowStroke) < 2 →
   prunePoints CURVE_POINT_EPSILON slowStroke = take 2 slowStroke) ∧
  (2 ≤ length (prune_pass CURVE_POINT_EPSILON slowStroke) →
   prunePoints CURVE_POINT_EPSILON slowStroke
   = prune_pass CURVE_POINT_EPSILON slowStroke).
Proof.
  split; [simpl; lia|].
  apply (prunePoints_at_least_two CURVE_POINT_EPSILON slowStroke). simpl. lia.
Defined.

(** The pass collapses a slow stroke to its last point, and the first two
    input points are returned instead. *)
Example prunePoints_fallback :
  prunePoints CURVE_POINT_EPSILON slowStroke = [pt 0 1 0 1; pt 1 2 0 1].
Proof. vm_compute. reflexivity. Qed.

(** A point pushed and then overwritten may end closer than [epsilon] to
    its predecessor. *)
Example prunePoints_overwrite :
  prunePoints CURVE_POINT_EPSILON backtrackStroke
  = [pt 0 1 0 1; pt 1 2 0 1; pt 2 1 0 1].
Proof. vm_compute. reflexivity. Qed.

(** C3 as stated fails: pruning the points (0,0), (1,0), (0.5,0), (2,0)
    gives (0,0), (0.5,0), (2,0), and pruning that gives (0.5,0), (2,0). *)
Lemma prunePoints_not_idempotent :
  2 ≤ length backtrackStroke ∧
  prunePoints CURVE_POINT_EPSILON (prunePoints CURVE_POINT_EPSILON backtrackStroke)
  ≠ prunePoints CURVE_POINT_EPSILON backtrackStroke.
Proof.
  split; [simpl; lia|].
  intros Heq. apply (f_equal length) in Heq. vm_compute in Heq. discriminate.
Qed.

(** C3, amended: for at least two input points, pruning the pruned list
    again changes nothing exactly when the pruned list has two points or
    has every two consecutive points more than [epsilon] apart. *)
Theorem prunePoints_idempotent_iff (epsilon : jsnum) (points : list Point) :
  2 ≤ length points →
  prunePoints epsilon (prunePoints epsilon points) = prunePoints epsilon points
  ↔ length (prunePoints epsilon points) = 2
    ∨ spaced epsilon (prunePoints epsilon points).
Proof.
  intros Hl. pose proof (prunePoints_length epsilon points Hl).
  rewrite prunePoints_fixpoint. split; (intros [?|?]; [left; lia | by right]).
Qed.

Lemma prunePoints_idempotent_iff_witness :
  2 ≤ length spacedStroke ∧
  (prunePoints CURVE_POINT_EPSILON (prunePoints CURVE_POINT_EPSILON spacedStroke)
   = prunePoints CURVE_POINT_EPSILON spacedStroke
   ↔ length (prunePoints CURVE_POINT_EPSILON spacedStroke) = 2
     ∨ spaced CURVE_POINT_EPSILON (prunePoints CURVE_POINT_EPSILON spacedStroke)).
Proof.
  split; [simpl; lia|].
  apply (prunePoints_idempotent_iff CURVE_POINT_EPSILON spacedStroke).
  simpl. lia.
Defined.

(** ** Zoom *)

Lemma Qc_eqb_neq (a b : Qc) : a ≠ b → Qc_eqb a b = false.
Proof.
  intros Hne. destruct (Qc_eqb a b) eqn:E; [|done].
  by apply Qc_eqb_eq in E.
Qed.

Lemma div_finite (a b : Qc) : b ≠ 0%Qc → (Fin a / Fin b)%js = Fin (a / b)%Qc.
Proof. intros Hb. unfold Num.div. by rewrite Qc_eqb_neq. Qed.

Lemma add_finite (a b : Qc) : (Fin a + Fin b)%js = Fin (a + b)%Qc.
Proof. reflexivity. Qed.

Lemma sub_finite (a b : Qc) : (Fin a - Fin b)%js = Fin (a - b)%Qc.
Proof. reflexivity. Qed.

Lemma mul_finite (a b : Qc) : (Fin a * Fin b)%js = Fin (a * b)%Qc.
Proof. reflexivity. Qed.

Lemma half_finite (a : Qc) : (Fin a / two)%js = Fin (a / Q2Qc 2)%Qc.
Proof. apply div_finite. done. Qed.

Lemma anchor_coordinate (a w c s n : Qc) :
  s ≠ 0%Qc →
  (w / Q2Qc 2 + (a - w / Q2Qc 2 - (a - w / Q2Qc 2 - c) / s * n)
   + (a - w / Q2Qc 2 - c) / s * n)%Qc = a.
Proof. intros Hs. field. done. Qed.

Lemma world_coordinate (a w c s : Qc) :
  s ≠ 0%Qc →
  (w / Q2Qc 2 + c + (a - w / Q2Qc 2 - c) / s * s)%Qc = a.
Proof. intros Hs. field. done. Qed.

(** C5: over exact arithmetic, for a camera of nonzero scale, the world
    point under the anchor is mapped to the anchor by the old camera and by
    the camera [cameraZoomTo] returns, whatever the new scale and the
    viewport. *)
Theorem cameraZoomTo_anchor_invariant
    (camera : Camera) (anchorScreen : Point) (newScale : jsnum)
    (viewport : Viewport) :
  finiteCamera camera → finitePt anchorScreen → Num.isFinite newScale = true →
  finiteViewport viewport → cam_scale camera ≠ Num.zero →
  worldToScreen (screenToWorld anchorScreen camera viewport) camera viewport
  = anchorScreen ∧
  worldToScreen (screenToWorld anchorScreen camera viewport)
    (cameraZoomTo camera anchorScreen newScale viewport) viewport
  = anchorScreen.
Proof.
  destruct camera as [[cx| | |] [cy| | |] [s| | |]];
    intros (?&?&?); simplify_eq/=.
  destruct anchorScreen as [[ax| | |] [ay| | |]]; intros [??]; simplify_eq/=.
  destruct newScale as [n| | |]; intros ?; simplify_eq/=.
  destruct viewport as [[w| | |] [h| | |]]; intros [??]; simplify_eq/=.
  intros Hs. assert (s ≠ 0%Qc) as Hs' by (intros ->; by apply Hs).
  unfold worldToScreen, screenToWorld, cameraZoomTo.
  cbn [pt_x pt_y cam_x cam_y cam_scale vp_w vp_h].
  repeat first
    [ rewrite half_finite | rewrite sub_finite | rewrite add_finite
    | rewrite mul_finite | rewrite (div_finite _ s Hs') ].
  split; f_equal; f_equal;
    (apply world_coordinate || apply anchor_coordinate); done.
Qed.

Lemma cameraZoomTo_anchor_invariant_witness :
  finiteCamera exampleCamera ∧ finitePt exampleAnchor ∧
  Num.isFinite two = true ∧ finiteViewport exampleViewport ∧
  cam_scale exampleCamera ≠ Num.zero ∧
  worldToScreen (screenToWorld exampleAnchor exampleCamera exampleViewport)
    exampleCamera exampleViewport = exampleAnchor ∧
  worldToScreen (screenToWorld exampleAnchor exampleCamera exampleViewport)
    (cameraZoomTo exampleCamera exampleAnchor two exampleViewport)
    exampleViewport = exampleAnchor.
Proof.
  assert (cam_scale exampleCamera ≠ Num.zero) as Hs.
  { intros Heq.
    apply (f_equal (λ n, match n with Fin q => Qc_eqb q 0 | _ => false end)) in Heq.
    vm_compute in Heq. discriminate. }
  split; [repeat split; reflexivity|]. split; [repeat split; reflexivity|].
  split; [reflexivity|]. split; [repeat split; reflexivity|].
  split; [exact Hs|].
  apply (cameraZoomTo_anchor_invariant exampleCamera exampleAnchor two
           exampleViewport); first [exact Hs | repeat split; reflexivity].
Defined.

(** ** Camera scale *)

(** Case analysis on every rational comparison of the goal, the outcomes
    recorded as order facts and the contradictory cases closed. *)
Ltac qc_order :=
  repeat match goal with
    | |- context [Qc_ltb ?a ?b] => destruct (Qc_ltb a b) eqn:?; simpl
    end;
  repeat match goal with
    | E : Qc_ltb _ _ = true |- _ => apply Qc_ltb_lt in E
    | E : Qc_ltb _ _ = false |- _ => apply Qc_ltb_ge in E
    end;
  try done; try (exfalso; unfold Qclt, Qcle in *; lra).

(** Between finite bounds in order, [clamp] of anything but NaN lands in
    the interval. *)
Lemma clamp_between (v : jsnum) (lo hi : Qc) :
  (lo <= hi)%Qc → Num.isNaN v = false →
  Num.between (Fin lo) (Fin hi) (clamp v (Fin lo) (Fin hi)).
Proof.
  intros Hle Hv. unfold Num.between, clamp.
  destruct v as [q| | |]; try done; simpl; qc_order.
Qed.

Section Scale.
Context `{Host}.

Lemma asCamera_toJS (c : Camera) : asCamera (Camera_toJS c) = Some c.
Proof. by destruct c. Qed.

Lemma scaleOf_set_camera (c : Camera) (st : State) :
  scaleOf (set_camera (Camera_toJS c) st) = Some (cam_scale c).
Proof. by destruct c. Qed.

(** The camera reads as a whole exactly when each field does, the scale
    among them. *)
Lemma asCamera_scale (cam : jsval) (c : Camera) :
  asCamera cam = Some c → ToNumber (get cam "scale") = Some (cam_scale c).
Proof.
  unfold asCamera. intros Hc.
  destruct (ToNumber (get cam "x")); simplify_eq/=.
  destruct (ToNumber (get cam "y")); simplify_eq/=.
  by destruct (ToNumber (get cam "scale")); simplify_eq/=.
Qed.

(** What the wheel does to a camera that reads as [c], and that it throws
    on any other. *)
Lemma handleWheel_spec (p : Point) (deltaY : jsnum) (st : State) :
  match asCamera (camera st) with
  | Some c =>
      handleWheel (Some p) deltaY st
      = Some (set_camera
                (Camera_toJS
                   (cameraZoomTo c p
                      (clamp (if Num.gtb deltaY Num.zero
                              then (cam_scale c / Num.frac 21 20)%js
                              else (cam_scale c * Num.frac 21 20)%js)
                         MIN_SCALE MAX_SCALE) (vp st))) st)
  | None => handleWheel (Some p) deltaY st = None
  end.
Proof.
  unfold handleWheel. destruct (asCamera (camera st)) as [c|] eqn:Hc.
  - by rewrite (asCamera_scale _ _ Hc).
  - by destruct (ToNumber (get (camera st) "scale")).
Qed.

Lemma handleDigitKey_spec (key : string) (newScale : jsnum) (st : State) :
  scaleShortcut key = Some newScale →
  match asCamera (camera st) with
  | Some c =>
      handleDigitKey key st
      = Some (set_camera
                (Camera_toJS
                   (cameraZoomTo c
                      (mkPoint (vp_w (vp st) / two)%js (vp_h (vp st) / two)%js)
                      newScale (vp st))) st)
  | None => handleDigitKey key st = None
  end.
Proof.
  intros Hk. unfold handleDigitKey. rewrite Hk.
  by destruct (asCamera (camera st)).
Qed.

(** The wheel leaves a scale within the bounds, as soon as the scale in
    place is a number. *)
Lemma handleWheel_scale (p : Point) (deltaY : jsnum) (st st' : State) :
  handleWheel (Some p) deltaY st = Some st' →
  ∃ s s', scaleOf st = Some s ∧ scaleOf st' = Some s' ∧
    (Num.isNaN s = false → Num.between MIN_SCALE MAX_SCALE s').
Proof.
  intros Hw. pose proof (handleWheel_spec p deltaY st) as Hspec.
  destruct (asCamera (camera st)) as [c|] eqn:Hc; [|congruence].
  rewrite Hw in Hspec. apply (inj Some) in Hspec as ->. clear Hw.
  eexists _, _. split; [exact (asCamera_scale _ _ Hc)|].
  split; [apply scaleOf_set_camera|].
  intros Hs. unfold cameraZoomTo.
  generalize (Num.gtb deltaY Num.zero). intros b. cbn [cam_scale].
  apply clamp_between; [done|].
  destruct b, (cam_scale c) as [q| | |]; first [done | by vm_compute].
Qed.

(** Every preset of the digit keys lies within the bounds. *)
Lemma handleDigitKey_scale (key : string) (newScale : jsnum) (st st' : State) :
  scaleShortcut key = Some newScale → handleDigitKey key st = Some st' →
  scaleOf st' = Some newScale ∧
  Num.between MIN_SCALE MAX_SCALE newScale.
Proof.
  intros Hk Hd. pose proof (handleDigitKey_spec key newScale st Hk) as Hspec.
  destruct (asCamera (camera st)) as [c|]; [|congruence].
  rewrite Hd in Hspec. injection Hspec as ->.
  split; [apply scaleOf_set_camera|].
  unfold scaleShortcut in Hk.
  repeat case_bool_decide; simplify_eq; by vm_compute.
Qed.

End Scale.

(** C2 fails on import: loading a board whose camera has scale 10 installs
    that camera as it is, and 10 lies outside the bounds. *)
Theorem importLoad_scale_unclamped :
  scaleOf (H := exampleHost) (importLoad (H := exampleHost) textScale10 exampleState)
  = Some (Num.of_Z 10) ∧
  ¬ Num.between MIN_SCALE MAX_SCALE (Num.of_Z 10).
Proof.
  split.
  - vm_compute. reflexivity.
  - intros (_ & Hhi & _). vm_compute in Hhi. discriminate.
Qed.

(** ** Cloning *)

Lemma mapM_fixed {A} (f : A → option A) (l : list A) :
  Forall (λ x, f x = Some x) l → mapM f l = Some l.
Proof. intros Hl. by apply mapM_Some, Forall_Forall2_diag. Qed.

Lemma clonePoint_wf (p : jsval) : wf_point p → clonePoint p = Some p.
Proof.
  destruct p as [| | | | |o]; try done. intros Hwf. simpl.
  f_equal. f_equal. apply map_eq. intros k. unfold obj_of. simpl.
  destruct (decide (k = "x")) as [->|Hx];
    [|destruct (decide (k = "y")) as [->|Hy]];
    destruct (o !! "x") eqn:Ex, (o !! "y") eqn:Ey;
    simplify_map_eq; try done; symmetry; by apply Hwf.
Qed.

Lemma cloneElement_wf (e : jsval) : wf_el e → cloneElement e = Some e.
Proof.
  destruct e as [| | | | |o]; try done. unfold wf_el, cloneElement. simpl.
  destruct (is_str (o !! "kind") "arrow-curve"); [|done].
  destruct (o !! "points") as [[| | | |ps|]|] eqn:Ep; try done.
  intros Hps. rewrite (mapM_fixed clonePoint ps).
  - simpl. by rewrite insert_id.
  - eapply Forall_impl; [done|]. apply clonePoint_wf.
Qed.

Lemma cloneElements_wf (els : list jsval) :
  Forall wf_el els → cloneElements els = Some els.
Proof.
  intros Hwf. apply mapM_fixed. eapply Forall_impl; [done|].
  apply cloneElement_wf.
Qed.

(** ** History *)

Lemma last_drop_snoc {A} (h : list A) (x : A) (n : nat) :
  n ≤ length h → last (drop n (h ++ [x])) = Some x.
Proof.
  intros Hn. rewrite drop_app_le by done. apply last_snoc.
Qed.

Lemma pushHistory_spec (snapshot cloned : list jsval) (st : State) :
  cloneElements snapshot = Some cloned →
  pushHistory snapshot st =
  Some (set_history
          (if decide (HISTORY_LIMIT < length (historyRef st ++ [cloned]))
           then drop 1 (historyRef st ++ [cloned])
           else historyRef st ++ [cloned]) st).
Proof. intros Hc. unfold pushHistory. by rewrite Hc. Qed.

Lemma pushHistory_last (snapshot cloned : list jsval) (st st' : State) :
  cloneElements snapshot = Some cloned →
  pushHistory snapshot st = Some st' →
  last (historyRef st') = Some cloned ∧ elements st' = elements st ∧
  isUndoingRef st' = isUndoingRef st.
Proof.
  intros Hc. rewrite (pushHistory_spec _ _ _ Hc). intros [= <-]. simpl.
  split; [|done]. case_decide.
  - apply last_drop_snoc. rewrite length_app in *. simpl in *.
    unfold HISTORY_LIMIT in *. lia.
  - apply last_snoc.
Qed.

(** Undo right after a snapshot of [prev] was pushed puts [prev] back. *)
Lemma undo_restores (prev next : list jsval) (st : State) :
  Forall wf_el prev →
  last (historyRef st) = Some prev →
  ∃ st2, undo (set_elements next st) = Some st2 ∧ elements st2 = prev.
Proof.
  intros Hwf Hlast. unfold undo. simpl. rewrite Hlast.
  rewrite (cloneElements_wf _ Hwf). simpl. eauto.
Qed.

Lemma applyElementsUpdate_undo (updater : Updater) (next : list jsval)
    (st : State) :
  Forall wf_el (elements st) → isUndoingRef st = false →
  updater (elements st) = Some (Fresh next) →
  ∃ st1 st2, applyElementsUpdate updater st = Some st1 ∧
    elements st1 = next ∧
    undo st1 = Some st2 ∧ elements st2 = elements st.
Proof.
  intros Hwf Hu Hupd. unfold applyElementsUpdate. rewrite Hupd, Hu. simpl.
  pose proof (cloneElements_wf _ Hwf) as Hc.
  destruct (pushHistory (elements st) st) as [st1|] eqn:Hp;
    [|by rewrite (pushHistory_spec _ _ _ Hc) in Hp].
  destruct (pushHistory_last _ _ _ _ Hc Hp) as (Hlast & Hel & _).
  destruct (undo_restores (elements st) next st1 Hwf Hlast) as (st2 & Hundo & Hr).
  exists (set_elements next st1), st2. simpl. done.
Qed.

(** ** Updates by identifier *)

Lemma on_id_other (id : string) (f : jsval → option jsval) (e e' : jsval) :
  on_id id f e = Some e' → other_id id e → e' = e.
Proof.
  unfold on_id, other_id. destruct e; try done; intros Hf Hne;
    rewrite Hne in Hf; congruence.
Qed.

(** A [map] by identifier keeps the length and leaves every element with
    another identifier in place. *)
Lemma mapById_frame (id : string) (f : jsval → option jsval)
    (els : list jsval) (u : Updated) :
  mapById id f els = Some u →
  ∃ next, u = Fresh next ∧ Forall2 (λ e e', other_id id e → e' = e) els next.
Proof.
  unfold mapById. intros Hm.
  destruct (mapM (on_id id f) els) as [next|] eqn:E; simplify_eq/=.
  exists next. split; [done|].
  apply mapM_Some_1 in E. eapply Forall2_impl; [done|].
  intros e e'. apply on_id_other.
Qed.

Lemma mapById_total (id : string) (f : jsval → option jsval) (els : list jsval) :
  Forall (λ e, e ≠ JNull ∧ (is_str (get e "id") id = true → is_Some (f e))) els →
  is_Some (mapById id f els).
Proof.
  intros Hall. unfold mapById. apply fmap_is_Some, mapM_is_Some.
  eapply Forall_impl; [done|]. intros e [Hnn Hf]. simpl.
  unfold on_id. destruct e; try done;
    (destruct (is_str _ id); [by apply Hf | done]).
Qed.

Lemma wf_el_not_null (e : jsval) : wf_el e → e ≠ JNull.
Proof. by destruct e. Qed.

(** No conversion of a primitive value throws. *)
Lemma ToNumber_primitive `{Host} (v : option jsval) :
  primitive v → is_Some (ToNumber v).
Proof. destruct v as [[]|]; by eauto. Qed.

Lemma plus_primitive `{Host} (v : option jsval) (d : jsnum) :
  primitive v → is_Some (plus v d).
Proof. destruct v as [[]|]; by eauto. Qed.

Lemma shiftPoints_total `{Host} (dx dy : jsnum) (ps : list jsval) :
  Forall wf_point ps → Forall primitivePoint ps →
  is_Some (mapM (shiftPoint dx dy) ps).
Proof.
  intros Hps Hprim. apply mapM_is_Some.
  apply Forall_forall. intros p Hin.
  rewrite Forall_forall in Hps, Hprim.
  specialize (Hps p Hin). destruct (Hprim p Hin) as [Hx Hy].
  destruct p as [| | | | |o]; try done. unfold shiftPoint, compose.
  destruct (plus_primitive _ dx Hx) as [x ->].
  destruct (plus_primitive _ dy Hy) as [y ->]. by eexists.
Qed.

Section Frame.
Context `{Host}.

Lemma mapUpdater_run (m : Mutation) (upd : Updater) (st : State) :
  mapUpdater m = Some upd → run m st = applyElementsUpdate upd st.
Proof. destruct m; intros; by simplify_eq/=. Qed.

Lemma mapUpdater_frame (m : Mutation) (upd : Updater) (id : string)
    (els : list jsval) (u : Updated) :
  mapUpdater m = Some upd → target m = Some id → upd els = Some u →
  ∃ next, u = Fresh next ∧ Forall2 (λ e e', other_id id e → e' = e) els next.
Proof.
  destruct m; intros; simplify_eq/=; by eapply mapById_frame.
Qed.

Lemma mapUpdater_total (m : Mutation) (upd : Updater) (st : State) :
  mapUpdater m = Some upd → Forall wf_el (elements st) → applicable m st →
  is_Some (upd (elements st)).
Proof.
  intros Hm Hwf Happ.
  destruct m; simplify_eq/=; apply mapById_total.
  1-2,5: (eapply Forall_impl; [exact Hwf|]; intros e He;
          split; [by apply wf_el_not_null | by eauto]).
  - apply Forall_forall. intros e Hin.
    rewrite Forall_forall in Hwf. rewrite Forall_forall in Happ.
    specialize (Hwf e Hin). specialize (Happ e Hin).
    split; [by apply wf_el_not_null|]. intros Hid.
    destruct (Happ Hid) as (Hx1 & Hy1 & Hx2 & Hy2).
    destruct (plus_primitive _ dx Hx1) as [x1 ->].
    destruct (plus_primitive _ dy Hy1) as [y1 ->].
    destruct (plus_primitive _ dx Hx2) as [x2 ->].
    destruct (plus_primitive _ dy Hy2) as [y2 ->]. by eexists.
  - apply Forall_forall. intros e Hin.
    rewrite Forall_forall in Hwf. rewrite Forall_forall in Happ.
    specialize (Hwf e Hin). specialize (Happ e Hin).
    split; [by apply wf_el_not_null|]. intros Hid.
    destruct (Happ Hid) as [Hkind Hprim].
    destruct e as [| | | | |o]; try done. simpl in *. rewrite Hkind in Hwf.
    destruct (o !! "points") as [[| | | |ps|]|]; try done.
    destruct (shiftPoints_total dx dy ps Hwf (Hprim ps eq_refl)) as [pts ->].
    by eexists.
Qed.

Lemma deleteUpdater_total (id : string) (els : list jsval) :
  Forall wf_el els →
  deleteUpdater id els = Some (Fresh (filter (other_id id) els)).
Proof.
  intros Hwf. unfold deleteUpdater.
  destruct (mapM (on_id id Some) els) eqn:E; [done|].
  apply mapM_None in E. apply Exists_exists in E as (e & Hin & He).
  rewrite Forall_forall in Hwf. specialize (Hwf e Hin).
  destruct e; try done. simpl in He. by destruct (is_str _ id).
Qed.

End Frame.

(** ** Undo *)

Section History.
Context `{Host}.

Lemma applyElementsUpdate_elements (updater : Updater) (next : list jsval)
    (st : State) :
  Forall wf_el (elements st) →
  updater (elements st) = Some (Fresh next) →
  ∃ st', applyElementsUpdate updater st = Some st' ∧ elements st' = next.
Proof.
  intros Hwf Hupd. unfold applyElementsUpdate. rewrite Hupd. simpl.
  destruct (isUndoingRef st); simpl; [by eauto|].
  rewrite (pushHistory_spec _ _ _ (cloneElements_wf _ Hwf)). simpl. by eauto.
Qed.

Lemma commitCurve_points (pts : list Point) (world : Point) :
  pts ≠ [] →
  2 ≤ length (prunePoints CURVE_POINT_EPSILON
                (if decide (length pts = 1) then pts ++ [world]
                 else <[pred (length pts) := world]> pts)).
Proof.
  intros Hne. apply prunePoints_length. case_decide.
  - rewrite length_app. simpl. lia.
  - rewrite length_insert. destruct pts as [|? [|? ?]]; simpl in *;
      [done | done | lia].
Qed.

(** What a mutation hands to [applyElementsUpdate], and the state it runs
    on: the state differs from [st] in the selection and the identifier
    count only. *)
Lemma run_as_update (m : Mutation) (st : State) :
  Forall wf_el (elements st) → applicable m st →
  (∀ next, m ≠ ReplaceElements next) →
  ∃ updater next st0,
    run m st = applyElementsUpdate updater st0 ∧
    elements st0 = elements st ∧ historyRef st0 = historyRef st ∧
    isUndoingRef st0 = isUndoingRef st ∧
    updater (elements st0) = Some (Fresh next).
Proof.
  intros Hwf Happ Hnr.
  destruct (mapUpdater m) as [upd|] eqn:Hm.
  - destruct (mapUpdater_total m upd st Hm Hwf Happ) as [u Hu].
    assert (∃ next, u = Fresh next) as [next ->].
    { destruct m; simplify_eq/=;
        edestruct mapById_frame as (next & -> & _); by eauto. }
    exists upd, next, st. by rewrite (mapUpdater_run m upd st Hm).
  - destruct m; simplify_eq/=.
    + eexists _, _, (set_uuidCount _ st). by split_and!.
    + eexists _, _, (set_uuidCount _ st). by split_and!.
    + unfold commitCurve. destruct pts as [|p pts]; [done|].
      pose proof (commitCurve_points (p :: pts) world Happ).
      cbv zeta.
      match goal with
      | |- context [decide (?a < 2)] => destruct (decide (a < 2)); [lia|]
      end.
      eexists _, _, (set_uuidCount _ st). by split_and!.
    + eexists _, _, (set_selectedId _ st). unfold deleteElement.
      split_and!; try done. by apply deleteUpdater_total.
    + by destruct (Hnr next).
Qed.

Lemma replaceElements_undo (next : list jsval) (st : State) :
  Forall wf_el (elements st) → isUndoingRef st = false →
  is_Some (cloneElements next) →
  ∃ st1 st2, replaceElements next st = Some st1 ∧
    undo st1 = Some st2 ∧ elements st2 = elements st.
Proof.
  intros Hwf Hu [cloned Hn]. unfold replaceElements. rewrite Hu.
  pose proof (cloneElements_wf _ Hwf) as Hc.
  destruct (pushHistory (elements st) st) as [st1|] eqn:Hp;
    [|by rewrite (pushHistory_spec _ _ _ Hc) in Hp].
  destruct (pushHistory_last _ _ _ _ Hc Hp) as (Hlast & Hel & _).
  simpl. rewrite Hn. simpl.
  destruct (undo_restores (elements st) cloned (set_selectedId None st1) Hwf Hlast)
    as (st2 & Hundo & Hr).
  by eexists _, st2.
Qed.

End History.

(** C6: on a state of well-formed elements, each mutation (a move, a
    creation, a deletion, a patch, a full replacement) that is applicable
    (the coordinates a move adds to are primitive values, so that the
    addition does not throw) goes through, and followed by [undo] leaves
    the element sequence equal to the one before the mutation; and [undo]
    on an empty history changes nothing. *)
Theorem undo_restores_previous_elements `{Host} (m : Mutation) (st : State) :
  Forall wf_el (elements st) → isUndoingRef st = false → applicable m st →
  (∃ st1 st2, run m st = Some st1 ∧ undo st1 = Some st2 ∧
     elements st2 = elements st) ∧
  (historyRef st = [] → undo st = Some st).
Proof.
  intros Hwf Hu Happ. split.
  - assert ((∃ next, m = ReplaceElements next) ∨ ∀ next, m ≠ ReplaceElements next)
      as [[next ->]|Hnr] by (destruct m; eauto).
    + by apply replaceElements_undo.
    + destruct (run_as_update m st Hwf Happ Hnr)
        as (upd & next & st0 & Hrun & He & _ & Hu0 & Hupd).
      destruct (applyElementsUpdate_undo upd next st0) as (st1 & st2 & ? & ? & ? & ?);
        [by rewrite He | congruence | done |].
      exists st1, st2. rewrite Hrun. split_and!; congruence.
  - intros Hh. unfold undo. by rewrite Hh.
Qed.

Lemma exampleState_wf : Forall wf_el (elements exampleState).
Proof.
  unfold exampleState, initialState, initialElements.
  cbn [elements fmap list_fmap].
  repeat (constructor; [by vm_compute|]). constructor.
Qed.

(** The arrows of the stable board can be moved, and the move is undone. *)
Example moves_applicable :
  applicable (MoveStraight "s1" Num.one Num.one) stableState ∧
  applicable (MoveCurve "c2" Num.one Num.one) stableState ∧
  (∃ st1, run (H := exampleHost) (MoveStraight "s1" Num.one Num.one) stableState
          = Some st1 ∧ elements st1 ≠ elements stableState ∧
          elements <$> undo st1 = Some (elements stableState)) ∧
  (∃ st1, run (H := exampleHost) (MoveCurve "c2" Num.one Num.one) stableState
          = Some st1 ∧ elements st1 ≠ elements stableState ∧
          elements <$> undo st1 = Some (elements stableState)).
Proof.
  split_and!.
  - repeat constructor; by vm_compute.
  - repeat constructor; try done.
    intros ps [= <-]. repeat constructor; by vm_compute.
  - eexists. split; [by vm_compute|]. split; by vm_compute.
  - eexists. split; [by vm_compute|]. split; by vm_compute.
Qed.

(** A straight arrow whose coordinate has no primitive value cannot be
    moved, nor a curve with such a point: the updater throws and the
    state is not replaced. *)
Example moves_unconvertible :
  run (H := exampleHost) (MoveStraight "s1" Num.one Num.one)
    (set_elements
       [JObj (<["id" := JStr "s1"]> (<["x1" := noPrimitive]> ∅))]
       exampleState) = None ∧
  run (H := exampleHost) (MoveCurve "c2" Num.one Num.one)
    (set_elements
       [JObj (<["id" := JStr "c2"]>
              (<["kind" := JStr "arrow-curve"]>
               (<["points" := JArr [JObj (<["x" := noPrimitive]> ∅)]]> ∅)))]
       exampleState) = None.
Proof. split; by vm_compute. Qed.

Lemma undo_restores_previous_elements_witness :
  Forall wf_el (elements exampleState) ∧ isUndoingRef exampleState = false ∧
  applicable spawnPlayer exampleState ∧
  (∃ st1 st2, run (H := exampleHost) spawnPlayer exampleState = Some st1 ∧
     undo st1 = Some st2 ∧ elements st2 = elements exampleState) ∧
  (historyRef exampleState = [] → undo exampleState = Some exampleState).
Proof.
  split; [exact exampleState_wf|]. split; [reflexivity|]. split; [exact I|].
  apply (undo_restores_previous_elements (H := exampleHost) spawnPlayer exampleState);
    [exact exampleState_wf | reflexivity | exact I].
Defined.

(** ** Frame of the mutations aimed at an identifier *)

(** C9: a move, a patch or a deletion aimed at an identifier runs on
    well-formed elements when it is applicable (the coordinates a move
    adds to are primitive values, so that the addition does not throw),
    and leaves every element with another identifier
    as it was and where it was: a move or a patch keeps the length and the
    positions, a deletion keeps exactly the elements with another
    identifier, in their order. *)
Theorem id_mutation_frame `{Host} (m : Mutation) (id : string) (st : State) :
  target m = Some id → Forall wf_el (elements st) → applicable m st →
  ∃ st', run m st = Some st' ∧
    if is_delete m then elements st' = filter (other_id id) (elements st)
    else Forall2 (λ e e', other_id id e → e' = e) (elements st) (elements st').
Proof.
  intros Ht Hwf Happ.
  destruct (mapUpdater m) as [upd|] eqn:Hm.
  - destruct (mapUpdater_total m upd st Hm Hwf Happ) as [u Hu].
    destruct (mapUpdater_frame m upd id _ u Hm Ht Hu) as (next & -> & Hframe).
    destruct (applyElementsUpdate_elements upd next st Hwf Hu) as (st' & Hrun & He).
    exists st'. rewrite (mapUpdater_run m upd st Hm). split; [done|].
    rewrite He. by destruct m.
  - destruct m; simplify_eq/=.
    unfold deleteElement.
    match goal with
    | |- context [applyElementsUpdate _ ?s] =>
        destruct (applyElementsUpdate_elements (deleteUpdater id)
                    (filter (other_id id) (elements st)) s)
          as (st' & Hrun & He); [done | by apply deleteUpdater_total |]
    end.
    exists st'. split; [exact Hrun | exact He].
Qed.

Lemma id_mutation_frame_witness :
  target (DeleteElement ballId) = Some ballId ∧
  Forall wf_el (elements exampleState) ∧
  applicable (DeleteElement ballId) exampleState ∧
  ∃ st', run (H := exampleHost) (DeleteElement ballId) exampleState = Some st' ∧
    if is_delete (DeleteElement ballId)
    then elements st' = filter (other_id ballId) (elements exampleState)
    else Forall2 (λ e e', other_id ballId e → e' = e)
           (elements exampleState) (elements st').
Proof.
  split; [reflexivity|]. split; [exact exampleState_wf|]. split; [exact I|].
  apply (id_mutation_frame (H := exampleHost) (DeleteElement ballId) ballId
           exampleState); [reflexivity | exact exampleState_wf | exact I].
Defined.

(** Deleting the ball of the initial board leaves its eight players. *)
Example delete_ball_length :
  (length ∘ elements) <$> run (H := exampleHost) (DeleteElement ballId) exampleState
  = Some 8.
Proof. vm_compute. reflexivity. Qed.

(** ** The bound on the history *)

Lemma pushHistory_bounded (snapshot : list jsval) (st st' : State) :
  bounded st → pushHistory snapshot st = Some st' → bounded st'.
Proof.
  unfold bounded, pushHistory. intros Hb Hp.
  destruct (cloneElements snapshot) as [cloned|]; simplify_eq/=.
  case_decide; rewrite ?length_drop, length_app in *; simpl in *; lia.
Qed.

Lemma applyElementsUpdate_bounded (updater : Updater) (st st' : State) :
  bounded st → applyElementsUpdate updater st = Some st' → bounded st'.
Proof.
  unfold applyElementsUpdate. intros Hb Ha.
  destruct (updater (elements st)) as [[|next]|]; simplify_eq/=; [done|].
  destruct (isUndoingRef st); simplify_eq/=; [done|].
  destruct (pushHistory (elements st) st) as [st1|] eqn:Hp; simplify_eq/=.
  by apply (pushHistory_bounded _ _ _ Hb Hp).
Qed.

Lemma replaceElements_bounded (next : list jsval) (st st' : State) :
  bounded st → replaceElements next st = Some st' → bounded st'.
Proof.
  unfold replaceElements. intros Hb Hr.
  destruct (isUndoingRef st); simplify_eq/=.
  - destruct (cloneElements next); by simplify_eq/=.
  - destruct (pushHistory (elements st) st) as [st1|] eqn:Hp; simplify_eq/=.
    destruct (cloneElements next); simplify_eq/=.
    by apply (pushHistory_bounded _ _ _ Hb Hp).
Qed.

Lemma undo_bounded (st st' : State) : bounded st → undo st = Some st' → bounded st'.
Proof.
  unfold undo, bounded. intros Hb Hu.
  destruct (last (historyRef st)) as [snapshot|]; simplify_eq/=; [|done].
  destruct (cloneElements snapshot); simplify_eq/=.
  rewrite length_take. lia.
Qed.

Section Bound.
Context `{Host}.

Lemma run_bounded (m : Mutation) (st st' : State) :
  bounded st → run m st = Some st' → bounded st'.
Proof.
  intros Hb Hr. destruct m; simpl in Hr;
    try (by eapply applyElementsUpdate_bounded; [|exact Hr]).
  - unfold commitCurve in Hr. destruct pts; simplify_eq/=; [done|].
    case_decide; simplify_eq/=; [done|].
    by eapply applyElementsUpdate_bounded; [|exact Hr].
  - by eapply replaceElements_bounded.
Qed.

Lemma importLoad_bounded (importText : string) (st : State) :
  bounded st → bounded (importLoad importText st).
Proof.
  intros Hb. unfold importLoad.
  destruct (importBody importText st) as [st'|] eqn:Hi; [|done].
  unfold importBody in Hi.
  destruct (JSON_parse importText) as [parsed|]; simplify_eq/=.
  destruct (importedElements parsed) as [raw|]; simplify_eq/=.
  destruct (normalizeImportedElements raw (uuidCount st)) as [[normalized|] n];
    simplify_eq/=.
  destruct (replaceElements normalized (set_uuidCount n st)) as [st1|] eqn:Hr;
    simplify_eq/=.
  exact (replaceElements_bounded normalized (set_uuidCount n st) st1 Hb Hr).
Qed.

Lemma step_bounded (a : Action) (st st' : State) :
  bounded st → step a st = Some st' → bounded st'.
Proof.
  intros Hb Hs. destruct a; simpl in Hs.
  - by eapply run_bounded.
  - by eapply undo_bounded.
  - simplify_eq. by apply importLoad_bounded.
  - unfold handleWheel in Hs. destruct pointer; simplify_eq/=; [|done].
    destruct (ToNumber _); simplify_eq/=.
    by destruct (asCamera _); simplify_eq/=.
  - unfold handleDigitKey in Hs. destruct (scaleShortcut key); simplify_eq/=;
      [|done].
    by destruct (asCamera _); simplify_eq/=.
Qed.

Lemma run_actions_bounded (acts : list Action) (st st' : State) :
  bounded st → run_actions acts st = Some st' → bounded st'.
Proof.
  revert st. induction acts as [|a acts IH]; intros st Hb Hr; simplify_eq/=.
  - done.
  - destruct (step a st) as [st1|] eqn:Hs; simplify_eq/=.
    eapply IH; [|done]. by eapply step_bounded.
Qed.

(** A spawn on well-formed elements records them: the history grows by
    one snapshot as long as there is room. *)
Lemma spawns_fill (k : nat) (st : State) :
  Forall wf_el (elements st) → isUndoingRef st = false →
  length (historyRef st) + k ≤ HISTORY_LIMIT →
  ∃ st', run_actions (replicate k (Mutate spawnPlayer)) st = Some st' ∧
    length (historyRef st') = length (historyRef st) + k.
Proof.
  revert st. induction k as [|k IH]; intros st Hwf Hu Hroom.
  - exists st. split; [done | lia].
  - assert (∃ st1, run spawnPlayer st = Some st1 ∧
              Forall wf_el (elements st1) ∧ isUndoingRef st1 = false ∧
              length (historyRef st1) = S (length (historyRef st)))
      as (st1 & Hrun1 & Hwf1 & Hu1 & Hlen1).
    { unfold run, spawnPlayer, spawnAt, applyElementsUpdate.
      cbn [elements isUndoingRef set_uuidCount mbind option_bind].
      rewrite Hu. rewrite (pushHistory_spec _ _ _ (cloneElements_wf _ Hwf)).
      cbn [mbind option_bind]. eexists. split; [done|].
      cbn [elements historyRef isUndoingRef set_elements set_history
           set_uuidCount].
      split_and!; [|done|].
      - apply Forall_app. split; [done|].
        constructor; [|constructor]. by vm_compute.
      - rewrite decide_False by (rewrite length_app; simpl; lia).
        rewrite length_app. simpl. lia. }
    destruct (IH st1 Hwf1 Hu1) as (st' & Hrun & Hlen); [lia|].
    exists st'. cbn [replicate run_actions step]. rewrite Hrun1. simpl.
    split; [exact Hrun | lia].
Qed.

Lemma initialState_wf (viewport : Viewport) :
  Forall wf_el (elements (initialState viewport)).
Proof.
  unfold initialState, initialElements.
  cbn [elements fmap list_fmap].
  repeat (constructor; [by vm_compute|]). constructor.
Qed.

End Bound.

(** C7: along every trace from the initial state the history holds at
    most 50 snapshots.  A push appends the clone of the snapshot and, on a
    history of 50, drops the oldest one; [undo] takes the most recent
    snapshot off, so that a push followed by [undo] leaves the history the
    push found, less the snapshot it dropped.  The limit is reached: some
    trace from the initial state gives a history of 50. *)
Theorem history_never_exceeds_limit `{Host} (acts : list Action)
    (viewport : Viewport) (st : State) :
  run_actions acts (initialState viewport) = Some st →
  length (historyRef st) ≤ 50 ∧
  (∀ snapshot cloned, cloneElements snapshot = Some cloned →
     historyRef <$> pushHistory snapshot st
     = Some ((if decide (length (historyRef st) = 50)
              then drop 1 (historyRef st) else historyRef st) ++ [cloned])) ∧
  (∀ older snapshot cloned, historyRef st = older ++ [snapshot] →
     cloneElements snapshot = Some cloned →
     ∃ st', undo st = Some st' ∧ historyRef st' = older ∧ elements st' = cloned) ∧
  (∀ snapshot, Forall wf_el snapshot →
     ∃ st1 st2, pushHistory snapshot st = Some st1 ∧ undo st1 = Some st2 ∧
       historyRef st2
       = (if decide (length (historyRef st) = 50)
          then drop 1 (historyRef st) else historyRef st) ∧
       elements st2 = snapshot) ∧
  (∃ filling full,
     run_actions filling (initialState viewport) = Some full ∧
     length (historyRef full) = 50).
Proof.
  intros Hr.
  assert (length (historyRef st) ≤ 50) as Hb.
  { eapply (run_actions_bounded acts); [|done]. unfold bounded. simpl. lia. }
  assert (∀ cloned,
            (if decide (HISTORY_LIMIT < length (historyRef st ++ [cloned]))
             then drop 1 (historyRef st ++ [cloned])
             else historyRef st ++ [cloned])
            = (if decide (length (historyRef st) = 50)
               then drop 1 (historyRef st) else historyRef st) ++ [cloned])
    as Hpush.
  { intros cloned. rewrite length_app. simpl. unfold HISTORY_LIMIT.
    destruct (decide (length (historyRef st) = 50)) as [Hfull|Hroom].
    - rewrite decide_True by lia. by destruct (historyRef st).
    - by rewrite decide_False by lia. }
  split_and!.
  - exact Hb.
  - intros snapshot cloned Hc.
    rewrite (pushHistory_spec _ _ _ Hc). simpl. by rewrite Hpush.
  - intros older snapshot cloned Hh Hc. unfold undo.
    rewrite Hh, last_snoc, Hc. simpl. eexists. split_and!; [done| |done].
    rewrite length_app. simpl. rewrite Nat.add_1_r. simpl.
    by rewrite take_app_length.
  - intros snapshot Hwf. pose proof (cloneElements_wf _ Hwf) as Hc.
    rewrite (pushHistory_spec _ _ _ Hc), Hpush.
    eexists _, _. split; [done|]. unfold undo. cbn [historyRef set_history].
    rewrite last_snoc, Hc. simpl. split_and!; [done| |done].
    rewrite length_app. simpl. rewrite Nat.add_1_r. simpl.
    by rewrite take_app_length.
  - destruct (spawns_fill 50 (initialState viewport)) as (full & Hrun & Hlen);
      [apply initialState_wf | done | simpl; unfold HISTORY_LIMIT; lia |].
    exists (replicate 50 (Mutate spawnPlayer)), full. split; [exact Hrun|].
    rewrite Hlen. done.
Qed.

Lemma history_never_exceeds_limit_witness :
  ∃ st,
    run_actions (H := exampleHost) (replicate 60 (Mutate spawnPlayer))
      (initialState (H := exampleHost) exampleViewport) = Some st ∧
    length (historyRef st) = 50 ∧
    (∀ snapshot cloned, cloneElements snapshot = Some cloned →
       historyRef <$> pushHistory snapshot st
       = Some ((if decide (length (historyRef st) = 50)
                then drop 1 (historyRef st) else historyRef st) ++ [cloned])) ∧
    (∀ older snapshot cloned, historyRef st = older ++ [snapshot] →
       cloneElements snapshot = Some cloned →
       ∃ st', undo st = Some st' ∧ historyRef st' = older ∧
         elements st' = cloned) ∧
    (∀ snapshot, Forall wf_el snapshot →
       ∃ st1 st2, pushHistory snapshot st = Some st1 ∧ undo st1 = Some st2 ∧
         historyRef st2
         = (if decide (length (historyRef st) = 50)
            then drop 1 (historyRef st) else historyRef st) ∧
         elements st2 = snapshot) ∧
    (∃ filling full,
       run_actions (H := exampleHost) filling
         (initialState (H := exampleHost) exampleViewport) = Some full ∧
       length (historyRef full) = 50).
Proof.
  assert ((length ∘ historyRef) <$>
            run_actions (H := exampleHost) (replicate 60 (Mutate spawnPlayer))
              (initialState (H := exampleHost) exampleViewport) = Some 50)
    as Hfull by (vm_compute; reflexivity).
  destruct (run_actions (H := exampleHost) (replicate 60 (Mutate spawnPlayer))
              (initialState (H := exampleHost) exampleViewport)) as [st|] eqn:E;
    [|discriminate Hfull].
  exists st. split; [reflexivity|].
  split; [by injection Hfull|].
  exact (proj2 (history_never_exceeds_limit (H := exampleHost) _ _ st E)).
Defined.

(** Sixty spawns in a row fill the history to its limit and no further. *)
Example history_full_after_sixty_spawns :
  (length ∘ historyRef) <$>
    run_actions (H := exampleHost) (replicate 60 (Mutate spawnPlayer)) exampleState
  = Some 50.
Proof. vm_compute. reflexivity. Qed.

(** ** Import *)

(** C8: when the text does not parse, the Load handler reports it and
    leaves the elements, the history, the selection and the camera as
    they were. *)
Theorem importLoad_parse_failure `{Host} (importText : string) (st : State) :
  JSON_parse importText = None →
  importLoad importText st = alert "Invalid JSON" st ∧
  elements (importLoad importText st) = elements st ∧
  historyRef (importLoad importText st) = historyRef st ∧
  camera (importLoad importText st) = camera st ∧
  selectedId (importLoad importText st) = selectedId st ∧
  importDialogOpen (importLoad importText st) = importDialogOpen st ∧
  alerts (importLoad importText st) = alerts st ++ ["Invalid JSON"].
Proof.
  intros Hp. unfold importLoad, importBody. rewrite Hp. by simpl.
Qed.

Lemma importLoad_parse_failure_witness :
  JSON_parse (Host := exampleHost) "{elements:" = None ∧
  importLoad (H := exampleHost) "{elements:" exampleState
  = alert "Invalid JSON" exampleState ∧
  elements (importLoad (H := exampleHost) "{elements:" exampleState)
  = elements exampleState ∧
  historyRef (importLoad (H := exampleHost) "{elements:" exampleState)
  = historyRef exampleState ∧
  camera (importLoad (H := exampleHost) "{elements:" exampleState)
  = camera exampleState ∧
  selectedId (importLoad (H := exampleHost) "{elements:" exampleState)
  = selectedId exampleState ∧
  importDialogOpen (importLoad (H := exampleHost) "{elements:" exampleState)
  = importDialogOpen exampleState ∧
  alerts (importLoad (H := exampleHost) "{elements:" exampleState)
  = alerts exampleState ++ ["Invalid JSON"].
Proof.
  split; [reflexivity|].
  apply (importLoad_parse_failure (H := exampleHost) "{elements:" exampleState).
  reflexivity.
Defined.

(** ** Import normalisation *)

Lemma wf_point_toJS (p : Point) : wf_point (Point_toJS p).
Proof. intros k Hx Hy. by simplify_map_eq. Qed.

Lemma wf_curveObject (id : jsval) (points : list Point) (color : string)
    (dashed : bool) :
  wf_el (curveObject id points color dashed).
Proof.
  unfold wf_el, curveObject, obj_of. simpl. simplify_map_eq. simpl.
  apply Forall_fmap, Forall_true. intros p. apply wf_point_toJS.
Qed.

Lemma wf_straightObject (id : jsval) (x1 y1 x2 y2 : jsnum) (color : string)
    (dashed : bool) :
  wf_el (straightObject id x1 y1 x2 y2 color dashed).
Proof. unfold wf_el, straightObject, obj_of. simpl. by simplify_map_eq. Qed.

Lemma wf_clonesToObject (r : jsval) : wf_el r → clonesToObject r.
Proof.
  intros Hwf. destruct r as [| | | | |o]; try done.
  exists o. by apply cloneElement_wf.
Qed.

Section NormalizeFacts.
Context `{Host}.

Lemma normalizeEntry_primitive (el : jsval) (n : nat) :
  isObjectEntry el = false → normalizeEntry el n = Some (None, n).
Proof.
  intros Hel. unfold normalizeEntry.
  destruct el; try done; simpl; try by rewrite orb_true_r.
Qed.

(** The callback throws exactly on the entries with a coordinate that
    [Number] cannot convert. *)
Lemma normalizeEntry_throws (el : jsval) (n : nat) :
  normalizeEntry el n = None ↔ throwsOn el.
Proof.
  unfold normalizeEntry, throwsOn.
  destruct el as [| | | | |o]; simpl; rewrite ?orb_true_r; try (by split).
  destruct (is_str (o !! "kind") "arrow-curve") eqn:Hc.
  { destruct (pointList (JObj o)) as [ps|] eqn:Hp.
    - destruct (mapM coercePoint ps) as [coerced|] eqn:Hm; simpl.
      + split.
        * case_decide; [done|]. by destruct (id_or_fresh (JObj o) n).
        * intros (ps' & [= <-] & Hex). apply mapM_None in Hex. congruence.
      + split; [|done]. intros _. exists ps. split; [done|].
        by apply mapM_None.
    - split; [|by intros (ps & ? & _)].
      destruct (legacyCubic (JObj o)) as [[[[p0 c1] c2] p3]|]; [|done].
      by destruct (id_or_fresh (JObj o) n). }
  destruct (is_str (o !! "kind") "arrow-straight") eqn:Hs; [|done].
  destruct (ToNumber (o !! "x1")) as [x1|]; simpl; [|split; by eauto].
  destruct (ToNumber (o !! "y1")) as [y1|]; simpl; [|split; by eauto].
  destruct (ToNumber (o !! "x2")) as [x2|]; simpl; [|split; by eauto].
  destruct (ToNumber (o !! "y2")) as [y2|]; simpl; [|split; by eauto 6].
  split; [|by intros [?|[?|[?|?]]]].
  destruct (_ && _); [|done]. by destruct (id_or_fresh (JObj o) n).
Qed.

Lemma normalizeMap_throws (raw : list jsval) (n : nat) :
  normalizeMap raw n = None ↔ Exists throwsOn raw.
Proof.
  revert n. induction raw as [|el raw IH]; intros n; simpl.
  - split; [done | by intros ?%Exists_nil].
  - rewrite Exists_cons, <-(normalizeEntry_throws el n).
    destruct (normalizeEntry el n) as [[r n1]|]; simpl; [|split; by eauto].
    rewrite <-(IH n1).
    destruct (normalizeMap raw n1) as [[rs n2]|]; simpl.
    + split; [done | by intros [?|?]].
    + split; by eauto.
Qed.

(** An entry whose coordinates are primitive is converted without a
    throw. *)
Lemma plainEntry_converts (el : jsval) : plainEntry el → ¬ throwsOn el.
Proof.
  intros (Hx1 & Hy1 & Hx2 & Hy2 & Hps). unfold throwsOn.
  destruct (is_str (get el "kind") "arrow-curve").
  - intros (ps & Hp & Hex). unfold pointList in Hp.
    destruct (get el "points") as [[| | | |ps'|]|] eqn:Hg; try done.
    case_decide; simplify_eq. specialize (Hps ps eq_refl).
    apply Exists_exists in Hex as (p & Hin & Hnone).
    rewrite Forall_forall in Hps. destruct (Hps p Hin) as [Hx Hy].
    unfold coercePoint, get_opt in Hnone.
    destruct (ToNumber_primitive _ Hx) as [x Ex].
    destruct (ToNumber_primitive _ Hy) as [y Ey].
    by rewrite Ex, Ey in Hnone.
  - destruct (is_str (get el "kind") "arrow-straight"); [|by intros []].
    destruct (ToNumber_primitive _ Hx1), (ToNumber_primitive _ Hy1),
      (ToNumber_primitive _ Hx2), (ToNumber_primitive _ Hy2).
    intros [?|[?|[?|?]]]; congruence.
Qed.

Lemma plainEntries_convert (raw : list jsval) :
  Forall plainEntry raw → ¬ Exists throwsOn raw.
Proof.
  intros Hall Hex. apply Exists_exists in Hex as (el & Hin & Hthrows).
  rewrite Forall_forall in Hall. by apply (plainEntry_converts el (Hall el Hin)).
Qed.

Lemma normalizeEntry_clones (el r : jsval) (n n' : nat) :
  normalizeEntry el n = Some (Some r, n') → clonesToObject r.
Proof.
  unfold normalizeEntry.
  destruct (negb (truthy (Some el)) || negb (typeof_object el)) eqn:Hg;
    [done|].
  destruct (is_str (get el "kind") "arrow-curve") eqn:Hc.
  { destruct (pointList el) as [ps|].
    - destruct (mapM coercePoint ps) as [coerced|]; simpl; [|done].
      case_decide; [done|]. destruct (id_or_fresh el n) as [id m].
      intros [= <- <-]. apply wf_clonesToObject, wf_curveObject.
    - destruct (legacyCubic el) as [[[[p0 c1] c2] p3]|]; [|done].
      destruct (id_or_fresh el n) as [id m].
      intros [= <- <-]. apply wf_clonesToObject, wf_curveObject. }
  destruct (is_str (get el "kind") "arrow-straight").
  { destruct (ToNumber (get el "x1")) as [x1|]; simpl; [|done].
    destruct (ToNumber (get el "y1")) as [y1|]; simpl; [|done].
    destruct (ToNumber (get el "x2")) as [x2|]; simpl; [|done].
    destruct (ToNumber (get el "y2")) as [y2|]; simpl; [|done].
    destruct (_ && _); [|done]. destruct (id_or_fresh el n) as [id m].
    intros [= <- <-]. apply wf_clonesToObject, wf_straightObject. }
  intros [= <- <-]. unfold clonesToObject, cloneElement. rewrite Hc.
  destruct el; try done; by eexists.
Qed.

Lemma normalizeMap_clones (raw : list jsval) (n n' : nat)
    (mapped : list (option jsval)) :
  normalizeMap raw n = Some (mapped, n') →
  Forall clonesToObject (omap id mapped).
Proof.
  revert n mapped. induction raw as [|el raw IH]; intros n mapped; simpl.
  - intros [= <- <-]. constructor.
  - destruct (normalizeEntry el n) as [[r n1]|] eqn:He; simpl; [|done].
    destruct (normalizeMap raw n1) as [[rs n2]|] eqn:Hm; simpl; [|done].
    intros [= <- <-]. specialize (IH n1 rs Hm).
    destruct r as [r|]; simpl; [|done].
    constructor; [by eapply normalizeEntry_clones | done].
Qed.

Lemma cloneElements_objects (mapped : list jsval) :
  Forall clonesToObject mapped →
  ∃ out, cloneElements mapped = Some out ∧ Forall is_JObj out.
Proof.
  induction 1 as [|r mapped [o Ho] _ (out & Hout & Hobj)].
  - by exists [].
  - exists (JObj o :: out). unfold cloneElements in *. simpl.
    rewrite Ho. simpl. rewrite Hout. simpl. split; [done|].
    by constructor.
Qed.

(** The normaliser returns an array unless its callback throws, and the
    array is made of objects. *)
Lemma normalizeImportedElements_throws (raw : list jsval) (n : nat) :
  (normalizeImportedElements raw n).1 = None ↔ Exists throwsOn raw.
Proof.
  rewrite <-(normalizeMap_throws raw n). unfold normalizeImportedElements.
  destruct (normalizeMap raw n) as [[mapped n']|] eqn:Hm; simpl; [|done].
  destruct (cloneElements_objects _ (normalizeMap_clones _ _ _ _ Hm))
    as (out & -> & _). done.
Qed.

Lemma normalizeImportedElements_JObj (raw out : list jsval) (n : nat) :
  (normalizeImportedElements raw n).1 = Some out → Forall is_JObj out.
Proof.
  unfold normalizeImportedElements.
  destruct (normalizeMap raw n) as [[mapped n']|] eqn:Hm; simpl; [|done].
  destruct (cloneElements_objects _ (normalizeMap_clones _ _ _ _ Hm))
    as (out' & -> & Hobj). by intros [= <-].
Qed.

Lemma normalizeMap_filter (raw : list jsval) (n : nat) :
  kept <$> normalizeMap (filter (λ v, isObjectEntry v = true) raw) n
  = kept <$> normalizeMap raw n.
Proof.
  revert n. induction raw as [|el raw IH]; intros n; [done|].
  rewrite filter_cons. case_decide as Hel.
  - simpl. destruct (normalizeEntry el n) as [[r n1]|]; simpl; [|done].
    specialize (IH n1).
    destruct (normalizeMap raw n1) as [[rs n2]|];
      destruct (normalizeMap (filter _ raw) n1) as [[rs' n2']|];
      simplify_eq/=; [|done].
    unfold kept. simpl. destruct r; simpl;
      change (list_omap _ _ id ?l) with (omap id l); by rewrite IH.
  - simpl. rewrite normalizeEntry_primitive by by destruct (isObjectEntry el).
    simpl. rewrite IH.
    by destruct (normalizeMap raw n) as [[rs n2]|].
Qed.

Lemma normalizeMap_app (pre post : list jsval) (n : nat) :
  normalizeMap (pre ++ post) n
  = '(ra, n1) ← normalizeMap pre n;
    '(rb, n2) ← normalizeMap post n1;
    Some (ra ++ rb, n2).
Proof.
  revert n. induction pre as [|el pre IH]; intros n; simpl.
  - by destruct (normalizeMap post n) as [[rb n2]|].
  - destruct (normalizeEntry el n) as [[r n1]|]; simpl; [|done].
    rewrite IH. destruct (normalizeMap pre n1) as [[ra n1']|]; simpl; [|done].
    by destruct (normalizeMap post n1') as [[rb n2]|].
Qed.

Lemma cloneElements_app (a b : list jsval) :
  cloneElements (a ++ b)
  = ca ← cloneElements a; cb ← cloneElements b; Some (ca ++ cb).
Proof.
  unfold cloneElements. induction a as [|e a IH]; simpl.
  - by destruct (mapM cloneElement b).
  - destruct (cloneElement e); simpl; [|done]. rewrite IH.
    destruct (mapM cloneElement a); simpl; [|done].
    by destruct (mapM cloneElement b).
Qed.

(** An object of another kind goes through as it is, between the results
    of the entries before it and after it. *)
Lemma normalizeImportedElements_between (pre post a b : list jsval)
    (n n1 n2 : nat) (o : gmap string jsval) :
  is_str (o !! "kind") "arrow-curve" = false →
  is_str (o !! "kind") "arrow-straight" = false →
  normalizeImportedElements pre n = (Some a, n1) →
  normalizeImportedElements post n1 = (Some b, n2) →
  normalizeImportedElements (pre ++ JObj o :: post) n
  = (Some (a ++ JObj o :: b), n2).
Proof.
  intros Hc Hs. unfold normalizeImportedElements.
  rewrite normalizeMap_app.
  destruct (normalizeMap pre n) as [[ra m1]|]; [|done]. intros [= Ha ->].
  cbn [mbind option_bind normalizeMap].
  assert (normalizeEntry (JObj o) n1 = Some (Some (JObj o), n1)) as ->.
  { unfold normalizeEntry. simpl. by rewrite Hc, Hs. }
  cbn [mbind option_bind].
  destruct (normalizeMap post n1) as [[rb m2]|]; [|done]. intros [= Hb ->].
  cbn [mbind option_bind]. f_equal.
  rewrite omap_app. cbn [omap list_omap id]. rewrite cloneElements_app, Ha.
  cbn [mbind option_bind].
  change (cloneElements (JObj o :: omap id rb))
    with (e ← cloneElement (JObj o); r ← cloneElements (omap id rb);
          Some (e :: r)).
  unfold cloneElement. cbn [get spread]. rewrite Hc, Hb. done.
Qed.

End NormalizeFacts.

(** C10: the entries that are [null] or not objects leave no trace in the
    result of the normaliser, which throws on the same arrays with them as
    without them; whatever it returns is made of objects, and it returns
    on every array whose coordinates are primitive; and an object whose
    [kind] is neither of the two arrow kinds comes out as it went in, at
    its place between the results of the entries before and after it. *)
Theorem normalizeImportedElements_objects `{Host} (raw pre post a b : list jsval)
    (n n1 n2 : nat) (o : gmap string jsval) :
  is_str (o !! "kind") "arrow-curve" = false →
  is_str (o !! "kind") "arrow-straight" = false →
  normalizeImportedElements pre n = (Some a, n1) →
  normalizeImportedElements post n1 = (Some b, n2) →
  normalizeImportedElements raw n
  = normalizeImportedElements (filter (λ v, isObjectEntry v = true) raw) n ∧
  (∀ out, (normalizeImportedElements raw n).1 = Some out → Forall is_JObj out) ∧
  (Forall plainEntry raw →
   ∃ out, (normalizeImportedElements raw n).1 = Some out ∧ Forall is_JObj out) ∧
  normalizeImportedElements (pre ++ JObj o :: post) n
  = (Some (a ++ JObj o :: b), n2) ∧
  normalizeImportedElements [JObj o] n = (Some [JObj o], n).
Proof.
  intros Hc Hs Hpre Hpost. split_and!.
  - unfold normalizeImportedElements.
    pose proof (normalizeMap_filter raw n) as Hf.
    destruct (normalizeMap raw n) as [[mapped n']|];
      destruct (normalizeMap (filter _ raw) n) as [[mapped' n'']|];
      simplify_eq/=; [|done].
    by rewrite Hf.
  - intros out. apply normalizeImportedElements_JObj.
  - intros Hplain.
    destruct (normalizeImportedElements raw n).1 as [out|] eqn:Hout.
    + exists out. split; [done|]. by eapply normalizeImportedElements_JObj.
    + apply normalizeImportedElements_throws in Hout.
      by destruct (plainEntries_convert raw Hplain).
  - exact (normalizeImportedElements_between pre post a b n n1 n2 o
             Hc Hs Hpre Hpost).
  - by apply (normalizeImportedElements_between [] [] [] [] n n n o Hc Hs).
Qed.

Lemma normalizeImportedElements_objects_witness :
  normalizeImportedElements (H := exampleHost) mixedArray 0
  = normalizeImportedElements (H := exampleHost)
      (filter (λ v, isObjectEntry v = true) mixedArray) 0 ∧
  (∀ out, (normalizeImportedElements (H := exampleHost) mixedArray 0).1 = Some out →
     Forall is_JObj out) ∧
  (Forall plainEntry mixedArray →
   ∃ out, (normalizeImportedElements (H := exampleHost) mixedArray 0).1 = Some out ∧
     Forall is_JObj out) ∧
  normalizeImportedElements (H := exampleHost)
    ([JNum Num.one; rawCurve [rawPoint 0 0; rawPoint 1 0]]
     ++ JObj unknownEntry :: [JNull; rawCurve [rawPoint 0 0]]) 0
  = (Some ([curveObject (JStr (@uuidv4 exampleHost 0))
              [mkPoint (Num.of_Z 0) (Num.of_Z 0);
               mkPoint (Num.of_Z 1) (Num.of_Z 0)] "blueLine" false]
           ++ JObj unknownEntry :: []), 1) ∧
  normalizeImportedElements (H := exampleHost) [JObj unknownEntry] 0
  = (Some [JObj unknownEntry], 0).
Proof.
  apply (normalizeImportedElements_objects (H := exampleHost) mixedArray
           [JNum Num.one; rawCurve [rawPoint 0 0; rawPoint 1 0]]
           [JNull; rawCurve [rawPoint 0 0]]
           [curveObject (JStr (@uuidv4 exampleHost 0))
              [mkPoint (Num.of_Z 0) (Num.of_Z 0);
               mkPoint (Num.of_Z 1) (Num.of_Z 0)] "blueLine" false]
           [] 0 1 1 unknownEntry);
    first [reflexivity | by vm_compute].
Defined.

(** The array of the examples is made of primitive coordinates. *)
Example mixedArray_plain : Forall plainEntry mixedArray.
Proof. repeat constructor; by intros ps [=]. Qed.

(** Of the mixed array only the object is left. *)
Example normalize_mixedArray :
  (normalizeImportedElements (H := exampleHost) mixedArray 0).1
  = Some [JObj unknownEntry].
Proof. vm_compute. reflexivity. Qed.

(** ** Export and import *)

Lemma or_zero_finite (n : jsnum) : Num.isFinite n = true → Num.or_zero n = n.
Proof.
  destruct n as [q| | |]; try done. intros _. unfold Num.or_zero. simpl.
  destruct (Qc_eqb q 0) eqn:E; [|done]. apply Qc_eqb_eq in E. by subst.
Qed.

Lemma roundtrip_finite (n : jsnum) :
  Num.isFinite n = true → JSON_roundtrip (JNum n) = JNum n.
Proof. intros Hn. simpl. by rewrite Hn. Qed.

Lemma roundtrip_point (p : Point) :
  finitePt p → JSON_roundtrip (Point_toJS p) = Point_toJS p.
Proof.
  intros [Hx Hy]. unfold Point_toJS. simpl.
  rewrite !fmap_insert, fmap_empty, !roundtrip_finite; done.
Qed.

Lemma roundtrip_points (pts : list Point) :
  Forall finitePt pts →
  JSON_roundtrip <$> (Point_toJS <$> pts) = Point_toJS <$> pts.
Proof.
  induction 1 as [|p pts Hp _ IH]; [done|].
  rewrite !fmap_cons, roundtrip_point by done. f_equal. exact IH.
Qed.

Lemma roundtrip_El (el : El) :
  wellFormed el → JSON_roundtrip (El_toJS el) = El_toJS el.
Proof.
  destruct el as [[id x y c av nm]|[id x y]|[id x1 y1 x2 y2 c d]|[id pts c d]];
    simpl.
  - intros [Hx Hy]. destruct av, nm; unfold obj_of; simpl;
      rewrite !fmap_insert, fmap_empty, !roundtrip_finite; done.
  - intros [Hx Hy]. unfold obj_of. simpl.
    rewrite !fmap_insert, fmap_empty, !roundtrip_finite; done.
  - intros (?&?&?&?). unfold obj_of. simpl.
    rewrite !fmap_insert, fmap_empty, !roundtrip_finite; done.
  - intros [_ Hpts]. unfold obj_of. simpl.
    rewrite !fmap_insert, fmap_empty. simpl.
    by rewrite (roundtrip_points pts Hpts).
Qed.

Lemma wf_El_toJS (el : El) : wf_el (El_toJS el).
Proof.
  destruct el as [[id x y c av nm]|[id x y]|a|a].
  - destruct av, nm; by vm_compute.
  - by vm_compute.
  - apply wf_straightObject.
  - apply wf_curveObject.
Qed.

Section Roundtrip.
Context `{Host}.

Lemma coercePoint_toJS (p : Point) :
  finitePt p → coercePoint (Point_toJS p) = Some p.
Proof.
  intros [Hx Hy]. destruct p as [x y]. simpl in *.
  change (coercePoint (Point_toJS (mkPoint x y)))
    with (Some (mkPoint (Num.or_zero x) (Num.or_zero y))).
  by rewrite !or_zero_finite.
Qed.

Lemma coercePoints_toJS (pts : list Point) :
  Forall finitePt pts → mapM coercePoint (Point_toJS <$> pts) = Some pts.
Proof.
  induction 1 as [|p pts Hp _ IH]; [done|].
  rewrite fmap_cons. cbn [mapM]. rewrite coercePoint_toJS by done.
  cbn [mbind option_bind]. by rewrite IH.
Qed.

Lemma filter_finitePoint (pts : list Point) :
  Forall finitePt pts → filter (λ p, finitePoint p = true) pts = pts.
Proof.
  induction 1 as [|p pts Hp _ IH]; [done|].
  rewrite filter_cons, decide_True.
  - f_equal. exact IH.
  - destruct Hp as [Hx Hy]. unfold finitePoint. by rewrite Hx, Hy.
Qed.

Lemma normalizeArrowColor_canonical (c : ArrowColor) :
  normalizeArrowColor (Some (JStr (ArrowColor_str c))) = ArrowColor_str c.
Proof. by destruct c. Qed.

Lemma normalizeEntry_El (el : El) (n : nat) :
  wellFormed el → curveStable el →
  normalizeEntry (El_toJS el) n = Some (Some (El_toJS el), n).
Proof.
  destruct el as [[id x y c av nm]|[id x y]|[id x1 y1 x2 y2 c d]|[id pts c d]];
    simpl.
  - intros _ _. by destruct av, nm.
  - done.
  - intros (H1 & H2 & H3 & H4) _.
    destruct x1, y1, x2, y2; try done. by destruct c.
  - intros [Hlen Hfin] Hst.
    unfold normalizeEntry.
    change (get (curveObject (JStr id) pts (ArrowColor_str c) d) "kind")
      with (Some (JStr "arrow-curve")).
    change (pointList (curveObject (JStr id) pts (ArrowColor_str c) d))
      with (if decide (2 ≤ length (Point_toJS <$> pts))
            then Some (Point_toJS <$> pts) else None).
    rewrite length_fmap, decide_True by done.
    cbn [truthy typeof_object negb orb is_str]. rewrite bool_decide_eq_true_2 by done.
    rewrite (coercePoints_toJS pts Hfin). cbn [mbind option_bind].
    rewrite (filter_finitePoint pts Hfin).
    assert (prunePoints CURVE_POINT_EPSILON pts = pts) as ->.
    { apply prunePoints_fixpoint. destruct Hst; [left; lia | by right]. }
    rewrite decide_False by lia.
    change (get (curveObject (JStr id) pts (ArrowColor_str c) d) "color")
      with (Some (JStr (ArrowColor_str c))).
    change (id_or_fresh (curveObject (JStr id) pts (ArrowColor_str c) d) n)
      with (JStr id, n).
    change (get (curveObject (JStr id) pts (ArrowColor_str c) d) "dashed")
      with (Some (JBool d)).
    by rewrite normalizeArrowColor_canonical.
Qed.

Lemma normalizeMap_El (els : list El) (n : nat) :
  Forall wellFormed els → Forall curveStable els →
  normalizeMap (El_toJS <$> els) n = Some (Some <$> (El_toJS <$> els), n).
Proof.
  intros Hwf. induction Hwf as [|el els Hel _ IH]; [done|].
  intros Hst. apply Forall_cons in Hst as [Hs Hst].
  rewrite fmap_cons. cbn [normalizeMap].
  rewrite (normalizeEntry_El el n Hel Hs). cbn [mbind option_bind].
  rewrite (IH Hst). done.
Qed.

End Roundtrip.

Lemma omap_Some {A} (l : list A) : omap id (Some <$> l) = l.
Proof. induction l as [|x l IH]; [done|]. simpl. by f_equal. Qed.

Lemma exported_wellFormed (els : list El) :
  Forall wellFormed els → exported els = El_toJS <$> els.
Proof.
  unfold exported. induction 1 as [|el els Hel _ IH]; [done|].
  rewrite !fmap_cons, roundtrip_El by done. f_equal. exact IH.
Qed.

Lemma cloneElements_El (els : list El) :
  cloneElements (El_toJS <$> els) = Some (El_toJS <$> els).
Proof.
  apply cloneElements_wf, Forall_fmap, Forall_true. apply wf_El_toJS.
Qed.

(** C1 as stated fails: a curve through (0,0), (0.5,0), (2,0) is
    well-formed, and it comes back from export and import with two
    points. *)
Lemma roundtrip_drops_curve_point :
  Forall wellFormed [backtrackCurve] ∧
  (normalizeImportedElements (H := exampleHost) (exported [backtrackCurve]) 0).1
  ≠ cloneElements (El_toJS <$> [backtrackCurve]).
Proof.
  split.
  - repeat constructor.
  - intros Heq. apply (f_equal onlyCurveLength) in Heq.
    vm_compute in Heq. discriminate Heq.
Qed.

(** C1, amended: for well-formed elements whose curves have two points
    or consecutive points more than the pruning distance apart,
    normalising what was exported gives the clone of the elements, which is
    the element list itself, and draws no identifier. *)
Theorem roundtrip_of_stable_elements `{Host} (els : list El) (n : nat) :
  Forall wellFormed els → Forall curveStable els →
  normalizeImportedElements (exported els) n
  = (cloneElements (El_toJS <$> els), n) ∧
  cloneElements (El_toJS <$> els) = Some (El_toJS <$> els).
Proof.
  intros Hwf Hst. split; [|apply cloneElements_El].
  unfold normalizeImportedElements.
  rewrite (exported_wellFormed els Hwf), (normalizeMap_El els n Hwf Hst).
  by rewrite omap_Some.
Qed.

Lemma stableBoard_wellFormed : Forall wellFormed stableBoard.
Proof. repeat constructor. Qed.

Lemma stableBoard_stable : Forall curveStable stableBoard.
Proof. repeat constructor. Qed.

Lemma roundtrip_of_stable_elements_witness :
  Forall wellFormed stableBoard ∧ Forall curveStable stableBoard ∧
  normalizeImportedElements (H := exampleHost) (exported stableBoard) 0
  = (cloneElements (El_toJS <$> stableBoard), 0) ∧
  cloneElements (El_toJS <$> stableBoard) = Some (El_toJS <$> stableBoard).
Proof.
  split; [exact stableBoard_wellFormed|]. split; [exact stableBoard_stable|].
  apply (roundtrip_of_stable_elements (H := exampleHost) stableBoard 0);
    [exact stableBoard_wellFormed | exact stableBoard_stable].
Defined.


(** ** Scenarios *)

(** An imported curve of two points one unit apart keeps both and is given
    a new identifier. *)
Example import_two_point_curve :
  normalizeImportedElements (H := exampleHost)
    [rawCurve [rawPoint 0 0; rawPoint 1 0]] 0
  = (Some [curveObject (JStr (@uuidv4 exampleHost 0))
             [mkPoint (Num.of_Z 0) (Num.of_Z 0); mkPoint (Num.of_Z 1) (Num.of_Z 0)]
             "blueLine" false], 1).
Proof. vm_compute. reflexivity. Qed.

(** An imported curve of one point is dropped. *)
Example import_one_point_curve :
  normalizeImportedElements (H := exampleHost) [rawCurve [rawPoint 0 0]] 0
  = (Some [], 0).
Proof. vm_compute. reflexivity. Qed.

(** An array among the imported entries passes the guard and is cloned to
    an object of its indices. *)
Example import_array_entry :
  (normalizeImportedElements (H := exampleHost) [JArr [JNum Num.one]] 0).1
  = Some [JObj (<["0" := JNum Num.one]> ∅)].
Proof. vm_compute. reflexivity. Qed.

(** Drawing a curve, dragging it and undoing the drag gives back the
    board with the curve as drawn, points included. *)
Example undo_curve_drag :
  (length ∘ elements) <$> run (H := exampleHost) drawCurve exampleState = Some 10 ∧
  (st1 ← run (H := exampleHost) drawCurve exampleState;
   st2 ← run (H := exampleHost)
           (MoveCurve drawnCurveId (Num.of_Z 5) (Num.of_Z 5)) st1;
   st3 ← undo st2;
   Some (elements st3))
  = (st1 ← run (H := exampleHost) drawCurve exampleState; Some (elements st1)).
Proof. split; vm_compute; reflexivity. Qed.

(** ** Facts about the examples *)

Lemma stableState_sound : sound stableState.
Proof.
  unfold sound, stableState. cbn [elements historyRef isUndoingRef].
  split_and!; [|constructor|done].
  apply Forall_fmap, Forall_true. apply wf_El_toJS.
Qed.

Lemma payloadScale10_usable : ¬ unusablePayload payloadScale10.
Proof.
  intros [Hn|(v & Hv & Hnn & Harr)]; [discriminate Hn|].
  vm_compute in Hv. injection Hv as <-. exact (Harr [] eq_refl).
Qed.

Lemma one_nonzero : Num.one ≠ Num.zero.
Proof.
  intros Heq.
  apply (f_equal (λ n, match n with Fin q => Qc_eqb q 0 | _ => false end)) in Heq.
  vm_compute in Heq. discriminate.
Qed.

(** ** Index keys of spread arrays *)

Lemma pretty_N_char_digit (x : N) : is_digit (pretty_N_char x) = true.
Proof. unfold pretty_N_char. by repeat case_match. Qed.

Lemma pretty_N_go_digit (x : N) (s : string) :
  (0 < x)%N ∨ starts_with_digit s = true →
  starts_with_digit (pretty_N_go x s) = true.
Proof.
  revert s. induction (N.lt_wf_0 x) as [x _ IH]; intros s Hs.
  assert (x = 0 ∨ 0 < x)%N as [->|Hx] by lia.
  - rewrite pretty_N_go_0. destruct Hs; [lia | done].
  - rewrite pretty_N_go_step by done. apply IH.
    + by apply N.div_lt.
    + right. simpl. apply pretty_N_char_digit.
Qed.

Lemma index_key_digit (i : nat) : starts_with_digit (index_key i) = true.
Proof.
  unfold index_key, pretty, pretty_nat, pretty, pretty_N.
  case_decide; [done|]. apply pretty_N_go_digit. lia.
Qed.

Lemma indexed_lookup {A} (f : A → jsval) (l : list A) (k : string) :
  starts_with_digit k = false →
  (list_to_map (imap (λ i x, (index_key i, f x)) l) : gmap string jsval) !! k = None.
Proof.
  intros Hk. apply not_elem_of_list_to_map_1. intros Hin.
  apply list_elem_of_fmap in Hin as ([k' v] & -> & Hin).
  apply list_elem_of_lookup in Hin as [i Hi].
  rewrite list_lookup_imap in Hi.
  destruct (l !! i); simplify_eq/=.
  by rewrite index_key_digit in Hk.
Qed.


(** ** What cloning returns *)

Lemma clonePoint_output (p q : jsval) : clonePoint p = Some q → wf_point q.
Proof.
  destruct p; simpl; intros [= <-]; intros k Hx Hy; unfold obj_of; simpl;
    repeat case_match; by simplify_map_eq.
Qed.

Lemma clonePoints_output (ps qs : list jsval) :
  mapM clonePoint ps = Some qs → Forall wf_point qs.
Proof.
  intros Hm. apply mapM_Some_1 in Hm.
  induction Hm as [|p q ps qs Hp _ IH]; constructor; [|done].
  by eapply clonePoint_output.
Qed.

Lemma cloneElement_output (e e' : jsval) : cloneElement e = Some e' → wf_el e'.
Proof.
  unfold cloneElement. destruct e as [| | |s|l|o]; try done;
    try (intros [= <-]; simpl; by rewrite ?indexed_lookup by done).
  simpl. destruct (is_str (o !! "kind") "arrow-curve") eqn:Hk.
  - destruct (o !! "points") as [[| | | |ps|]|]; try done.
    destruct (mapM clonePoint ps) as [pts|] eqn:Hm; [|done].
    intros [= <-]. simpl. rewrite lookup_insert_ne, Hk by done.
    rewrite lookup_insert_eq. by eapply clonePoints_output.
  - intros [= <-]. simpl. by rewrite Hk.
Qed.

Lemma cloneElements_output (els out : list jsval) :
  cloneElements els = Some out → Forall wf_el out ∧ length out = length els.
Proof.
  intros Hm. apply mapM_Some_1 in Hm. split.
  - induction Hm as [|e e' els out He _ IH]; constructor; [|done].
    by eapply cloneElement_output.
  - symmetry. by eapply Forall2_length.
Qed.

Lemma cloneElements_stable (els out : list jsval) :
  cloneElements els = Some out → cloneElements out = Some out.
Proof.
  intros Hc. apply cloneElements_wf. by eapply cloneElements_output.
Qed.

(** Cloning what cloning returned gives it back: a clone is made of plain
    objects, and a cloned curve of point objects with [x] and [y] only. It
    has as many elements as the array it was made from. *)
Theorem cloneElements_of_clone (els out : list jsval) :
  cloneElements els = Some out →
  cloneElements out = Some out ∧ length out = length els ∧
  Forall is_JObj out.
Proof.
  intros Hc. destruct (cloneElements_output els out Hc) as [Hwf Hlen].
  split_and!; [by apply cloneElements_wf | done |].
  eapply Forall_impl; [exact Hwf|]. by intros [].
Qed.

Lemma cloneElements_of_clone_witness :
  ∃ out, cloneElements (elements exampleState) = Some out ∧
    cloneElements out = Some out ∧ length out = length (elements exampleState) ∧
    Forall is_JObj out.
Proof.
  destruct (cloneElements (elements exampleState)) as [out|] eqn:E.
  - exists out. split; [reflexivity|].
    exact (cloneElements_of_clone (elements exampleState) out E).
  - vm_compute in E. discriminate E.
Defined.

(** ** What normalisation returns *)

Lemma normalizeArrowColor_range (color : option jsval) :
  canonicalColor (Some (JStr (normalizeArrowColor color))).
Proof.
  unfold normalizeArrowColor, canonicalColor.
  repeat (case_match; [by eauto|]); by eauto.
Qed.



Lemma sampleCubicPoints_length (p0 c1 c2 p3 : Point) (segments : nat) :
  length (sampleCubicPoints p0 c1 c2 p3 segments) = S segments.
Proof. unfold sampleCubicPoints. by rewrite length_fmap, length_seq. Qed.


Section Sanitise.
Context `{Host}.







End Sanitise.



(** A straight arrow whose first coordinate has no primitive value makes
    the normaliser throw, whatever the other entries are. *)
Example normalize_unconvertible :
  (normalizeImportedElements (H := exampleHost) [rawPlayer; rawUnconvertible] 0).1
  = None.
Proof. vm_compute. reflexivity. Qed.

(** Of the nine entries of every sort five are kept, and two identifiers
    are drawn. *)
Example normalize_rawJunk :
  (length <$> (normalizeImportedElements (H := exampleHost) rawJunk 0).1,
   (normalizeImportedElements (H := exampleHost) rawJunk 0).2) = (Some 5, 2).
Proof. vm_compute. reflexivity. Qed.

(** ** Soundness of the reachable states *)

Lemma wf_el_same_shape (o o' : gmap string jsval) :
  wf_el (JObj o) → o' !! "kind" = o !! "kind" → o' !! "points" = o !! "points" →
  wf_el (JObj o').
Proof. unfold wf_el. by intros Hwf -> ->. Qed.

Lemma on_id_wf (id : string) (f : jsval → option jsval) (els next : list jsval) :
  (∀ e e', wf_el e → f e = Some e' → wf_el e') →
  Forall wf_el els → mapM (on_id id f) els = Some next → Forall wf_el next.
Proof.
  intros Hf Hwf Hm. apply mapM_Some_1 in Hm.
  induction Hm as [|e e' els next He _ IH];
    [constructor | apply Forall_cons in Hwf as [Hw Hwf]].
  constructor; [|by apply IH].
  unfold on_id in He. destruct e; try done.
  destruct (is_str _ id); [by eapply Hf | by simplify_eq].
Qed.

Lemma mapById_wf (id : string) (f : jsval → option jsval) (els : list jsval)
    (u : Updated) :
  (∀ e e', wf_el e → f e = Some e' → wf_el e') →
  Forall wf_el els → mapById id f els = Some u →
  ∃ next, u = Fresh next ∧ Forall wf_el next.
Proof.
  intros Hf Hwf. unfold mapById.
  destruct (mapM (on_id id f) els) as [next|] eqn:Hm; intros; simplify_eq/=.
  exists next. split; [done|]. by eapply on_id_wf.
Qed.

Lemma withXY_wf (x y : jsnum) (e e' : jsval) :
  wf_el e → withXY x y e = Some e' → wf_el e'.
Proof.
  destruct e as [| | | | |o]; try done. intros Hwf [= <-]. simpl.
  eapply wf_el_same_shape; [done|..]; by rewrite !lookup_insert_ne.
Qed.

Lemma shiftPoint_output `{Host} (dx dy : jsnum) (p q : jsval) :
  shiftPoint dx dy p = Some q → wf_point q.
Proof.
  unfold shiftPoint. destruct p; try done;
    match goal with
    | |- context [plus (get ?v "x") dx] =>
        destruct (plus (get v "x") dx), (plus (get v "y") dy)
    end; simpl; try done;
    intros [= <-]; intros k Hx Hy; by simplify_map_eq.
Qed.

Lemma shiftPoints_output `{Host} (dx dy : jsnum) (ps qs : list jsval) :
  mapM (shiftPoint dx dy) ps = Some qs → Forall wf_point qs.
Proof.
  intros Hm. apply mapM_Some_1 in Hm.
  induction Hm as [|p q ps qs Hp _ IH]; constructor; [|done].
  by eapply shiftPoint_output.
Qed.

Section Sound.
Context `{Host}.

(** The updater of a typed mutation returns a new array of well-formed
    elements, whenever it returns. *)
Lemma updater_wf (m : Mutation) (upd : Updater) (els : list jsval) (u : Updated) :
  mapUpdater m = Some upd → typed m → Forall wf_el els → upd els = Some u →
  ∃ next, u = Fresh next ∧ Forall wf_el next.
Proof.
  intros Hm Ht Hwf Hu. destruct m; simplify_eq/=.
  - eapply mapById_wf; [|done..]. apply withXY_wf.
  - eapply mapById_wf; [|done..]. apply withXY_wf.
  - eapply mapById_wf; [|done..].
    intros [| | | | |o] e' Hw; try done. simpl.
    destruct (plus (o !! "x1") dx); simpl; [|done].
    destruct (plus (o !! "y1") dy); simpl; [|done].
    destruct (plus (o !! "x2") dx); simpl; [|done].
    destruct (plus (o !! "y2") dy); simpl; [|done].
    intros [= <-].
    eapply wf_el_same_shape; [done|..]; by rewrite !lookup_insert_ne.
  - eapply mapById_wf; [|done..].
    intros [| | | | |o] e' Hw; try done. simpl.
    destruct (o !! "points") as [[| | | |ps|]|] eqn:Hp; try done.
    destruct (mapM (shiftPoint dx dy) ps) as [pts|] eqn:Hs; [|done].
    intros [= <-]. unfold wf_el.
    rewrite lookup_insert_ne, lookup_insert_eq by done.
    destruct (is_str _ _); [|done]. by eapply shiftPoints_output.
  - destruct Ht as [Hk Hp]. eapply mapById_wf; [|done..].
    intros [| | | | |o] e' Hw [= <-]; try done. simpl.
    eapply wf_el_same_shape; [done|..]; by apply lookup_union_r.
Qed.

Lemma created_wf (el : gmap string jsval) (kind : string) (id : jsval) :
  el !! "kind" = None → kind ≠ "arrow-curve" →
  wf_el (JObj (el ∪ <["id" := id]> (<["kind" := JStr kind]> ∅))).
Proof.
  intros Hk Hne. unfold wf_el.
  rewrite lookup_union_r, lookup_insert_ne, lookup_insert_eq by done.
  simpl. by rewrite bool_decide_eq_false_2.
Qed.

(** What a mutation that returns has done to the elements, once it is
    seen as an update of a state with the same elements and history. *)
Lemma run_updates (m : Mutation) (st st1 : State) :
  typed m → effective m → Forall wf_el (elements st) →
  (∀ next, m ≠ ReplaceElements next) →
  run m st = Some st1 →
  ∃ updater next st0,
    applyElementsUpdate updater st0 = Some st1 ∧
    elements st0 = elements st ∧ historyRef st0 = historyRef st ∧
    isUndoingRef st0 = isUndoingRef st ∧
    updater (elements st0) = Some (Fresh next) ∧ Forall wf_el next.
Proof.
  intros Ht He Hwf Hnr Hrun.
  destruct (mapUpdater m) as [upd|] eqn:Hm.
  - rewrite (mapUpdater_run m upd st Hm) in Hrun.
    destruct (upd (elements st)) as [u|] eqn:Hu;
      [|by unfold applyElementsUpdate in Hrun; rewrite Hu in Hrun].
    destruct (updater_wf m upd _ u Hm Ht Hwf Hu) as (next & -> & Hn).
    by exists upd, next, st.
  - destruct m; simplify_eq/=.
    + destruct Ht as [Hk Hne]. unfold spawnAt in Hrun.
      eexists _, _, _. split; [exact Hrun|]. split_and!; try done.
      apply Forall_app. split; [done|]. constructor; [|constructor].
      by apply created_wf.
    + unfold commitStraight in Hrun.
      eexists _, _, _. split; [exact Hrun|]. split_and!; try done.
      apply Forall_app. split; [done|]. constructor; [|constructor].
      apply wf_straightObject.
    + unfold commitCurve in Hrun. destruct pts as [|p pts]; [done|].
      pose proof (commitCurve_points (p :: pts) world He).
      cbv zeta in Hrun.
      match type of Hrun with
      | context [decide (?a < 2)] => destruct (decide (a < 2)); [lia|]
      end.
      eexists _, _, _. split; [exact Hrun|]. split_and!; try done.
      apply Forall_app. split; [done|]. constructor; [|constructor].
      apply wf_curveObject.
    + unfold deleteElement in Hrun.
      eexists _, (filter (other_id id) (elements st)), _.
      split; [exact Hrun|]. split_and!; try done.
      * by apply deleteUpdater_total.
      * apply Forall_forall. intros e Hin.
        apply list_elem_of_filter in Hin as [_ Hin].
        by eapply Forall_forall in Hwf.
    + by destruct (Hnr next).
Qed.

Lemma pushHistory_sound (st st1 : State) :
  sound st → pushHistory (elements st) st = Some st1 →
  historyRef st1 = pushed (historyRef st) (elements st) ∧
  Forall (Forall wf_el) (historyRef st1) ∧
  elements st1 = elements st ∧ isUndoingRef st1 = false ∧
  selectedId st1 = selectedId st ∧ camera st1 = camera st.
Proof.
  intros (Hwf & Hh & Hu) Hp.
  rewrite (pushHistory_spec _ _ _ (cloneElements_wf _ Hwf)) in Hp.
  injection Hp as <-. simpl. unfold pushed. split_and!; try done.
  assert (Forall (Forall wf_el) (historyRef st ++ [elements st])) as Hall.
  { apply Forall_app. split; [done|]. by constructor. }
  case_decide; [|done]. by apply Forall_drop.
Qed.

Lemma applyElementsUpdate_sound (updater : Updater) (next : list jsval)
    (st st1 : State) :
  sound st → updater (elements st) = Some (Fresh next) → Forall wf_el next →
  applyElementsUpdate updater st = Some st1 →
  sound st1 ∧ elements st1 = next ∧
  historyRef st1 = pushed (historyRef st) (elements st) ∧
  selectedId st1 = selectedId st ∧ camera st1 = camera st.
Proof.
  intros Hs Hupd Hn. unfold applyElementsUpdate. rewrite Hupd. simpl.
  destruct Hs as (Hwf & Hh & Hu). rewrite Hu.
  destruct (pushHistory (elements st) st) as [st'|] eqn:Hp; [|done].
  intros [= <-].
  destruct (pushHistory_sound st st') as (Hh' & Hall & He & Hu' & Hsel & Hcam);
    [done..|].
  unfold sound. simpl. by split_and!.
Qed.

Lemma replaceElements_sound (next : list jsval) (st st1 : State) :
  sound st → replaceElements next st = Some st1 →
  sound st1 ∧ cloneElements next = Some (elements st1) ∧
  historyRef st1 = pushed (historyRef st) (elements st) ∧
  selectedId st1 = None ∧ camera st1 = camera st.
Proof.
  intros Hs. unfold replaceElements.
  pose proof Hs as (Hwf & Hh & Hu). rewrite Hu.
  destruct (pushHistory (elements st) st) as [st'|] eqn:Hp; [|done].
  destruct (pushHistory_sound st st') as (Hh' & Hall & He & Hu' & Hsel & Hcam);
    [done..|].
  simpl. destruct (cloneElements next) as [cloned|] eqn:Hc; [|done].
  intros [= <-]. destruct (cloneElements_output _ _ Hc) as [Hw _].
  unfold sound. simpl. by split_and!.
Qed.

Lemma run_sound (m : Mutation) (st st1 : State) :
  typed m → sound st → run m st = Some st1 → sound st1.
Proof.
  intros Ht Hs Hrun.
  assert (effective m ∨ ¬ effective m) as [He|He].
  { destruct m; simpl; try by left. destruct pts; [right; intros Hn; by apply Hn | by left]. }
  - assert ((∃ next, m = ReplaceElements next) ∨ ∀ next, m ≠ ReplaceElements next)
      as [[next ->]|Hnr] by (destruct m; eauto).
    + exact (proj1 (replaceElements_sound next st st1 Hs Hrun)).
    + destruct (run_updates m st st1 Ht He (proj1 Hs) Hnr Hrun)
        as (upd & next & st0 & Ha & H1 & H2 & H3 & Hupd & Hn).
      refine (proj1 (applyElementsUpdate_sound upd next st0 st1 _ Hupd Hn Ha)).
      destruct Hs as (?&?&?). unfold sound. by rewrite H1, H2, H3.
  - destruct m; simpl in He; try (exfalso; by apply He).
    destruct pts; [|exfalso; by apply He].
    simpl in Hrun. by simplify_eq.
Qed.

Lemma undo_sound (st st1 : State) : sound st → undo st = Some st1 → sound st1.
Proof.
  intros (Hwf & Hh & Hu). unfold undo.
  destruct (last (historyRef st)) as [snapshot|] eqn:Hl; [|by intros [= <-]].
  destruct (cloneElements snapshot) as [cloned|] eqn:Hc; [|done].
  intros [= <-]. destruct (cloneElements_output _ _ Hc) as [Hw _].
  unfold sound. simpl. split_and!; [done | by apply Forall_take | done].
Qed.

Lemma importLoad_sound (importText : string) (st : State) :
  sound st → sound (importLoad importText st).
Proof.
  intros Hs. unfold importLoad.
  destruct (importBody importText st) as [st'|] eqn:Hi; [|done].
  unfold importBody in Hi.
  destruct (JSON_parse importText) as [parsed|]; simplify_eq/=.
  destruct (importedElements parsed) as [raw|]; simplify_eq/=.
  destruct (normalizeImportedElements raw (uuidCount st)) as [[normalized|] n];
    simplify_eq/=.
  destruct (replaceElements normalized (set_uuidCount n st)) as [st1|] eqn:Hr;
    simplify_eq/=.
  exact (proj1 (replaceElements_sound normalized (set_uuidCount n st) st1 Hs Hr)).
Qed.

Lemma step_sound (a : Action) (st st1 : State) :
  typedAction a → sound st → step a st = Some st1 → sound st1.
Proof.
  intros Ht Hs Hstep. destruct a; simpl in *.
  - by eapply run_sound.
  - by eapply undo_sound.
  - simplify_eq. by apply importLoad_sound.
  - unfold handleWheel in Hstep. destruct pointer; simplify_eq/=; [|done].
    destruct (ToNumber _); simplify_eq/=.
    by destruct (asCamera _); simplify_eq/=.
  - unfold handleDigitKey in Hstep.
    destruct (scaleShortcut key); simplify_eq/=; [|done].
    by destruct (asCamera _); simplify_eq/=.
Qed.

Lemma initialState_sound (viewport : Viewport) : sound (initialState viewport).
Proof.
  unfold sound, initialState. cbn [elements historyRef isUndoingRef].
  split_and!; [|constructor|done].
  apply Forall_fmap, Forall_true. apply wf_El_toJS.
Qed.

End Sound.

(** Along every trace of typed actions from the initial board, whatever
    was imported on the way, the elements and all the snapshots of the
    history are well-formed (plain objects, curves with arrays of point
    objects), and the undo flag is down. *)
Theorem reachable_states_sound `{Host} (acts : list Action) (viewport : Viewport)
    (st : State) :
  Forall typedAction acts →
  run_actions acts (initialState viewport) = Some st → sound st.
Proof.
  intros Ht. generalize (initialState_sound viewport).
  generalize (initialState viewport) as st0.
  induction Ht as [|a acts Ha _ IH]; intros st0 Hs Hrun; simplify_eq/=; [done|].
  destruct (step a st0) as [st1|] eqn:Hstep; simplify_eq/=.
  eapply IH; [|done]. by eapply step_sound.
Qed.

Lemma reachable_states_sound_witness :
  ∃ st,
    Forall typedAction ((Mutate <$> editTrace) ++ [Undo; Load textScale10]) ∧
    run_actions (H := exampleHost)
      ((Mutate <$> editTrace) ++ [Undo; Load textScale10])
      (initialState (H := exampleHost) exampleViewport) = Some st ∧
    sound st.
Proof.
  assert (Forall typedAction ((Mutate <$> editTrace) ++ [Undo; Load textScale10]))
    as Ht.
  { unfold editTrace. cbn [fmap list_fmap app].
    repeat (constructor; [by vm_compute|]). constructor. }
  destruct (run_actions (H := exampleHost)
              ((Mutate <$> editTrace) ++ [Undo; Load textScale10])
              (initialState (H := exampleHost) exampleViewport)) as [st|] eqn:E.
  - exists st. split; [exact Ht|]. split; [reflexivity|].
    exact (reachable_states_sound (H := exampleHost) _ _ st Ht E).
  - vm_compute in E. discriminate E.
Defined.

(** ** The history as a stack *)

Lemma pushed_pop (h : list (list jsval)) (e : list jsval) :
  last (pushed h e) = Some e ∧
  take (pred (length (pushed h e))) (pushed h e)
  = if decide (length h < HISTORY_LIMIT) then h else drop 1 h.
Proof.
  unfold pushed. rewrite length_app. simpl.
  destruct (decide (HISTORY_LIMIT < length h + 1)) as [Hfull|Hroom].
  - rewrite decide_False by lia.
    destruct h as [|s h]; [unfold HISTORY_LIMIT in *; simpl in *; lia|].
    simpl. rewrite drop_0. split; [apply last_snoc|].
    rewrite length_app. simpl. rewrite Nat.add_1_r. simpl.
    by rewrite take_app_length.
  - rewrite decide_True by lia. split; [apply last_snoc|].
    rewrite length_app. simpl. rewrite Nat.add_1_r. simpl.
    by rewrite take_app_length.
Qed.

Lemma run_actions_app `{Host} (acts1 acts2 : list Action) (st : State) :
  run_actions (acts1 ++ acts2) st = run_actions acts1 st ≫= run_actions acts2.
Proof.
  revert st. induction acts1 as [|a acts1 IH]; intros st; simpl; [done|].
  destruct (step a st); simpl; [apply IH | done].
Qed.

Section Stack.
Context `{Host}.

Lemma run_history (m : Mutation) (st st1 : State) :
  typed m → effective m → sound st → run m st = Some st1 →
  sound st1 ∧ historyRef st1 = pushed (historyRef st) (elements st).
Proof.
  intros Ht He Hs Hrun.
  assert ((∃ next, m = ReplaceElements next) ∨ ∀ next, m ≠ ReplaceElements next)
    as [[next ->]|Hnr] by (destruct m; eauto).
  - destruct (replaceElements_sound next st st1 Hs Hrun) as (?&?&?&?&?). done.
  - destruct (run_updates m st st1 Ht He (proj1 Hs) Hnr Hrun)
      as (upd & next & st0 & Ha & H1 & H2 & H3 & Hupd & Hn).
    assert (sound st0) as Hs0.
    { destruct Hs as (?&?&?). unfold sound. by rewrite H1, H2, H3. }
    destruct (applyElementsUpdate_sound upd next st0 st1 Hs0 Hupd Hn Ha)
      as (? & ? & Hh & ? & Hcam).
    split; [done | by rewrite Hh, H1, H2].
Qed.

Lemma undo_pushed (h : list (list jsval)) (e : list jsval) (st1 : State) :
  Forall wf_el e → historyRef st1 = pushed h e →
  ∃ st2, undo st1 = Some st2 ∧ elements st2 = e ∧
    historyRef st2 = (if decide (length h < HISTORY_LIMIT) then h else drop 1 h) ∧
    selectedId st2 = selectedId st1 ∧ camera st2 = camera st1.
Proof.
  intros Hwf Hh. destruct (pushed_pop h e) as [Hlast Htake].
  unfold undo. rewrite Hh, Hlast, (cloneElements_wf _ Hwf). simpl.
  eexists. split; [done|]. simpl. by rewrite Htake.
Qed.

End Stack.

(** A mutation followed by [undo] gives back the elements, and the history
    too when it was not full; on a full history the oldest snapshot is
    gone for good.  The selection and the camera are as the mutation left
    them. *)
Theorem undo_reverts_history `{Host} (m : Mutation) (st st1 : State) :
  typed m → effective m → sound st → run m st = Some st1 →
  ∃ st2, undo st1 = Some st2 ∧ elements st2 = elements st ∧
    historyRef st2
    = (if decide (length (historyRef st) < HISTORY_LIMIT) then historyRef st
       else drop 1 (historyRef st)) ∧
    selectedId st2 = selectedId st1 ∧ camera st2 = camera st1.
Proof.
  intros Ht He Hs Hrun.
  destruct (run_history m st st1 Ht He Hs Hrun) as [_ Hh].
  by apply undo_pushed; [apply Hs|].
Qed.

Lemma undo_reverts_history_witness :
  ∃ st1, run (H := exampleHost) drawCurve exampleState = Some st1 ∧
    ∃ st2, undo st1 = Some st2 ∧ elements st2 = elements exampleState ∧
      historyRef st2
      = (if decide (length (historyRef exampleState) < HISTORY_LIMIT)
         then historyRef exampleState else drop 1 (historyRef exampleState)) ∧
      selectedId st2 = selectedId st1 ∧ camera st2 = camera st1.
Proof.
  destruct (run (H := exampleHost) drawCurve exampleState) as [st1|] eqn:E.
  - exists st1. split; [reflexivity|].
    apply (undo_reverts_history (H := exampleHost) drawCurve exampleState st1);
      [exact I | by vm_compute | apply initialState_sound | exact E].
  - vm_compute in E. discriminate E.
Defined.

(** Any number of mutations that fit in the history, followed by as many
    undos, give back the elements and the history of the start. *)
Theorem undo_all_reverts `{Host} (ms : list Mutation) (st st1 : State) :
  Forall typed ms → Forall effective ms → sound st →
  length (historyRef st) + length ms ≤ HISTORY_LIMIT →
  run_actions (Mutate <$> ms) st = Some st1 →
  ∃ st2, run_actions (replicate (length ms) Undo) st1 = Some st2 ∧
    elements st2 = elements st ∧ historyRef st2 = historyRef st.
Proof.
  intros Ht. revert st. induction Ht as [|m ms Hm _ IH]; intros st He Hs Hlen Hrun.
  { simpl in *. simplify_eq. by exists st1. }
  apply Forall_cons in He as [Hem He]. rewrite fmap_cons in Hrun.
  cbn [run_actions step] in Hrun.
  destruct (run m st) as [sta|] eqn:Hr; [|done]. simpl in Hrun.
  destruct (run_history m st sta Hm Hem Hs Hr) as [Hsa Hh].
  assert (historyRef sta = historyRef st ++ [elements st]) as Hh'.
  { rewrite Hh. unfold pushed. rewrite decide_False; [done|].
    rewrite length_app. simpl in *. lia. }
  destruct (IH sta He Hsa) as (stb & Hundo & Hel & Hhb); [|done|].
  { rewrite Hh', length_app. simpl in *. lia. }
  change (length (m :: ms)) with (S (length ms)).
  rewrite replicate_S_end, run_actions_app, Hundo. simpl.
  unfold undo. rewrite Hhb, Hh', last_snoc.
  rewrite (cloneElements_wf _ (proj1 Hs)). simpl.
  eexists. split; [done|]. simpl. split; [done|].
  rewrite length_app. simpl. rewrite Nat.add_1_r. simpl.
  by rewrite take_app_length.
Qed.

Lemma undo_all_reverts_witness :
  ∃ st1, run_actions (H := exampleHost) (Mutate <$> editTrace) exampleState
         = Some st1 ∧
    ∃ st2, run_actions (H := exampleHost) (replicate (length editTrace) Undo) st1
           = Some st2 ∧
      elements st2 = elements exampleState ∧
      historyRef st2 = historyRef exampleState.
Proof.
  destruct (run_actions (H := exampleHost) (Mutate <$> editTrace) exampleState)
    as [st1|] eqn:E.
  - exists st1. split; [reflexivity|].
    apply (undo_all_reverts (H := exampleHost) editTrace exampleState st1);
      [ unfold editTrace; repeat (constructor; [by vm_compute|]); constructor
      | unfold editTrace; repeat (constructor; [by vm_compute|]); constructor
      | apply initialState_sound
      | vm_compute; lia
      | exact E ].
  - vm_compute in E. discriminate E.
Defined.

(** Deleting the selected element removes every element with its
    identifier and clears the selection; [undo] brings the elements back
    and leaves the selection empty. *)
Theorem delete_selected_then_undo `{Host} (id : string) (st : State) :
  sound st → selectedId st = Some id →
  ∃ st1 st2, deleteElement id st = Some st1 ∧
    Forall (other_id id) (elements st1) ∧ selectedId st1 = None ∧
    undo st1 = Some st2 ∧ elements st2 = elements st ∧ selectedId st2 = None.
Proof.
  intros Hs Hsel. pose proof Hs as (Hwf & Hh & Hu).
  unfold deleteElement. rewrite Hsel, bool_decide_eq_true_2 by done.
  assert (sound (set_selectedId None st)) as Hs0 by done.
  assert (Forall wf_el (filter (other_id id) (elements st))) as Hn.
  { apply Forall_forall. intros e Hin.
    apply list_elem_of_filter in Hin as [_ Hin]. by eapply Forall_forall in Hwf. }
  destruct (applyElementsUpdate_elements (deleteUpdater id)
              (filter (other_id id) (elements st)) (set_selectedId None st))
    as (st1 & Hrun & Hel); [done | by apply deleteUpdater_total |].
  destruct (applyElementsUpdate_sound (deleteUpdater id) _ _ st1 Hs0
              (deleteUpdater_total id _ Hwf) Hn Hrun) as (_ & _ & Hh1 & Hsel1 & _).
  destruct (undo_pushed (historyRef st) (elements st) st1 Hwf Hh1)
    as (st2 & Hundo & He2 & _ & Hsel2 & _).
  exists st1, st2. split_and!; try done.
  - rewrite Hel. apply Forall_forall. intros e Hin.
    by apply list_elem_of_filter in Hin as [? _].
  - by rewrite Hsel2, Hsel1.
Qed.

Lemma delete_selected_then_undo_witness :
  ∃ st1 st2,
    deleteElement "p1" stableState = Some st1 ∧
    Forall (other_id "p1") (elements st1) ∧ selectedId st1 = None ∧
    undo st1 = Some st2 ∧ elements st2 = elements stableState ∧
    selectedId st2 = None.
Proof.
  apply (delete_selected_then_undo (H := exampleHost) "p1" stableState);
    [exact stableState_sound | reflexivity].
Defined.

(** ** The Load handler *)

Lemma importedElements_None (parsed : jsval) :
  importedElements parsed = None ↔ unusablePayload parsed.
Proof.
  unfold importedElements, unusablePayload. split.
  - destruct parsed as [| | | | |o]; try (by left); try done.
    simpl. destruct (o !! "elements") as [[| | | | |]|] eqn:E; try done;
      intros _; right; eexists; (split; [done|]); by split.
  - intros [->|(v & Hv & Hnn & Harr)]; [done|].
    destruct parsed; try done. rewrite Hv.
    destruct v; try done. by destruct (Harr l).
Qed.

Section Load.
Context `{Host}.

Lemma normalize_clonable (raw out : list jsval) (n : nat) :
  (normalizeImportedElements raw n).1 = Some out →
  cloneElements out = Some out.
Proof.
  unfold normalizeImportedElements.
  destruct (normalizeMap raw n) as [[mapped n']|] eqn:Hm; simpl; [|done].
  intros Hout. by eapply cloneElements_stable.
Qed.

Lemma importLoad_success (importText : string) (parsed : jsval)
    (raw out : list jsval) (st : State) :
  sound st → JSON_parse importText = Some parsed →
  importedElements parsed = Some raw →
  (normalizeImportedElements raw (uuidCount st)).1 = Some out →
  elements (importLoad importText st) = out ∧
  historyRef (importLoad importText st) = pushed (historyRef st) (elements st) ∧
  selectedId (importLoad importText st) = None ∧
  importDialogOpen (importLoad importText st) = false ∧
  camera (importLoad importText st) = importedCamera parsed ∧
  alerts (importLoad importText st) = alerts st.
Proof.
  intros Hs Hp Hraw Hout.
  pose proof (normalize_clonable raw out _ Hout) as Hcl.
  unfold importLoad, importBody. rewrite Hp. simpl. rewrite Hraw. simpl.
  destruct (normalizeImportedElements raw (uuidCount st)) as [normalized n].
  simpl in Hout. subst normalized. simpl.
  unfold replaceElements. destruct Hs as (Hwf & Hh & Hu). cbn [isUndoingRef set_uuidCount].
  rewrite Hu. cbn [elements set_uuidCount].
  rewrite (pushHistory_spec _ _ _ (cloneElements_wf _ Hwf)). simpl.
  rewrite Hcl. simpl. done.
Qed.

Lemma importLoad_throws (importText : string) (parsed : jsval)
    (raw : list jsval) (st : State) :
  JSON_parse importText = Some parsed → importedElements parsed = Some raw →
  (normalizeImportedElements raw (uuidCount st)).1 = None →
  importLoad importText st = alert "Invalid JSON" st.
Proof.
  intros Hp Hraw Hnone.
  unfold importLoad, importBody. rewrite Hp. simpl. rewrite Hraw. simpl.
  destruct (normalizeImportedElements raw (uuidCount st)) as [normalized n].
  simpl in Hnone. by subst normalized.
Qed.

(** A Load that goes through raises no alert. *)
Lemma importLoad_silent (st st' : State) :
  alerts st' = alerts st → st' ≠ alert "Invalid JSON" st.
Proof.
  intros Hal ->. simpl in Hal.
  apply (f_equal length) in Hal. rewrite length_app in Hal. simpl in Hal. lia.
Qed.

End Load.

(** The Load handler goes through whenever the text parses to a payload
    whose [elements] is an array (or is absent) on which the normaliser
    does not throw: the normalised elements replace the elements, the
    elements in place go on the history, the selection is cleared, the
    dialog closed, the camera of the payload (or the default one)
    installed as it is, and nothing is reported. *)
Theorem importLoad_replaces `{Host} (importText : string) (parsed : jsval)
    (raw : list jsval) (st : State) :
  sound st → JSON_parse importText = Some parsed →
  importedElements parsed = Some raw → ¬ Exists throwsOn raw →
  ∃ out, (normalizeImportedElements raw (uuidCount st)).1 = Some out ∧
    elements (importLoad importText st) = out ∧
    historyRef (importLoad importText st) = pushed (historyRef st) (elements st) ∧
    selectedId (importLoad importText st) = None ∧
    importDialogOpen (importLoad importText st) = false ∧
    camera (importLoad importText st) = importedCamera parsed ∧
    alerts (importLoad importText st) = alerts st.
Proof.
  intros Hs Hp Hraw Hok.
  destruct (normalizeImportedElements raw (uuidCount st)).1 as [out|] eqn:Hout;
    [|by apply normalizeImportedElements_throws in Hout].
  exists out. split; [done|].
  exact (importLoad_success importText parsed raw out st Hs Hp Hraw Hout).
Qed.

Lemma importLoad_replaces_witness :
  JSON_parse (Host := exampleHost) textScale10 = Some payloadScale10 ∧
  importedElements payloadScale10 = Some [] ∧
  ∃ out,
    (normalizeImportedElements (H := exampleHost) [] (uuidCount exampleState)).1
    = Some out ∧
    elements (importLoad (H := exampleHost) textScale10 exampleState) = out ∧
    historyRef (importLoad (H := exampleHost) textScale10 exampleState)
    = pushed (historyRef exampleState) (elements exampleState) ∧
    selectedId (importLoad (H := exampleHost) textScale10 exampleState) = None ∧
    importDialogOpen (importLoad (H := exampleHost) textScale10 exampleState)
    = false ∧
    camera (importLoad (H := exampleHost) textScale10 exampleState)
    = importedCamera payloadScale10 ∧
    alerts (importLoad (H := exampleHost) textScale10 exampleState)
    = alerts exampleState.
Proof.
  split; [reflexivity|]. split; [reflexivity|].
  apply (importLoad_replaces (H := exampleHost) textScale10 payloadScale10 []
           exampleState);
    [ apply initialState_sound | reflexivity | reflexivity
    | intros Hex; inversion Hex ].
Defined.

(** The Load handler reports "Invalid JSON" and changes nothing else
    exactly when the text does not parse, or parses to an unusable payload,
    or to elements on which the normaliser throws: a text that is valid
    JSON is reported as invalid when it is [null], when its [elements] is
    not an array, or when an arrow among them has a coordinate that cannot
    be converted to a number. *)
Theorem importLoad_alerts_iff `{Host} (importText : string) (st : State) :
  sound st →
  importLoad importText st = alert "Invalid JSON" st ↔
  JSON_parse importText = None ∨
  ∃ parsed, JSON_parse importText = Some parsed ∧
    (unusablePayload parsed ∨
     ∃ raw, importedElements parsed = Some raw ∧ Exists throwsOn raw).
Proof.
  intros Hs. split.
  - intros Ha. destruct (JSON_parse importText) as [parsed|] eqn:Hp; [|by left].
    right. exists parsed. split; [done|].
    destruct (importedElements parsed) as [raw|] eqn:Hraw;
      [|left; by apply importedElements_None].
    right. exists raw. split; [done|].
    apply normalizeImportedElements_throws with (n := uuidCount st).
    destruct (normalizeImportedElements raw (uuidCount st)).1 as [out|] eqn:Hout;
      [|done].
    destruct (importLoad_success importText parsed raw out st Hs Hp Hraw Hout)
      as (_ & _ & _ & _ & _ & Hal).
    by destruct (importLoad_silent st _ Hal).
  - intros [Hp|(parsed & Hp & [Hbad|(raw & Hraw & Hex)])].
    + unfold importLoad, importBody. by rewrite Hp.
    + apply importedElements_None in Hbad.
      unfold importLoad, importBody. rewrite Hp. simpl. by rewrite Hbad.
    + apply (importLoad_throws importText parsed raw st Hp Hraw).
      by apply normalizeImportedElements_throws.
Qed.

Lemma importLoad_alerts_iff_witness :
  unusablePayload payloadNoArray ∧
  importLoad (H := hostReading "board" payloadNoArray) "board" exampleState
  = alert "Invalid JSON" exampleState.
Proof.
  assert (unusablePayload payloadNoArray) as Hbad.
  { right. exists (JNum two). split; [reflexivity|].
    split; [discriminate|]. intros raw. discriminate. }
  split; [exact Hbad|].
  apply (importLoad_alerts_iff (H := hostReading "board" payloadNoArray)
           "board" exampleState (initialState_sound (H := exampleHost) _)).
  right. exists payloadNoArray. split; [reflexivity|]. left. exact Hbad.
Defined.

(** A payload with an arrow whose coordinate has no primitive value is
    reported as invalid JSON, and the board stays as it was. *)
Example importLoad_unconvertible :
  importLoad (H := hostReading "board" payloadUnconvertible) "board" exampleState
  = alert "Invalid JSON" exampleState.
Proof. vm_compute. reflexivity. Qed.

(** An import can be undone as far as the elements go; the camera it
    installed stays. *)
Theorem importLoad_then_undo `{Host} (importText : string) (parsed : jsval)
    (raw : list jsval) (st : State) :
  sound st → JSON_parse importText = Some parsed →
  importedElements parsed = Some raw → ¬ Exists throwsOn raw →
  ∃ st2, undo (importLoad importText st) = Some st2 ∧
    elements st2 = elements st ∧ camera st2 = importedCamera parsed.
Proof.
  intros Hs Hp Hraw Hok.
  destruct (normalizeImportedElements raw (uuidCount st)).1 as [out|] eqn:Hout;
    [|by apply normalizeImportedElements_throws in Hout].
  destruct (importLoad_success importText parsed raw out st Hs Hp Hraw Hout)
    as (_ & Hh & _ & _ & Hcam & _).
  destruct (undo_pushed (historyRef st) (elements st) _ (proj1 Hs) Hh)
    as (st2 & Hundo & He & _ & _ & Hc).
  exists st2. by rewrite Hc, Hcam.
Qed.

Lemma importLoad_then_undo_witness :
  ∃ st2, undo (importLoad (H := exampleHost) textScale10 exampleState) = Some st2 ∧
    elements st2 = elements exampleState ∧
    camera st2 = importedCamera payloadScale10.
Proof.
  apply (importLoad_then_undo (H := exampleHost) textScale10 payloadScale10 []
           exampleState);
    [ apply initialState_sound | reflexivity | reflexivity
    | intros Hex; inversion Hex ].
Defined.

(** ** Export then import *)

Lemma roundtrip_camera (c : Camera) :
  finiteCamera c → JSON_roundtrip (Camera_toJS c) = Camera_toJS c.
Proof.
  intros (Hx & Hy & Hs). unfold Camera_toJS. simpl.
  rewrite !fmap_insert, fmap_empty, !roundtrip_finite; done.
Qed.

Lemma exportedBoard_typed (els : list El) (c : Camera) (st : State) :
  elements st = El_toJS <$> els → Forall wellFormed els →
  camera st = Camera_toJS c → finiteCamera c →
  exportedBoard st
  = JObj (<["elements" := JArr (El_toJS <$> els)]>
          (<["camera" := Camera_toJS c]> (<["bg" := DEFAULT_BG]> ∅))).
Proof.
  intros He Hwf Hc Hfin. unfold exportedBoard, boardState. rewrite He, Hc.
  cbn [JSON_roundtrip]. rewrite !fmap_insert, fmap_empty.
  cbn [JSON_roundtrip].
  change (JSON_roundtrip <$> (El_toJS <$> els)) with (exported els).
  rewrite (exported_wellFormed els Hwf), (roundtrip_camera c Hfin).
  do 3 f_equal; by vm_compute.
Qed.

(** Importing the exported text of a board of well-formed elements with
    stable curves and a finite camera changes neither the elements nor the
    camera; it records the elements on the history, clears the selection
    and reports nothing. *)
Theorem export_then_import `{Host} (els : list El) (c : Camera)
    (importText : string) (st : State) :
  sound st → elements st = El_toJS <$> els → Forall wellFormed els →
  Forall curveStable els → camera st = Camera_toJS c → finiteCamera c →
  JSON_parse importText = Some (exportedBoard st) →
  elements (importLoad importText st) = elements st ∧
  camera (importLoad importText st) = camera st ∧
  historyRef (importLoad importText st) = pushed (historyRef st) (elements st) ∧
  selectedId (importLoad importText st) = None ∧
  alerts (importLoad importText st) = alerts st.
Proof.
  intros Hs He Hwf Hst Hc Hfin Hp.
  rewrite (exportedBoard_typed els c st He Hwf Hc Hfin) in Hp.
  assert ((normalizeImportedElements (El_toJS <$> els) (uuidCount st)).1
          = Some (El_toJS <$> els)) as Hout.
  { unfold normalizeImportedElements.
    rewrite (normalizeMap_El els _ Hwf Hst). simpl.
    by rewrite omap_Some, cloneElements_El. }
  destruct (importLoad_success importText _ (El_toJS <$> els) _ st Hs Hp
              eq_refl Hout) as (Hel & Hh & Hsel & _ & Hcam & Hal).
  split_and!; try done; [congruence|].
  rewrite Hcam, Hc. by destruct c.
Qed.

Lemma export_then_import_witness :
  elements (importLoad (H := hostReading "board" (exportedBoard stableState))
              "board" stableState) = elements stableState ∧
  camera (importLoad (H := hostReading "board" (exportedBoard stableState))
            "board" stableState) = camera stableState ∧
  historyRef (importLoad (H := hostReading "board" (exportedBoard stableState))
                "board" stableState)
  = pushed (historyRef stableState) (elements stableState) ∧
  selectedId (importLoad (H := hostReading "board" (exportedBoard stableState))
                "board" stableState) = None ∧
  alerts (importLoad (H := hostReading "board" (exportedBoard stableState))
            "board" stableState) = alerts stableState.
Proof.
  apply (export_then_import (H := hostReading "board" (exportedBoard stableState))
           stableBoard exampleCamera "board" stableState);
    [ exact stableState_sound | reflexivity | exact stableBoard_wellFormed
    | exact stableBoard_stable | reflexivity | repeat split; reflexivity
    | reflexivity ].
Defined.

(** ** Zooming *)

Lemma between_finite (lo hi : Qc) (n : jsnum) :
  Num.between (Fin lo) (Fin hi) n → ∃ q, n = Fin q ∧ (lo <= q)%Qc ∧ (q <= hi)%Qc.
Proof.
  unfold Num.between. destruct n as [q| | |]; simpl; try (by intros (?&?&?)).
  rewrite !Qc_ltb_ge. intros (?&?&_). by exists q.
Qed.

Lemma clamp_inside (v lo hi : Qc) :
  (lo <= v)%Qc → (v <= hi)%Qc → clamp (Fin v) (Fin lo) (Fin hi) = Fin v.
Proof.
  intros Hlo Hhi. unfold clamp. simpl.
  destruct (Qc_ltb lo v) eqn:E1; simpl.
  - destruct (Qc_ltb v hi) eqn:E2; [done|].
    apply Qc_ltb_ge in E2. f_equal. by apply Qcle_antisym.
  - apply Qc_ltb_ge in E1. assert (v = lo) as -> by by apply Qcle_antisym.
    destruct (Qc_ltb lo hi) eqn:E2; [done|].
    apply Qc_ltb_ge in E2. f_equal. by apply Qcle_antisym.
Qed.

Lemma clamp_nan (lo hi : jsnum) : clamp NaN lo hi = NaN.
Proof. unfold clamp. by destruct lo, hi. Qed.

Lemma nan_offset (a h s n : jsnum) :
  Num.isNaN (a - h - (a - h - NaN) / s * n)%js = true.
Proof. by destruct a, h, s, n. Qed.

Ltac finite_arith :=
  repeat first
    [ rewrite half_finite | rewrite sub_finite | rewrite add_finite
    | rewrite mul_finite | rewrite div_finite by done ].

Lemma scale_bounds_nonzero (q : Qc) : (Q2Qc (1 # 5) <= q)%Qc → q ≠ 0%Qc.
Proof.
  intros Hq ->. apply (Qcle_not_lt _ _ Hq). by vm_compute.
Qed.

Lemma wheel_newScale (deltaY s : jsnum) :
  Num.isNaN s = false →
  ∃ q, clamp (if Num.gtb deltaY Num.zero
              then (s / Num.frac 21 20)%js
              else (s * Num.frac 21 20)%js) MIN_SCALE MAX_SCALE = Fin q ∧
    q ≠ 0%Qc.
Proof.
  intros Hs.
  destruct (between_finite (Q2Qc (1 # 5)) (Q2Qc (inject_Z 4))
              (clamp (if Num.gtb deltaY Num.zero
                      then (s / Num.frac 21 20)%js
                      else (s * Num.frac 21 20)%js) MIN_SCALE MAX_SCALE))
    as (q & Hq & Hlo & _).
  { apply clamp_between; [done|].
    destruct (Num.gtb deltaY Num.zero), s as [s| | |];
      first [done | by vm_compute]. }
  exists q. split; [done|]. by apply scale_bounds_nonzero.
Qed.

Section Zoom.
Context `{Host}.

Lemma asCamera_x (cam : jsval) (c : Camera) :
  asCamera cam = Some c → ToNumber (get cam "x") = Some (cam_x c).
Proof.
  unfold asCamera. intros Hc.
  destruct (ToNumber (get cam "x")); simplify_eq/=.
  destruct (ToNumber (get cam "y")); simplify_eq/=.
  by destruct (ToNumber (get cam "scale")); simplify_eq/=.
Qed.

Lemma readX_toJS (c : Camera) :
  ToNumber (get (Camera_toJS c) "x") = Some (cam_x c).
Proof. by destruct c. Qed.

End Zoom.

(** A turn of the wheel over the stage throws exactly when a field of the
    camera cannot be converted to a number.  Otherwise it installs a
    camera of three numbers whose scale lies within [0.2, 4] when the
    scale in place was a number, and is NaN when it was NaN: the wheel
    cannot repair a camera without a scale. *)
Theorem handleWheel_scale_or_nan `{Host} (p : Point) (deltaY : jsnum) (st : State) :
  match handleWheel (Some p) deltaY st with
  | Some st' =>
      ∃ c c', asCamera (camera st) = Some c ∧ camera st' = Camera_toJS c' ∧
        if Num.isNaN (cam_scale c)
        then Num.isNaN (cam_scale c') = true
        else Num.between MIN_SCALE MAX_SCALE (cam_scale c')
  | None => asCamera (camera st) = None
  end.
Proof.
  pose proof (handleWheel_spec p deltaY st) as Hspec.
  destruct (asCamera (camera st)) as [c|] eqn:Hc; rewrite Hspec; [|done].
  eexists c, _. split; [done|]. split; [done|].
  unfold cameraZoomTo. cbn [cam_scale].
  generalize (Num.gtb deltaY Num.zero). intros b.
  destruct (Num.isNaN (cam_scale c)) eqn:Hs.
  - destruct (cam_scale c); try done. destruct b; by rewrite clamp_nan.
  - apply clamp_between; [done|].
    destruct b, (cam_scale c) as [q| | |]; first [done | by vm_compute].
Qed.

(** The wheel over a camera whose scale has no primitive value throws. *)
Example handleWheel_unconvertible :
  handleWheel (H := exampleHost) (Some exampleAnchor) Num.one
    (set_camera cameraUnconvertible exampleState) = None.
Proof. vm_compute. reflexivity. Qed.

(** A camera whose horizontal offset reads as NaN keeps such an offset
    through every wheel zoom and every digit key; and both go through as
    soon as the three fields of the camera can be read. *)
Theorem zoom_keeps_nan_offset `{Host} (p : Point) (deltaY : jsnum) (key : string)
    (st : State) :
  ToNumber (get (camera st) "x") = Some NaN →
  (∀ st1, handleWheel (Some p) deltaY st = Some st1 →
     ToNumber (get (camera st1) "x") = Some NaN) ∧
  (∀ st2, handleDigitKey key st = Some st2 →
     ToNumber (get (camera st2) "x") = Some NaN) ∧
  (is_Some (asCamera (camera st)) →
   is_Some (handleWheel (Some p) deltaY st) ∧ is_Some (handleDigitKey key st)).
Proof.
  intros Hx.
  pose proof (handleWheel_spec p deltaY st) as Hw.
  assert (∀ c, asCamera (camera st) = Some c → cam_x c = NaN) as Hnan.
  { intros c Hc. apply asCamera_x in Hc. congruence. }
  split_and!.
  - intros st1 Hst1. destruct (asCamera (camera st)) as [c|] eqn:Hc;
      [|congruence].
    rewrite Hst1 in Hw. apply (inj Some) in Hw as ->.
    cbn [camera set_camera]. rewrite readX_toJS.
    unfold cameraZoomTo. cbn [cam_x]. rewrite (Hnan c eq_refl).
    f_equal.
    match goal with
    | |- context [clamp ?v MIN_SCALE MAX_SCALE] =>
        generalize (clamp v MIN_SCALE MAX_SCALE)
    end.
    intros n.
    by destruct (pt_x p), (vp_w (vp st) / two)%js, (cam_scale c), n.
  - intros st2 Hst2. destruct (scaleShortcut key) as [newScale|] eqn:Hk.
    + pose proof (handleDigitKey_spec key newScale st Hk) as Hd.
      destruct (asCamera (camera st)) as [c|] eqn:Hc; [|congruence].
      rewrite Hst2 in Hd. apply (inj Some) in Hd as ->.
      cbn [camera set_camera]. rewrite readX_toJS.
      unfold cameraZoomTo. cbn [cam_x pt_x]. rewrite (Hnan c eq_refl).
      f_equal.
      by destruct (vp_w (vp st) / two)%js, (cam_scale c), newScale.
    + unfold handleDigitKey in Hst2. rewrite Hk in Hst2. by simplify_eq.
  - intros [c Hc]. rewrite Hc in Hw. rewrite Hw. split; [done|].
    unfold handleDigitKey. rewrite Hc. by destruct (scaleShortcut key).
Qed.

Lemma zoom_keeps_nan_offset_witness :
  (∀ st1,
     handleWheel (H := exampleHost) (Some exampleAnchor) Num.one
       (set_camera (Camera_toJS (mkCamera NaN Num.zero Num.one)) exampleState)
     = Some st1 →
     ToNumber (H := exampleHost) (get (camera st1) "x") = Some NaN) ∧
  (∀ st2,
     handleDigitKey (H := exampleHost) "3"
       (set_camera (Camera_toJS (mkCamera NaN Num.zero Num.one)) exampleState)
     = Some st2 →
     ToNumber (H := exampleHost) (get (camera st2) "x") = Some NaN) ∧
  (is_Some (asCamera (H := exampleHost)
              (camera (set_camera (Camera_toJS (mkCamera NaN Num.zero Num.one))
                         exampleState))) →
   is_Some (handleWheel (H := exampleHost) (Some exampleAnchor) Num.one
              (set_camera (Camera_toJS (mkCamera NaN Num.zero Num.one))
                 exampleState)) ∧
   is_Some (handleDigitKey (H := exampleHost) "3"
              (set_camera (Camera_toJS (mkCamera NaN Num.zero Num.one))
                 exampleState))).
Proof.
  apply (zoom_keeps_nan_offset (H := exampleHost) exampleAnchor Num.one "3"
           (set_camera (Camera_toJS (mkCamera NaN Num.zero Num.one)) exampleState)).
  reflexivity.
Defined.

(** Over exact arithmetic (no rounding), the two transforms of the camera
    are inverse of each other on finite data, as soon as the scale is not
    zero. *)
Theorem screen_world_inverse (p : Point) (camera : Camera) (viewport : Viewport) :
  finitePt p → finiteCamera camera → finiteViewport viewport →
  cam_scale camera ≠ Num.zero →
  screenToWorld (worldToScreen p camera viewport) camera viewport = p ∧
  worldToScreen (screenToWorld p camera viewport) camera viewport = p.
Proof.
  destruct p as [[px| | |] [py| | |]]; intros [??]; simplify_eq/=.
  destruct camera as [[cx| | |] [cy| | |] [s| | |]]; intros (?&?&?); simplify_eq/=.
  destruct viewport as [[w| | |] [h| | |]]; intros [??]; simplify_eq/=.
  intros Hs. assert (s ≠ 0%Qc) as Hs' by (intros ->; by apply Hs).
  unfold worldToScreen, screenToWorld.
  cbn [pt_x pt_y cam_x cam_y cam_scale vp_w vp_h]. finite_arith.
  split; f_equal; f_equal; field; done.
Qed.

Lemma screen_world_inverse_witness :
  screenToWorld (worldToScreen exampleAnchor exampleCamera exampleViewport)
    exampleCamera exampleViewport = exampleAnchor ∧
  worldToScreen (screenToWorld exampleAnchor exampleCamera exampleViewport)
    exampleCamera exampleViewport = exampleAnchor.
Proof.
  apply (screen_world_inverse exampleAnchor exampleCamera exampleViewport);
    first [exact one_nonzero | repeat split; reflexivity].
Defined.

(** Over exact arithmetic (no rounding), a turn of the wheel on a finite
    camera goes through and leaves the world point under the pointer where
    it is: read back through the new camera, the pointer is over the same
    world point as before. *)
Theorem handleWheel_keeps_pointer `{Host} (p : Point) (deltaY : jsnum)
    (c : Camera) (st : State) :
  camera st = Camera_toJS c → finiteCamera c → cam_scale c ≠ Num.zero →
  finitePt p → finiteViewport (vp st) →
  ∃ st' c', handleWheel (Some p) deltaY st = Some st' ∧
    camera st' = Camera_toJS c' ∧
    screenToWorld p c' (vp st) = screenToWorld p c (vp st).
Proof.
  intros Hc Hfin Hs Hp Hv.
  pose proof (handleWheel_spec p deltaY st) as Hw.
  rewrite Hc, asCamera_toJS in Hw. rewrite Hw.
  eexists _, _. split; [done|]. split; [done|].
  destruct (wheel_newScale deltaY (cam_scale c)) as (q & -> & Hq0).
  { destruct Hfin as (_&_&Hf). by destruct (cam_scale c). }
  destruct c as [[cx| | |] [cy| | |] [s| | |]];
    destruct Hfin as (?&?&?); simplify_eq/=.
  destruct p as [[px| | |] [py| | |]]; destruct Hp as [??]; simplify_eq/=.
  destruct (vp st) as [[w| | |] [h| | |]]; destruct Hv as [??]; simplify_eq/=.
  assert (s ≠ 0%Qc) as Hs' by (intros ->; by apply Hs).
  unfold screenToWorld, cameraZoomTo.
  cbn [pt_x pt_y cam_x cam_y cam_scale vp_w vp_h]. finite_arith.
  f_equal; f_equal; field; done.
Qed.

Lemma handleWheel_keeps_pointer_witness :
  ∃ st' c',
    handleWheel (H := exampleHost) (Some exampleAnchor) Num.one stableState
    = Some st' ∧
    camera st' = Camera_toJS c' ∧
    screenToWorld exampleAnchor c' (vp stableState)
    = screenToWorld exampleAnchor exampleCamera (vp stableState).
Proof.
  apply (handleWheel_keeps_pointer (H := exampleHost) exampleAnchor Num.one
           exampleCamera stableState);
    first [exact one_nonzero | reflexivity | repeat split; reflexivity].
Defined.

(** A digit key on a finite camera goes through, installs its preset scale
    and keeps the world point at the centre of the viewport: the offsets
    are scaled by the ratio of the new scale to the old one. *)
Theorem handleDigitKey_scales_offset `{Host} (key : string) (newScale : jsnum)
    (c : Camera) (st : State) :
  scaleShortcut key = Some newScale →
  camera st = Camera_toJS c → finiteCamera c → cam_scale c ≠ Num.zero →
  finiteViewport (vp st) →
  ∃ st', handleDigitKey key st = Some st' ∧
    camera st'
    = Camera_toJS (mkCamera (cam_x c / cam_scale c * newScale)%js
                            (cam_y c / cam_scale c * newScale)%js newScale).
Proof.
  intros Hk Hc Hfin Hs Hv.
  pose proof (handleDigitKey_spec key newScale st Hk) as Hd.
  rewrite Hc, asCamera_toJS in Hd. rewrite Hd.
  eexists. split; [done|]. cbn [camera set_camera]. f_equal.
  assert (∃ n, newScale = Fin n) as [n ->].
  { unfold scaleShortcut in Hk. repeat case_bool_decide; simplify_eq; by eexists. }
  destruct c as [[cx| | |] [cy| | |] [s| | |]];
    destruct Hfin as (Hfx & Hfy & Hfs); simpl in Hfx, Hfy, Hfs; try done.
  destruct (vp st) as [[w| | |] [h| | |]];
    destruct Hv as [Hw Hh]; simpl in Hw, Hh; try done.
  assert (s ≠ 0%Qc) as Hs' by (intros ->; by apply Hs).
  unfold cameraZoomTo.
  cbn [pt_x pt_y cam_x cam_y cam_scale vp_w vp_h]. finite_arith.
  f_equal; f_equal; field; done.
Qed.

Lemma handleDigitKey_scales_offset_witness :
  ∃ st', handleDigitKey (H := exampleHost) "3" stableState = Some st' ∧
    camera st'
    = Camera_toJS
        (mkCamera (cam_x exampleCamera / cam_scale exampleCamera * two)%js
                  (cam_y exampleCamera / cam_scale exampleCamera * two)%js two).
Proof.
  apply (handleDigitKey_scales_offset (H := exampleHost) "3" two exampleCamera
           stableState);
    first [exact one_nonzero | reflexivity | repeat split; reflexivity].
Defined.

Lemma wheel_step `{Host} (d : jsnum) (st : State) (cx cy s w h px py q : Qc) :
  camera st = Camera_toJS (mkCamera (Fin cx) (Fin cy) (Fin s)) →
  vp st = mkViewport (Fin w) (Fin h) → s ≠ 0%Qc →
  clamp (if Num.gtb d Num.zero then (Fin s / Num.frac 21 20)%js
         else (Fin s * Num.frac 21 20)%js) MIN_SCALE MAX_SCALE = Fin q →
  handleWheel (Some (mkPoint (Fin px) (Fin py))) d st
  = Some (set_camera
            (Camera_toJS
               (mkCamera
                  (Fin (px - w / Q2Qc 2 - (px - w / Q2Qc 2 - cx) / s * q))
                  (Fin (py - h / Q2Qc 2 - (py - h / Q2Qc 2 - cy) / s * q))
                  (Fin q))) st).
Proof.
  intros Hc Hv Hs Hq.
  pose proof (handleWheel_spec (mkPoint (Fin px) (Fin py)) d st) as Hw.
  rewrite Hc, asCamera_toJS in Hw. rewrite Hw, Hv.
  cbn [cam_scale]. rewrite Hq. unfold cameraZoomTo.
  cbn [pt_x pt_y cam_x cam_y cam_scale vp_w vp_h]. by finite_arith.
Qed.

(** Over exact arithmetic (no rounding), zooming in by one wheel step and
    out by one at the same pointer gives back the state, camera offsets
    included, when the scale in place is at least 0.2 and the zoomed scale
    at most 4, so that neither step is clamped. *)
Theorem handleWheel_in_then_out `{Host} (p : Point) (dIn dOut : jsnum)
    (cx cy s : Qc) (st : State) :
  camera st = Camera_toJS (mkCamera (Fin cx) (Fin cy) (Fin s)) →
  finitePt p → finiteViewport (vp st) →
  Num.gtb dIn Num.zero = false → Num.gtb dOut Num.zero = true →
  (Q2Qc (1 # 5) <= s)%Qc → (s * Q2Qc (21 # 20) <= Q2Qc (inject_Z 4))%Qc →
  ∃ st1, handleWheel (Some p) dIn st = Some st1 ∧
    handleWheel (Some p) dOut st1 = Some st.
Proof.
  intros Hc Hp Hv Hin Hout Hlo Hhi.
  assert (s ≠ 0%Qc) as Hs by by apply scale_bounds_nonzero.
  assert (s <= s * Q2Qc (21 # 20))%Qc as Hgrow.
  { unfold Qcle in *.
    assert (this (s * Q2Qc (21 # 20))%Qc == this s * (21 # 20))%Q as E.
    { unfold Qcmult, Q2Qc. simpl. by rewrite !Qred_correct. }
    assert (this (Q2Qc (1 # 5)) == 1 # 5)%Q as E2 by (simpl; apply Qred_correct).
    rewrite E. rewrite E2 in Hlo. lra. }
  assert ((s * Q2Qc (21 # 20))%Qc ≠ 0%Qc) as Hs1.
  { apply scale_bounds_nonzero. by apply (Qcle_trans _ s). }
  assert (s * Q2Qc (21 # 20) / Q2Qc (21 # 20) = s)%Qc as Hback by (by field).
  destruct p as [[px| | |] [py| | |]];
    destruct Hp as [Hpx Hpy]; simpl in Hpx, Hpy; try done.
  destruct (vp st) as [[w| | |] [h| | |]] eqn:Hvp;
    destruct Hv as [Hw Hh]; simpl in Hw, Hh; try done.
  eexists. split.
  { apply (wheel_step dIn st cx cy s w h px py (s * Q2Qc (21 # 20))%Qc Hc Hvp Hs).
    rewrite Hin. unfold Num.frac, MIN_SCALE, MAX_SCALE, Num.of_Z.
    rewrite mul_finite. apply clamp_inside; [by apply (Qcle_trans _ s) | done]. }
  erewrite (wheel_step dOut _ _ _ (s * Q2Qc (21 # 20))%Qc w h px py s);
    [| reflexivity | exact Hvp | exact Hs1 |].
  2:{ rewrite Hout. unfold Num.frac, MIN_SCALE, MAX_SCALE, Num.of_Z.
      rewrite div_finite by done. rewrite Hback.
      apply clamp_inside; [done | by apply (Qcle_trans _ (s * Q2Qc (21 # 20))%Qc)]. }
  generalize dependent (s * Q2Qc (21 # 20))%Qc. intros q1 _ _ Hq1 _.
  destruct st as [els cam v hist und sel dlg al cnt]. simpl in Hc. subst cam.
  unfold set_camera. simpl. do 2 f_equal. unfold Camera_toJS.
  cbn [cam_x cam_y cam_scale].
  assert ((px - w / Q2Qc 2
           - (px - w / Q2Qc 2
              - (px - w / Q2Qc 2 - (px - w / Q2Qc 2 - cx) / s * q1)) / q1 * s)
          = cx)%Qc as -> by (by field).
  assert ((py - h / Q2Qc 2
           - (py - h / Q2Qc 2
              - (py - h / Q2Qc 2 - (py - h / Q2Qc 2 - cy) / s * q1)) / q1 * s)
          = cy)%Qc as -> by (by field).
  done.
Qed.

Lemma handleWheel_in_then_out_witness :
  ∃ st1,
    handleWheel (H := exampleHost) (Some exampleAnchor) (Num.of_Z (-1))
      exampleState = Some st1 ∧
    handleWheel (H := exampleHost) (Some exampleAnchor) Num.one st1
    = Some exampleState.
Proof.
  apply (handleWheel_in_then_out (H := exampleHost) exampleAnchor
           (Num.of_Z (-1)) Num.one 0%Qc 0%Qc (Q2Qc (3 # 2)) exampleState);
    first [reflexivity | repeat split; reflexivity | by vm_compute].
Defined.

(** ** Sampling and pruning *)

Lemma of_nat_nonzero (n : nat) : n ≠ 0 → Q2Qc (inject_Z (Z.of_nat n)) ≠ 0%Qc.
Proof.
  intros Hn Heq. apply Q2Qc_eq_iff in Heq.
  unfold Qeq in Heq. simpl in Heq. lia.
Qed.

Lemma cubicAt_zero (p0 c1 c2 p3 : Point) :
  finitePt p0 → finitePt c1 → finitePt c2 → finitePt p3 →
  cubicAt p0 c1 c2 p3 (Fin 0%Qc) = p0.
Proof.
  destruct p0 as [[x0| | |] [y0| | |]]; intros [H1 H2]; simpl in H1, H2; try done.
  destruct c1 as [[x1| | |] [y1| | |]]; intros [H3 H4]; simpl in H3, H4; try done.
  destruct c2 as [[x2| | |] [y2| | |]]; intros [H5 H6]; simpl in H5, H6; try done.
  destruct p3 as [[x3| | |] [y3| | |]]; intros [H7 H8]; simpl in H7, H8; try done.
  unfold cubicAt, Num.one, Num.of_Z. cbn [pt_x pt_y]. finite_arith.
  f_equal; f_equal; ring.
Qed.

Lemma cubicAt_one (p0 c1 c2 p3 : Point) :
  finitePt p0 → finitePt c1 → finitePt c2 → finitePt p3 →
  cubicAt p0 c1 c2 p3 (Fin 1%Qc) = p3.
Proof.
  destruct p0 as [[x0| | |] [y0| | |]]; intros [H1 H2]; simpl in H1, H2; try done.
  destruct c1 as [[x1| | |] [y1| | |]]; intros [H3 H4]; simpl in H3, H4; try done.
  destruct c2 as [[x2| | |] [y2| | |]]; intros [H5 H6]; simpl in H5, H6; try done.
  destruct p3 as [[x3| | |] [y3| | |]]; intros [H7 H8]; simpl in H7, H8; try done.
  unfold cubicAt, Num.one, Num.of_Z. cbn [pt_x pt_y]. finite_arith.
  f_equal; f_equal; ring.
Qed.

(** A cubic sampled over finite control points with at least one segment
    has one point more than segments, starts at the start point and ends
    at the end point. *)
Theorem sampleCubicPoints_endpoints (p0 c1 c2 p3 : Point) (segments : nat) :
  finitePt p0 → finitePt c1 → finitePt c2 → finitePt p3 → 1 ≤ segments →
  length (sampleCubicPoints p0 c1 c2 p3 segments) = S segments ∧
  head (sampleCubicPoints p0 c1 c2 p3 segments) = Some p0 ∧
  last (sampleCubicPoints p0 c1 c2 p3 segments) = Some p3.
Proof.
  intros H0 H1 H2 H3 Hseg.
  pose proof (of_nat_nonzero segments ltac:(lia)) as Hnz.
  split; [apply sampleCubicPoints_length|]. unfold sampleCubicPoints. split.
  - assert (∀ f : nat → Point, head (f <$> seq 0 (S segments)) = Some (f 0))
      as -> by done.
    f_equal.
    replace (Num.of_nat 0 / Num.of_nat segments)%js with (Fin 0%Qc);
      [by apply cubicAt_zero|].
    unfold Num.of_nat, Num.of_Z. rewrite div_finite by done.
    f_equal. change (Q2Qc (inject_Z (Z.of_nat 0))) with 0%Qc. by field.
  - rewrite seq_S, fmap_app.
    assert (∀ (f : nat → Point) k, f <$> [k] = [f k]) as -> by done.
    rewrite last_snoc. f_equal. cbn [Nat.add].
    replace (Num.of_nat segments / Num.of_nat segments)%js with (Fin 1%Qc);
      [by apply cubicAt_one|].
    unfold Num.of_nat, Num.of_Z. rewrite div_finite by done.
    f_equal. by field.
Qed.

Lemma sampleCubicPoints_endpoints_witness :
  length (sampleCubicPoints (pt 0 1 0 1) (pt 1 1 2 1) (pt 2 1 2 1) (pt 3 1 0 1) 4)
  = 5 ∧
  head (sampleCubicPoints (pt 0 1 0 1) (pt 1 1 2 1) (pt 2 1 2 1) (pt 3 1 0 1) 4)
  = Some (pt 0 1 0 1) ∧
  last (sampleCubicPoints (pt 0 1 0 1) (pt 1 1 2 1) (pt 2 1 2 1) (pt 3 1 0 1) 4)
  = Some (pt 3 1 0 1).
Proof.
  apply (sampleCubicPoints_endpoints (pt 0 1 0 1) (pt 1 1 2 1) (pt 2 1 2 1)
           (pt 3 1 0 1) 4);
    first [lia | repeat split; reflexivity].
Defined.

Lemma insert_last {A} (r : list A) (x : A) :
  r ≠ [] → <[pred (length r) := x]> r = take (pred (length r)) r ++ [x].
Proof.
  induction r as [|y r IH] using rev_ind; [done|]. intros _.
  rewrite length_app. simpl. rewrite Nat.add_1_r. simpl.
  rewrite take_app_length.
  replace (length r) with (length r + 0) at 1 by lia.
  by rewrite insert_app_r.
Qed.

Section PruneOrder.
Variable epsilon : jsnum.

Lemma prune_step_sublist (r l : list Point) (p : Point) :
  r `sublist_of` l → prune_step epsilon r p `sublist_of` l ++ [p].
Proof.
  intros Hsub. unfold prune_step.
  destruct (last r) as [q|] eqn:E.
  - destruct (far epsilon q p); [by apply sublist_app|].
    rewrite insert_last by (by intros ->).
    apply sublist_app; [|done]. etrans; [apply sublist_take|done].
  - by apply sublist_app.
Qed.

Lemma prune_pass_sublist (l : list Point) : prune_pass epsilon l `sublist_of` l.
Proof.
  induction l as [|p l IH] using rev_ind; [done|].
  rewrite prune_pass_snoc. by apply prune_step_sublist.
Qed.

Lemma prune_step_last (r : list Point) (p : Point) :
  last (prune_step epsilon r p) = Some p.
Proof.
  unfold prune_step. destruct (last r) as [q|] eqn:E.
  - destruct (far epsilon q p); [apply last_snoc|].
    rewrite insert_last by (by intros ->). apply last_snoc.
  - apply last_snoc.
Qed.

Lemma prune_pass_last (l : list Point) : last (prune_pass epsilon l) = last l.
Proof.
  destruct l as [|p l _] using rev_ind; [done|].
  by rewrite prune_pass_snoc, prune_step_last, last_snoc.
Qed.

End PruneOrder.

(** Pruning never invents or reorders points: the result is a subsequence
    of the input, hence no longer than it. *)
Theorem prunePoints_subsequence (epsilon : jsnum) (points : list Point) :
  prunePoints epsilon points `sublist_of` points ∧
  length (prunePoints epsilon points) ≤ length points.
Proof.
  assert (prunePoints epsilon points `sublist_of` points) as Hsub.
  { unfold prunePoints. case_decide; [apply prune_pass_sublist | apply sublist_take]. }
  split; [done | by apply sublist_length].
Qed.

(** When the pass keeps two points or more, the pruned stroke ends at the
    last point of the input; the first point of the input may be lost. *)
Theorem prunePoints_keeps_last (epsilon : jsnum) (points : list Point) :
  2 ≤ length (prune_pass epsilon points) →
  last (prunePoints epsilon points) = last points.
Proof.
  intros Hlen. unfold prunePoints. rewrite decide_True by done.
  apply prune_pass_last.
Qed.

Lemma prunePoints_keeps_last_witness :
  2 ≤ length (prune_pass CURVE_POINT_EPSILON backtrackStroke) ∧
  last (prunePoints CURVE_POINT_EPSILON backtrackStroke) = last backtrackStroke.
Proof.
  assert (2 ≤ length (prune_pass CURVE_POINT_EPSILON backtrackStroke)) as Hlen.
  { vm_compute. lia. }
  split; [exact Hlen|].
  exact (prunePoints_keeps_last CURVE_POINT_EPSILON backtrackStroke Hlen).
Defined.

(** Whatever it is given, [normalizeArrowColor] answers one of the three
    canonical colors; it keeps a canonical color, maps the player colors
    red and blue to their line colors, and answers the same on its own
    answer. *)
Theorem normalizeArrowColor_total (color : option jsval) (c : ArrowColor) :
  canonicalColor (Some (JStr (normalizeArrowColor color))) ∧
  normalizeArrowColor (Some (JStr (ArrowColor_str c))) = ArrowColor_str c ∧
  normalizeArrowColor (Some (JStr "red")) = "redLine" ∧
  normalizeArrowColor (Some (JStr "blue")) = "blueLine" ∧
  normalizeArrowColor (Some (JStr (normalizeArrowColor color)))
  = normalizeArrowColor color.
Proof.
  split_and!; try done.
  - apply normalizeArrowColor_range.
  - by destruct c.
  - by destruct (normalizeArrowColor_range color) as [[= ->]|[[= ->]|[= ->]]].
Qed.

(** ** Panning *)

Section Pan.
Context `{Host}.

Lemma panCamera_finite (cx cy dx dy : Qc) (s : jsnum) :
  panCamera (Camera_toJS (mkCamera (Fin cx) (Fin cy) s)) (Fin dx) (Fin dy)
  = Some (Camera_toJS (mkCamera (Fin (cx + dx)) (Fin (cy + dy)) s)).
Proof. reflexivity. Qed.

Lemma pan_step (p0 p1 : Qc * Qc) (cx cy : Qc) (s : jsnum) (ui : UI) :
  isPanning ui = true → lastPointerRef ui = Some (fpt p0) →
  camera (doc ui) = Camera_toJS (mkCamera (Fin cx) (Fin cy) s) →
  handleMouseMove (moveTo (fpt p1)) ui
  = Some (set_panning true (Some (fpt p1))
            (set_doc
               (set_camera
                  (Camera_toJS
                     (mkCamera (Fin (cx + (p1.1 - p0.1)))
                               (Fin (cy + (p1.2 - p0.2))) s))
                  (doc ui)) ui)).
Proof.
  intros Hp Hl Hc. unfold handleMouseMove. rewrite Hp, Hl, Hc.
  cbn [pointerPos moveTo fpt pt_x pt_y]. rewrite !sub_finite.
  by rewrite panCamera_finite.
Qed.

Lemma panAll_spec (ps : list (Qc * Qc)) (p0 : Qc * Qc) (cx cy : Qc) (s : jsnum)
    (ui : UI) :
  isPanning ui = true → lastPointerRef ui = Some (fpt p0) →
  camera (doc ui) = Camera_toJS (mkCamera (Fin cx) (Fin cy) s) →
  ∃ ui', panAll (fpt <$> ps) ui = Some ui' ∧
    camera (doc ui')
    = Camera_toJS
        (mkCamera (Fin (cx + ((default p0 (last ps)).1 - p0.1)))
                  (Fin (cy + ((default p0 (last ps)).2 - p0.2))) s) ∧
    lastPointerRef ui' = Some (fpt (default p0 (last ps))) ∧
    isPanning ui' = true ∧
    elements (doc ui') = elements (doc ui) ∧
    historyRef (doc ui') = historyRef (doc ui).
Proof.
  revert p0 cx cy ui. induction ps as [|p1 ps IH]; intros p0 cx cy ui Hp Hl Hc.
  { exists ui. simpl. rewrite Hc, Hl. split_and!; try done.
    do 2 f_equal; f_equal; ring. }
  rewrite fmap_cons. cbn [panAll].
  rewrite (pan_step p0 p1 cx cy s ui Hp Hl Hc). cbn [mbind option_bind].
  match goal with
  | |- context [panAll _ ?u] =>
      destruct (IH p1 (cx + (p1.1 - p0.1))%Qc (cy + (p1.2 - p0.2))%Qc u)
        as (ui' & Hrun & Hcam & Hlast & Hpan & Hel & Hh); [done..|]
  end.
  exists ui'. rewrite Hcam, Hlast, Hpan, Hel, Hh.
  assert (default p0 (last (p1 :: ps)) = default p1 (last ps)) as ->.
  { destruct ps as [|p2 ps] using rev_ind; [done|].
    by rewrite app_comm_cons, !last_snoc. }
  split_and!; try done.
  do 2 f_equal; f_equal; ring.
Qed.

End Pan.

(** Over exact arithmetic (no rounding), the camera follows the pointer
    while panning: a path of finite pointer positions over a camera with
    finite offsets is handled without a throw, the offsets have moved by
    the vector from the point grabbed to the last point, the scale, the
    elements and the history are as they were, and the world point that
    was under the pointer when grabbed is under it still. *)
Theorem pan_follows_pointer `{Host} (ps : list (Qc * Qc)) (p0 : Qc * Qc)
    (cx cy s w h : Qc) (ui : UI) :
  isPanning ui = true → lastPointerRef ui = Some (fpt p0) →
  camera (doc ui) = Camera_toJS (mkCamera (Fin cx) (Fin cy) (Fin s)) →
  s ≠ 0%Qc →
  ∃ ui', panAll (fpt <$> ps) ui = Some ui' ∧
    camera (doc ui')
    = Camera_toJS
        (mkCamera (Fin (cx + ((default p0 (last ps)).1 - p0.1)))
                  (Fin (cy + ((default p0 (last ps)).2 - p0.2))) (Fin s)) ∧
    elements (doc ui') = elements (doc ui) ∧
    historyRef (doc ui') = historyRef (doc ui) ∧
    screenToWorld (fpt (default p0 (last ps)))
      (mkCamera (Fin (cx + ((default p0 (last ps)).1 - p0.1)))
                (Fin (cy + ((default p0 (last ps)).2 - p0.2))) (Fin s))
      (mkViewport (Fin w) (Fin h))
    = screenToWorld (fpt p0) (mkCamera (Fin cx) (Fin cy) (Fin s))
        (mkViewport (Fin w) (Fin h)).
Proof.
  intros Hp Hl Hc Hs.
  destruct (panAll_spec ps p0 cx cy (Fin s) ui Hp Hl Hc)
    as (ui' & Hrun & Hcam & _ & _ & Hel & Hh).
  exists ui'. split_and!; try done.
  unfold screenToWorld, fpt.
  cbn [pt_x pt_y cam_x cam_y cam_scale vp_w vp_h]. finite_arith.
  f_equal; f_equal; field; done.
Qed.

Lemma pan_follows_pointer_witness :
  ∃ ui', panAll (H := exampleHost) (fpt <$> dragPath) grabbedUI = Some ui' ∧
    camera (doc ui')
    = Camera_toJS
        (mkCamera
           (Fin (0 + ((default (Q2Qc 10, Q2Qc 20) (last dragPath)).1
                      - (Q2Qc 10, Q2Qc 20).1)))
           (Fin (0 + ((default (Q2Qc 10, Q2Qc 20) (last dragPath)).2
                      - (Q2Qc 10, Q2Qc 20).2)))
           (Fin (Q2Qc (3 # 2)))) ∧
    elements (doc ui') = elements (doc grabbedUI) ∧
    historyRef (doc ui') = historyRef (doc grabbedUI) ∧
    screenToWorld (fpt (default (Q2Qc 10, Q2Qc 20) (last dragPath)))
      (mkCamera
         (Fin (0 + ((default (Q2Qc 10, Q2Qc 20) (last dragPath)).1
                    - (Q2Qc 10, Q2Qc 20).1)))
         (Fin (0 + ((default (Q2Qc 10, Q2Qc 20) (last dragPath)).2
                    - (Q2Qc 10, Q2Qc 20).2)))
         (Fin (Q2Qc (3 # 2))))
      (mkViewport (Fin (Q2Qc 800)) (Fin (Q2Qc 600)))
    = screenToWorld (fpt (Q2Qc 10, Q2Qc 20))
        (mkCamera (Fin 0) (Fin 0) (Fin (Q2Qc (3 # 2))))
        (mkViewport (Fin (Q2Qc 800)) (Fin (Q2Qc 600))).
Proof.
  apply (pan_follows_pointer (H := exampleHost) dragPath (Q2Qc 10, Q2Qc 20)
           0%Qc 0%Qc (Q2Qc (3 # 2)) (Q2Qc 800) (Q2Qc 600) grabbedUI);
    first [reflexivity | by vm_compute].
Defined.

(** ** Gestures *)

Section GestureFacts.
Context `{Host}.

Lemma worldOf_read (e : MouseEvent) (cam : jsval) (c : Camera)
    (viewport : Viewport) :
  asCamera cam = Some c →
  worldOf e cam viewport = Some (worldFromPointer (pointerPos e) c viewport).
Proof.
  intros Hc. unfold worldOf, worldFromPointer.
  destruct (pointerPos e); [|done]. by rewrite Hc.
Qed.

Lemma handleMouseDown_spec (e : MouseEvent) (ui : UI) :
  same_board (doc ui) (doc (handleMouseDown e ui)) ∧
  tool (handleMouseDown e ui) = tool ui ∧
  currentArrowColor (handleMouseDown e ui) = currentArrowColor ui ∧
  currentDashed (handleMouseDown e ui) = currentDashed ui ∧
  spaceDownRef (handleMouseDown e ui) = spaceDownRef ui ∧
  drawState (handleMouseDown e ui) = drawState ui ∧
  isPanning (handleMouseDown e ui)
  = (spaceDownRef ui || bool_decide (button e = 1)
     || (bool_decide (button e = 0) && onStage e && is_select (tool ui)))
    || isPanning ui.
Proof.
  unfold handleMouseDown, same_board.
  destruct (bool_decide (button e = 0)), (ctx_open (ctxMenu ui)), (onStage e),
    (spaceDownRef ui) eqn:?, (bool_decide (button e = 1)), (is_select (tool ui));
    simpl; rewrite ?orb_false_r; by split_and!.
Qed.

(** Whether a press starts a drawing. *)
Lemma onStageMouseDown_spec (e : MouseEvent) (ui : UI) :
  match onStageMouseDown e ui with
  | Some ui' =>
      doc ui' = doc ui ∧ tool ui' = tool ui ∧
      currentArrowColor ui' = currentArrowColor ui ∧
      currentDashed ui' = currentDashed ui ∧
      isPanning ui' = isPanning ui ∧
      if negb (spaceDownRef ui || bool_decide (button e = 1))
         && bool_decide (pointerPos e ≠ None) && is_arrow_tool (tool ui)
      then ∃ c, asCamera (camera (doc ui)) = Some c ∧
           drawState ui'
           = Some (match tool ui with
                   | ToolArrowStraight =>
                       DrawStraight
                         (worldFromPointer (pointerPos e) c (vp (doc ui)))
                   | _ =>
                       DrawCurve
                         [worldFromPointer (pointerPos e) c (vp (doc ui))]
                   end)
      else drawState ui' = drawState ui
  | None =>
      (spaceDownRef ui || bool_decide (button e = 1)) = false ∧
      pointerPos e ≠ None ∧ is_arrow_tool (tool ui) = true ∧
      asCamera (camera (doc ui)) = None
  end.
Proof.
  unfold onStageMouseDown.
  destruct (spaceDownRef ui || bool_decide (button e = 1)); [done|].
  destruct (pointerPos e) as [p|] eqn:Hptr; [|done]. simpl.
  destruct (asCamera (camera (doc ui))) as [c|] eqn:Hc.
  - destruct (tool ui) eqn:Ht; simpl; try done;
      rewrite (worldOf_read e _ c _ Hc), Hptr; simpl;
      split_and!; try done; by exists c.
  - destruct (tool ui) eqn:Ht; simpl; try done;
      unfold worldOf; rewrite Hptr, Hc; simpl; done.
Qed.

Lemma stageMouseMove_still (e : MouseEvent) (ui : UI) (d : DrawState)
    (c : Camera) :
  asCamera (camera (doc ui)) = Some c →
  isPanning ui = false → drawState ui = Some d →
  (∀ pts, d = DrawCurve pts → pts ≠ []) →
  ∃ ui' d', stageMouseMove e ui = Some ui' ∧ doc ui' = doc ui ∧
    isPanning ui' = false ∧
    currentArrowColor ui' = currentArrowColor ui ∧
    currentDashed ui' = currentDashed ui ∧
    drawState ui' = Some d' ∧
    (∀ start, d = DrawStraight start → d' = DrawStraight start) ∧
    (∀ pts, d = DrawCurve pts → ∃ pts', d' = DrawCurve pts' ∧ pts' ≠ []).
Proof.
  intros Hc Hp Hd Hne. unfold stageMouseMove, handleMouseMove. rewrite Hp.
  cbn [mbind option_bind].
  unfold onStageMouseMove. rewrite Hd, (worldOf_read e _ c _ Hc).
  cbn [mbind option_bind]. destruct d as [start|pts].
  - eexists _, _. split; [done|]. simpl. split_and!; try done.
    all: intros pts [=].
  - rewrite (asCamera_scale _ _ Hc). cbn [mbind option_bind].
    cbv zeta. unfold accumulate.
    destruct (decide (length pts = 1)).
    + eexists _, _. split; [done|]. simpl. split_and!; try done.
      all: intros pts' [= <-]; eexists; (split; [done|]); by destruct pts.
    + destruct (last pts) as [lp|] eqn:El.
      2:{ apply last_None in El. by destruct (Hne pts). }
      simpl. destruct (hypot_ge _ _ _).
      * eexists _, _. split; [done|]. simpl. split_and!; try done.
        all: intros pts' [= <-]; eexists; (split; [done|]); by destruct pts.
      * eexists _, _. split; [done|]. simpl. split_and!; try done.
        intros pts' [= <-]. eexists. split; [done|].
        intros Hnil. apply (f_equal length) in Hnil.
        rewrite length_insert in Hnil. destruct pts; [by destruct (Hne [])|done].
Qed.

Lemma stageMouseMoves_still (moves : list MouseEvent) (ui : UI) (d : DrawState)
    (c : Camera) :
  asCamera (camera (doc ui)) = Some c →
  isPanning ui = false → drawState ui = Some d →
  (∀ pts, d = DrawCurve pts → pts ≠ []) →
  ∃ ui' d', stageMouseMoves moves ui = Some ui' ∧ doc ui' = doc ui ∧
    isPanning ui' = false ∧
    currentArrowColor ui' = currentArrowColor ui ∧
    currentDashed ui' = currentDashed ui ∧
    drawState ui' = Some d' ∧
    (∀ start, d = DrawStraight start → d' = DrawStraight start) ∧
    (∀ pts, d = DrawCurve pts → ∃ pts', d' = DrawCurve pts' ∧ pts' ≠ []).
Proof.
  revert ui d. induction moves as [|e moves IH]; intros ui d Hc Hp Hd Hne.
  { exists ui, d. simpl. split_and!; try done. intros pts ->. eexists.
    split; [done|]. by apply Hne. }
  destruct (stageMouseMove_still e ui d c Hc Hp Hd Hne)
    as (ui1 & d1 & Hm & Hdoc & Hp1 & Hc1 & Hda1 & Hd1 & Hs1 & Hcv1).
  destruct (IH ui1 d1) as (ui2 & d2 & Hm2 & Hdoc2 & Hp2 & Hc2 & Hda2 & Hd2 & Hs2 & Hcv2);
    [by rewrite Hdoc | done | done | |].
  { intros pts ->. destruct d as [start|pts0].
    - by specialize (Hs1 start eq_refl).
    - destruct (Hcv1 pts0 eq_refl) as (pts' & [= ->] & Hn). done. }
  exists ui2, d2. cbn [stageMouseMoves]. rewrite Hm. simpl.
  split_and!; try congruence.
  - intros start ->. apply Hs2. by apply Hs1.
  - intros pts ->. destruct (Hcv1 pts eq_refl) as (pts1 & -> & Hn1).
    by apply (Hcv2 pts1).
Qed.

(** The state a press in a drawing gesture leaves. *)
Lemma stageMouseDown_drawing (down : MouseEvent) (ui : UI) (p : Point)
    (c : Camera) :
  idle ui → is_arrow_tool (tool ui) = true → button down ≠ 1 →
  pointerPos down = Some p → asCamera (camera (doc ui)) = Some c →
  ∃ ui1, stageMouseDown down ui = Some ui1 ∧
    same_board (doc ui) (doc ui1) ∧
    isPanning ui1 = false ∧
    currentArrowColor ui1 = currentArrowColor ui ∧
    currentDashed ui1 = currentDashed ui ∧
    drawState ui1
    = Some (match tool ui with
            | ToolArrowStraight =>
                DrawStraight (screenToWorld p c (vp (doc ui)))
            | _ => DrawCurve [screenToWorld p c (vp (doc ui))]
            end).
Proof.
  intros (Hp & Hd & Hsp) Ht Hb Hptr Hc. unfold stageMouseDown.
  destruct (handleMouseDown_spec down ui)
    as (Hsame & Htool & Hcol & Hdash & Hspace & Hdraw & Hpan).
  pose proof (onStageMouseDown_spec down (handleMouseDown down ui)) as Hspec.
  destruct Hsame as (He & Hh & Hcam & Hv & Hn & Hu).
  rewrite Hspace, Hsp, (bool_decide_eq_false_2 _ Hb), Hptr, Htool, Ht, Hcam, Hc
    in Hspec.
  rewrite bool_decide_eq_true_2 in Hspec by done. simpl in Hspec.
  destruct (onStageMouseDown down (handleMouseDown down ui)) as [ui1|];
    [|by destruct Hspec as (_ & _ & _ & ?)].
  destruct Hspec as (Hdoc & _ & Hcol' & Hdash' & Hpan' & c' & [= <-] & Hdraw').
  exists ui1. split; [done|].
  rewrite Hdoc, Hcol', Hdash', Hpan', Hdraw', Hcol, Hdash, Hpan, Hv.
  rewrite Hsp, Hp, (bool_decide_eq_false_2 _ Hb).
  split_and!; try done.
  destruct (tool ui), (bool_decide (button down = 0)), (onStage down);
    simpl in *; done.
Qed.

End GestureFacts.

Lemma append_commit (el : jsval) (st : State) (n : nat) :
  sound st → wf_el el →
  ∃ st', applyElementsUpdate (λ els, Some (Fresh (els ++ [el])))
           (set_uuidCount n st) = Some st' ∧
    elements st' = elements st ++ [el] ∧
    historyRef st' = pushed (historyRef st) (elements st).
Proof.
  intros Hs Hel.
  assert (sound (set_uuidCount n st)) as Hs0 by done.
  assert (Forall wf_el (elements st ++ [el])) as Hn.
  { apply Forall_app. split; [apply Hs|]. by constructor. }
  destruct (applyElementsUpdate_elements (λ els, Some (Fresh (els ++ [el])))
              (elements st ++ [el]) (set_uuidCount n st))
    as (st' & Happ & He); [apply Hs | done |].
  destruct (applyElementsUpdate_sound (λ els, Some (Fresh (els ++ [el])))
              (elements st ++ [el]) (set_uuidCount n st) st' Hs0 eq_refl Hn Happ)
    as (_ & _ & Hh & _).
  by exists st'.
Qed.



(** A press with an arrow tool over a camera whose scale has no primitive
    value throws. *)
Example press_unconvertible :
  stageMouseDown (H := exampleHost) (pressAt 10 10)
    (set_doc (set_camera cameraUnconvertible exampleState)
       (exampleUI ToolArrowCurve)) = None.
Proof. vm_compute. reflexivity. Qed.

(** A gesture with the straight-arrow tool over a camera that can be read
    always adds one element: the arrow from the world point of the press
    to the world point of the release, in the current color and dash,
    under a new identifier, whatever the pointer did in between (a press
    and release on the spot adds an arrow of length zero).  The elements
    in place go on the history and the preview is cleared. *)
Theorem straight_gesture_commits `{Host} (down up : MouseEvent)
    (moves : list MouseEvent) (p : Point) (c : Camera) (ui : UI) :
  sound (doc ui) → idle ui → tool ui = ToolArrowStraight → button down ≠ 1 →
  pointerPos down = Some p → asCamera (camera (doc ui)) = Some c →
  ∃ ui', gesture down moves up ui = Some ui' ∧
    elements (doc ui')
    = elements (doc ui)
      ++ [straightObject (JStr (uuidv4 (uuidCount (doc ui))))
            (pt_x (screenToWorld p c (vp (doc ui))))
            (pt_y (screenToWorld p c (vp (doc ui))))
            (pt_x (worldFromPointer (pointerPos up) c (vp (doc ui))))
            (pt_y (worldFromPointer (pointerPos up) c (vp (doc ui))))
            (ArrowColor_str (currentArrowColor ui)) (currentDashed ui)] ∧
    historyRef (doc ui') = pushed (historyRef (doc ui)) (elements (doc ui)) ∧
    drawState ui' = None ∧ previewArrow ui' = None.
Proof.
  intros Hs Hidle Ht Hb Hptr Hcam.
  destruct (stageMouseDown_drawing down ui p c Hidle)
    as (ui1 & Hdown & Hsame & Hp1 & Hc1 & Hd1 & Hdraw);
    [by rewrite Ht | done..|].
  rewrite Ht in Hdraw.
  destruct Hsame as (He & Hh & Hc & Hv & Hn & Hu).
  destruct (stageMouseMoves_still moves ui1
              (DrawStraight (screenToWorld p c (vp (doc ui)))) c)
    as (ui2 & d2 & Hm & Hdoc2 & Hp2 & Hc2 & Hda2 & Hd2 & Hst & _);
    [congruence | done | done | done |].
  specialize (Hst _ eq_refl). subst d2.
  assert (sound (doc ui1)) as Hs1.
  { destruct Hs as (?&?&?). unfold sound. by rewrite He, Hh, Hu. }
  unfold gesture. rewrite Hdown. cbn [mbind option_bind]. rewrite Hm.
  cbn [mbind option_bind].
  unfold stageMouseUp, onStageMouseUp, handleMouseUp. simpl. rewrite Hd2.
  rewrite Hdoc2, Hc2, Hda2, Hc1, Hd1.
  rewrite (worldOf_read up _ c _) by congruence.
  cbn [mbind option_bind]. unfold commitStraight.
  match goal with
  | |- context [applyElementsUpdate _ (set_uuidCount ?n (doc ui1))] =>
      match goal with
      | |- context [Fresh (_ ++ [?el])] =>
          destruct (append_commit el (doc ui1) n Hs1) as (st' & Happ & Hel & Hh');
            [apply wf_straightObject|]
      end
  end.
  rewrite Happ. simpl. eexists. split; [done|]. simpl.
  rewrite Hel, Hh'. simpl. by rewrite He, Hh, Hv, Hn.
Qed.

Lemma straight_gesture_commits_witness :
  ∃ ui', gesture (H := exampleHost) (pressAt 10 10) [pressAt 20 30]
           (pressAt 40 50) (exampleUI ToolArrowStraight) = Some ui' ∧
    length (elements (doc ui')) = 10 ∧ drawState ui' = None.
Proof.
  destruct (straight_gesture_commits (H := exampleHost) (pressAt 10 10)
              (pressAt 40 50) [pressAt 20 30]
              (mkPoint (Num.of_Z 10) (Num.of_Z 10))
              (mkCamera Num.zero Num.zero (Num.frac 3 2))
              (exampleUI ToolArrowStraight))
    as (ui' & Hg & Hel & _ & Hd & _);
    [ apply initialState_sound | repeat split; reflexivity | reflexivity
    | discriminate | reflexivity | reflexivity | ].
  exists ui'. split; [exact Hg|]. split; [|exact Hd].
  rewrite Hel, length_app. reflexivity.
Defined.

Section CurveGesture.
Context `{Host}.

(** The release of a curve gesture over the accumulated points [acc]. *)
Lemma curve_release (up : MouseEvent) (acc : list Point) (c : Camera)
    (ui ui2 : UI) :
  asCamera (camera (doc ui)) = Some c →
  sound (doc ui2) → same_board (doc ui) (doc ui2) → isPanning ui2 = false →
  drawState ui2 = Some (DrawCurve acc) → acc ≠ [] →
  currentArrowColor ui2 = currentArrowColor ui →
  currentDashed ui2 = currentDashed ui →
  ∃ ui', stageMouseUp up ui2 = Some ui' ∧
    elements (doc ui')
    = elements (doc ui)
      ++ [curveObject (JStr (uuidv4 (uuidCount (doc ui))))
            (prunePoints CURVE_POINT_EPSILON
               (if decide (length acc = 1)
                then acc ++ [worldFromPointer (pointerPos up) c (vp (doc ui))]
                else <[pred (length acc) :=
                         worldFromPointer (pointerPos up) c (vp (doc ui))]> acc))
            (ArrowColor_str (currentArrowColor ui)) (currentDashed ui)] ∧
    historyRef (doc ui') = pushed (historyRef (doc ui)) (elements (doc ui)) ∧
    drawState ui' = None ∧ previewArrow ui' = None.
Proof.
  intros Hcam Hs (He & Hh & Hc & Hv & Hn & Hu) Hp Hd Hne Hcol Hdash.
  unfold stageMouseUp, onStageMouseUp, handleMouseUp. simpl. rewrite Hd.
  rewrite Hcol, Hdash, Hv.
  rewrite (worldOf_read up _ c _) by congruence.
  cbn [mbind option_bind].
  pose proof (commitCurve_points acc
                (worldFromPointer (pointerPos up) c (vp (doc ui))) Hne) as Hlen.
  unfold commitCurve. destruct acc as [|a acc]; [done|]. cbv zeta.
  match goal with
  | |- context [decide (?x < 2)] => destruct (decide (x < 2)); [lia|]
  end.
  match goal with
  | |- context [applyElementsUpdate _ (set_uuidCount ?n (doc ui2))] =>
      match goal with
      | |- context [Fresh (_ ++ [?el])] =>
          destruct (append_commit el (doc ui2) n Hs) as (st' & Happ & Hel & Hh');
            [apply wf_curveObject|]
      end
  end.
  rewrite Happ. simpl. eexists. split; [done|]. simpl.
  by rewrite Hel, Hh', He, Hh, Hn.
Qed.

Lemma curve_gesture_accumulated (down : MouseEvent) (moves : list MouseEvent)
    (p : Point) (c : Camera) (ui : UI) :
  sound (doc ui) → idle ui → tool ui = ToolArrowCurve → button down ≠ 1 →
  pointerPos down = Some p → asCamera (camera (doc ui)) = Some c →
  ∃ ui1 ui2 acc, stageMouseDown down ui = Some ui1 ∧
    drawState ui1 = Some (DrawCurve [screenToWorld p c (vp (doc ui))]) ∧
    stageMouseMoves moves ui1 = Some ui2 ∧
    sound (doc ui2) ∧ same_board (doc ui) (doc ui2) ∧ isPanning ui2 = false ∧
    drawState ui2 = Some (DrawCurve acc) ∧ acc ≠ [] ∧
    currentArrowColor ui2 = currentArrowColor ui ∧
    currentDashed ui2 = currentDashed ui.
Proof.
  intros Hs Hidle Ht Hb Hptr Hcam.
  destruct (stageMouseDown_drawing down ui p c Hidle)
    as (ui1 & Hdown & Hsame & Hp1 & Hc1 & Hd1 & Hdraw);
    [by rewrite Ht | done..|].
  rewrite Ht in Hdraw.
  destruct Hsame as (He & Hh & Hc & Hv & Hn & Hu).
  destruct (stageMouseMoves_still moves ui1
              (DrawCurve [screenToWorld p c (vp (doc ui))]) c)
    as (ui2 & d2 & Hm & Hdoc2 & Hp2 & Hc2 & Hda2 & Hd2 & _ & Hcv);
    [congruence | done | done | by intros pts [= <-] |].
  destruct (Hcv _ eq_refl) as (acc & -> & Hne).
  exists ui1, ui2, acc. rewrite Hdoc2.
  split_and!; try done; try congruence.
  destruct Hs as (?&?&?). unfold sound. by rewrite He, Hh, Hu.
Qed.

End CurveGesture.

(** A gesture with the curve tool over a camera that can be read always
    adds one element, a curve of at least two points in the current color
    and dash under a new identifier: the branches that would discard a
    gesture are never taken.  The elements in place go on the history and
    the preview is cleared. *)
Theorem curve_gesture_commits `{Host} (down up : MouseEvent)
    (moves : list MouseEvent) (p : Point) (c : Camera) (ui : UI) :
  sound (doc ui) → idle ui → tool ui = ToolArrowCurve → button down ≠ 1 →
  pointerPos down = Some p → asCamera (camera (doc ui)) = Some c →
  ∃ ui' pts, gesture down moves up ui = Some ui' ∧ 2 ≤ length pts ∧
    elements (doc ui')
    = elements (doc ui)
      ++ [curveObject (JStr (uuidv4 (uuidCount (doc ui)))) pts
            (ArrowColor_str (currentArrowColor ui)) (currentDashed ui)] ∧
    historyRef (doc ui') = pushed (historyRef (doc ui)) (elements (doc ui)) ∧
    drawState ui' = None ∧ previewArrow ui' = None.
Proof.
  intros Hs Hidle Ht Hb Hptr Hcam.
  destruct (curve_gesture_accumulated down moves p c ui Hs Hidle Ht Hb Hptr Hcam)
    as (ui1 & ui2 & acc & Hdown & _ & Hm & Hs2 & Hsame & Hp2 & Hd2 & Hne & Hc2
        & Hda2).
  destruct (curve_release up acc c ui ui2 Hcam Hs2 Hsame Hp2 Hd2 Hne Hc2 Hda2)
    as (ui' & Hup & Hel & Hh & Hds & Hpv).
  eexists ui', _. unfold gesture. rewrite Hdown. cbn [mbind option_bind].
  rewrite Hm. cbn [mbind option_bind].
  split; [exact Hup|]. split; [|done].
  by apply commitCurve_points.
Qed.

Lemma curve_gesture_commits_witness :
  ∃ ui' pts, gesture (H := exampleHost) (pressAt 10 10)
               [pressAt 20 30; pressAt 21 30; pressAt 60 30] (pressAt 90 50)
               (exampleUI ToolArrowCurve) = Some ui' ∧
    2 ≤ length pts ∧
    elements (doc ui')
    = elements exampleState
      ++ [curveObject (JStr (@uuidv4 exampleHost 9)) pts "yellow" true].
Proof.
  destruct (curve_gesture_commits (H := exampleHost) (pressAt 10 10)
              (pressAt 90 50) [pressAt 20 30; pressAt 21 30; pressAt 60 30]
              (mkPoint (Num.of_Z 10) (Num.of_Z 10))
              (mkCamera Num.zero Num.zero (Num.frac 3 2))
              (exampleUI ToolArrowCurve))
    as (ui' & pts & Hg & Hlen & Hel & _);
    [ apply initialState_sound | repeat split; reflexivity | reflexivity
    | discriminate | reflexivity | reflexivity | ].
  exists ui', pts. split; [exact Hg|]. split; [exact Hlen | exact Hel].
Defined.

(** A press and release without a move in between, with the curve tool
    over a camera that can be read, adds a curve of exactly two points:
    the world points of the press and of the release, which coincide when
    the pointer did not move. *)
Theorem curve_click_commits `{Host} (down up : MouseEvent) (p : Point)
    (c : Camera) (ui : UI) :
  sound (doc ui) → idle ui → tool ui = ToolArrowCurve → button down ≠ 1 →
  pointerPos down = Some p → asCamera (camera (doc ui)) = Some c →
  ∃ ui', gesture down [] up ui = Some ui' ∧
    elements (doc ui')
    = elements (doc ui)
      ++ [curveObject (JStr (uuidv4 (uuidCount (doc ui))))
            [screenToWorld p c (vp (doc ui));
             worldFromPointer (pointerPos up) c (vp (doc ui))]
            (ArrowColor_str (currentArrowColor ui)) (currentDashed ui)].
Proof.
  intros Hs Hidle Ht Hb Hptr Hcam.
  destruct (curve_gesture_accumulated down [] p c ui Hs Hidle Ht Hb Hptr Hcam)
    as (ui1 & ui2 & acc & Hdown & Hdraw & Hm & Hs2 & Hsame & Hp2 & Hd2 & Hne
        & Hc2 & Hda2).
  simpl in Hm. injection Hm as <-.
  rewrite Hd2 in Hdraw. injection Hdraw as ->.
  destruct (curve_release up _ c ui _ Hcam Hs2 Hsame Hp2 Hd2 Hne Hc2 Hda2)
    as (ui' & Hup & Hel & _).
  exists ui'. unfold gesture. rewrite Hdown. simpl. split; [exact Hup|].
  rewrite Hel. do 3 f_equal.
  rewrite decide_True by done. apply prunePoints_fixpoint. left. simpl. lia.
Qed.

Lemma curve_click_commits_witness :
  ∃ ui', gesture (H := exampleHost) (pressAt 10 10) [] (pressAt 10 10)
           (exampleUI ToolArrowCurve) = Some ui' ∧
    elements (doc ui')
    = elements exampleState
      ++ [curveObject (JStr (@uuidv4 exampleHost 9))
            [screenToWorld (mkPoint (Num.of_Z 10) (Num.of_Z 10))
               (mkCamera Num.zero Num.zero (Num.frac 3 2)) (vp exampleState);
             worldFromPointer (pointerPos (pressAt 10 10))
               (mkCamera Num.zero Num.zero (Num.frac 3 2)) (vp exampleState)]
            "yellow" true].
Proof.
  apply (curve_click_commits (H := exampleHost) (pressAt 10 10) (pressAt 10 10)
           (mkPoint (Num.of_Z 10) (Num.of_Z 10))
           (mkCamera Num.zero Num.zero (Num.frac 3 2))
           (exampleUI ToolArrowCurve));
    [ apply initialState_sound | repeat split; reflexivity | reflexivity
    | discriminate | reflexivity | reflexivity ].
Defined.

(** ** The key handler *)

Section KeyFacts.
Context `{Host}.

(** The zoom of a digit key touches the camera only, and throws exactly
    when a field of the camera cannot be converted to a number. *)
Lemma zoomToPreset_frame (k : string) (st : State) :
  match zoomToPreset k st with
  | Some st' =>
      is_Some (asCamera (camera st)) ∧
      elements st' = elements st ∧ historyRef st' = historyRef st ∧
      selectedId st' = selectedId st ∧ isUndoingRef st' = isUndoingRef st
  | None => asCamera (camera st) = None
  end.
Proof.
  unfold zoomToPreset, handleDigitKey.
  destruct (scaleShortcut k), (asCamera (camera st)); simpl; by eauto.
Qed.

Lemma shortcut_is_digit (k : string) (s : jsnum) :
  scaleShortcut k = Some s →
  toLowerCase k ≠ "z" ∧ k ≠ "Delete" ∧
  String.leb "1" k && String.leb k "5" = true.
Proof.
  unfold scaleShortcut. intros Hk.
  repeat case_bool_decide; simplify_eq; by vm_compute.
Qed.

(** Deleting the selected element of a sound state. *)
Lemma deleteElement_selected (id : string) (st : State) :
  sound st → selectedId st = Some id →
  ∃ st1, deleteElement id st = Some st1 ∧
    elements st1 = filter (other_id id) (elements st) ∧
    historyRef st1 = pushed (historyRef st) (elements st) ∧
    selectedId st1 = None.
Proof.
  intros Hs Hsel. pose proof Hs as (Hwf & Hh & Hu).
  unfold deleteElement. rewrite Hsel, bool_decide_eq_true_2 by done.
  assert (sound (set_selectedId None st)) as Hs0 by done.
  assert (Forall wf_el (filter (other_id id) (elements st))) as Hn.
  { apply Forall_forall. intros e Hin.
    apply list_elem_of_filter in Hin as [_ Hin]. by eapply Forall_forall in Hwf. }
  destruct (applyElementsUpdate_elements (deleteUpdater id)
              (filter (other_id id) (elements st)) (set_selectedId None st))
    as (st1 & Hrun & Hel); [done | by apply deleteUpdater_total |].
  destruct (applyElementsUpdate_sound (deleteUpdater id) _ _ st1 Hs0
              (deleteUpdater_total id _ Hwf) Hn Hrun) as (_ & _ & Hh1 & Hsel1 & _).
  by exists st1.
Qed.

End KeyFacts.

(** A key that is neither the undo combination nor an effective Delete
    leaves the elements, the history, the selection and the gesture under
    way as they are: only the camera and the space flag can change.  The
    handler throws in one case only, a digit key over a mounted stage when
    a field of the camera cannot be converted to a number. *)
Theorem onKeyDown_keeps_elements `{Host} (stage : bool) (e : KeyEvent) (ui : UI) :
  isUndoKey e = false → deleteTarget e ui = None →
  match onKeyDown stage e ui with
  | Some ui' =>
      elements (doc ui') = elements (doc ui) ∧
      historyRef (doc ui') = historyRef (doc ui) ∧
      selectedId (doc ui') = selectedId (doc ui) ∧
      drawState ui' = drawState ui ∧ isPanning ui' = isPanning ui ∧
      tool ui' = tool ui
  | None =>
      isDigitKey e && stage = true ∧ asCamera (camera (doc ui)) = None
  end.
Proof.
  intros Hu Hd. unfold onKeyDown. rewrite Hu, Hd.
  pose proof (zoomToPreset_frame (KeyboardEvent.key e) (doc ui)) as Hz.
  destruct (isDigitKey e && stage); case_bool_decide; simpl; try done;
    destruct (zoomToPreset (KeyboardEvent.key e) (doc ui)) as [d|];
    simpl; try done; by destruct Hz as (_ & -> & -> & -> & _).
Qed.

Lemma onKeyDown_keeps_elements_witness :
  ∃ ui', onKeyDown (H := exampleHost) true typedThree (exampleUI ToolSelect)
         = Some ui' ∧
    elements (doc ui') = elements exampleState ∧
    historyRef (doc ui') = historyRef exampleState ∧
    selectedId (doc ui') = selectedId exampleState ∧
    drawState ui' = None ∧ isPanning ui' = false ∧ tool ui' = ToolSelect.
Proof.
  pose proof (onKeyDown_keeps_elements (H := exampleHost) true typedThree
                (exampleUI ToolSelect) eq_refl eq_refl) as Hkey.
  destruct (onKeyDown (H := exampleHost) true typedThree (exampleUI ToolSelect))
    as [ui'|] eqn:E.
  - exists ui'. split; [reflexivity | exact Hkey].
  - vm_compute in E. discriminate E.
Defined.

(** A digit key over a camera whose scale has no primitive value throws. *)
Example onKeyDown_unconvertible :
  onKeyDown (H := exampleHost) true typedThree
    (set_doc (set_camera cameraUnconvertible exampleState)
       (exampleUI ToolSelect)) = None.
Proof. vm_compute. reflexivity. Qed.

(** Over a camera that can be read, a digit key of the table sets its
    scale whatever the focus and the modifier keys: in a text input, or
    with Ctrl, Alt, Shift or Meta held, the camera is zoomed about the
    centre of the viewport all the same. *)
Theorem digit_key_ignores_focus `{Host} (e : KeyEvent) (newScale : jsnum)
    (c : Camera) (ui : UI) :
  scaleShortcut (KeyboardEvent.key e) = Some newScale →
  asCamera (camera (doc ui)) = Some c →
  ∃ ui', onKeyDown true e ui = Some ui' ∧
    handleDigitKey (KeyboardEvent.key e) (doc ui) = Some (doc ui') ∧
    camera (doc ui')
    = Camera_toJS
        (cameraZoomTo c
           (mkPoint (vp_w (vp (doc ui)) / two)%js (vp_h (vp (doc ui)) / two)%js)
           newScale (vp (doc ui))) ∧
    scaleOf (doc ui') = Some newScale.
Proof.
  intros Hk Hc. destruct (shortcut_is_digit _ _ Hk) as (Hz & Hdel & Hrange).
  pose proof (handleDigitKey_spec _ _ (doc ui) Hk) as Hspec.
  rewrite Hc in Hspec.
  unfold onKeyDown, isUndoKey, deleteTarget, isDigitKey.
  rewrite (bool_decide_eq_false_2 _ Hz), (bool_decide_eq_false_2 _ Hdel), Hrange.
  rewrite !andb_false_r. simpl.
  assert (∀ ui1, doc ui1 = doc ui →
            zoomToPreset (KeyboardEvent.key e) (doc ui1)
            = handleDigitKey (KeyboardEvent.key e) (doc ui)) as Hzoom.
  { intros ui1 ->. unfold zoomToPreset. by rewrite Hk. }
  case_bool_decide; rewrite Hzoom by done; rewrite Hspec; simpl;
    (eexists; split; [done|]); simpl;
    (split; [done|]); (split; [done|]); apply scaleOf_set_camera.
Qed.

Lemma digit_key_ignores_focus_witness :
  KeyboardEvent.editable typedThree = true ∧
  ∃ ui', onKeyDown (H := exampleHost) true typedThree (exampleUI ToolSelect)
         = Some ui' ∧
    handleDigitKey (H := exampleHost) "3" exampleState = Some (doc ui') ∧
    camera (doc ui')
    = Camera_toJS
        (cameraZoomTo (mkCamera Num.zero Num.zero (Num.frac 3 2))
           (mkPoint (vp_w (vp exampleState) / two)%js
              (vp_h (vp exampleState) / two)%js)
           two (vp exampleState)) ∧
    scaleOf (H := exampleHost) (doc ui') = Some two.
Proof.
  split; [reflexivity|].
  apply (digit_key_ignores_focus (H := exampleHost) typedThree two
           (mkCamera Num.zero Num.zero (Num.frac 3 2)) (exampleUI ToolSelect));
    reflexivity.
Defined.

(** The Delete key on the selected element, then the undo combination with
    any other modifier and any focus: the first removes every element with
    the selected identifier, closes the context menu and clears the
    selection; the second brings the elements back and leaves the selection
    empty. *)
Theorem delete_key_then_undo_key `{Host} (stage : bool) (del z : KeyEvent)
    (id : string) (ui : UI) :
  sound (doc ui) → selectedId (doc ui) = Some id → id ≠ EmptyString →
  KeyboardEvent.key del = "Delete" → isPlainKey del = true → isUndoKey z = true →
  ∃ ui1 ui2, onKeyDown stage del ui = Some ui1 ∧
    Forall (other_id id) (elements (doc ui1)) ∧
    selectedId (doc ui1) = None ∧ ctx_open (ctxMenu ui1) = false ∧
    onKeyDown stage z ui1 = Some ui2 ∧
    elements (doc ui2) = elements (doc ui) ∧ selectedId (doc ui2) = None.
Proof.
  intros Hs Hsel Hid Hk Hplain Hz. pose proof Hs as (Hwf & _).
  destruct (deleteElement_selected id (doc ui) Hs Hsel)
    as (st1 & Hdel & Hel & Hh1 & Hsel1).
  destruct (undo_pushed (historyRef (doc ui)) (elements (doc ui)) st1 Hwf Hh1)
    as (st2 & Hundo & He2 & _ & Hsel2 & _).
  assert (isUndoKey del = false) as Hnz.
  { unfold isUndoKey. rewrite Hk. unfold isPlainKey in Hplain.
    destruct (KeyboardEvent.ctrlKey del), (KeyboardEvent.metaKey del); try done;
      by rewrite ?andb_false_r in Hplain. }
  exists (set_doc st1 (closeCtx ui)), (set_doc st2 (set_doc st1 (closeCtx ui))).
  unfold onKeyDown at 1. rewrite Hnz. unfold deleteTarget.
  rewrite Hplain, Hk, Hsel, (bool_decide_eq_false_2 _ Hid). simpl.
  change (doc (closeCtx ui)) with (doc ui). rewrite Hdel. simpl.
  split; [done|]. split.
  { rewrite Hel. apply Forall_forall. intros x Hin.
    by apply list_elem_of_filter in Hin as [? _]. }
  split; [done|]. split; [done|].
  unfold onKeyDown. rewrite Hz. simpl. rewrite Hundo. simpl.
  split; [done|]. split; [done|]. by rewrite Hsel2.
Qed.

Lemma delete_key_then_undo_key_witness :
  ∃ ui1 ui2,
    onKeyDown (H := exampleHost) true (plainKey "Delete" "Delete")
      (set_doc stableState (exampleUI ToolSelect)) = Some ui1 ∧
    Forall (other_id "p1") (elements (doc ui1)) ∧
    selectedId (doc ui1) = None ∧ ctx_open (ctxMenu ui1) = false ∧
    onKeyDown (H := exampleHost) true ctrlShiftZ ui1 = Some ui2 ∧
    elements (doc ui2) = elements stableState ∧ selectedId (doc ui2) = None.
Proof.
  apply (delete_key_then_undo_key (H := exampleHost) true
           (plainKey "Delete" "Delete") ctrlShiftZ "p1"
           (set_doc stableState (exampleUI ToolSelect)));
    first [exact stableState_sound | reflexivity | discriminate].
Defined.

(** While the space bar is held every press on the stage starts a pan from
    the pointer, with any button and any tool, starts no drawing and does
    not throw; the release of the space bar clears the flag.  The key
    press itself throws in one case only, a key that is also a digit over
    a mounted stage when a field of the camera cannot be converted to a
    number. *)
Theorem space_held_pans `{Host} (stage : bool) (e : KeyEvent) (m : MouseEvent)
    (ui : UI) :
  KeyboardEvent.code e = "Space" → isUndoKey e = false → deleteTarget e ui = None →
  match onKeyDown stage e ui with
  | Some ui' =>
      spaceDownRef ui' = true ∧
      spaceDownRef (onKeyUp e ui') = false ∧
      ∃ ui'', stageMouseDown m ui' = Some ui'' ∧
        isPanning ui'' = true ∧
        lastPointerRef ui'' = pointerPos m ∧
        drawState ui'' = drawState ui
  | None =>
      isDigitKey e && stage = true ∧ asCamera (camera (doc ui)) = None
  end.
Proof.
  intros Hc Hu Hd. unfold onKeyDown, onKeyUp. rewrite Hu, Hd, Hc.
  rewrite bool_decide_eq_true_2 by done.
  pose proof (zoomToPreset_frame (KeyboardEvent.key e) (doc ui)) as Hz.
  change (doc (set_spaceDown true ui)) with (doc ui).
  destruct (isDigitKey e && stage);
    [destruct (zoomToPreset (KeyboardEvent.key e) (doc ui)) as [d|]; [|done]|];
    simpl; (split; [done|]); (split; [done|]);
    unfold stageMouseDown, onStageMouseDown, handleMouseDown; simpl;
    repeat case_match; simplify_eq/=; try done; by eexists.
Qed.

Lemma space_held_pans_witness :
  ∃ ui' ui'', onKeyDown (H := exampleHost) true (plainKey " " "Space")
           (exampleUI ToolArrowCurve) = Some ui' ∧
    spaceDownRef ui' = true ∧
    spaceDownRef (onKeyUp (plainKey " " "Space") ui') = false ∧
    stageMouseDown (H := exampleHost) (pressAt 10 10) ui' = Some ui'' ∧
    isPanning ui'' = true ∧
    lastPointerRef ui'' = pointerPos (pressAt 10 10) ∧
    drawState ui'' = drawState (exampleUI ToolArrowCurve).
Proof.
  pose proof (space_held_pans (H := exampleHost) true (plainKey " " "Space")
                (pressAt 10 10) (exampleUI ToolArrowCurve)
                eq_refl eq_refl eq_refl) as Hspace.
  destruct (onKeyDown (H := exampleHost) true (plainKey " " "Space")
              (exampleUI ToolArrowCurve)) as [ui'|] eqn:E.
  - destruct Hspace as (Hdown & Hup & ui'' & Hpress & Hpan & Hlast & Hdraw).
    exists ui', ui''. repeat split; assumption.
  - vm_compute in E. discriminate E.
Defined.
